(** * The Grigorchuk group engine of rogueviz/grigorchuk.cpp

    A shallow embedding of the word layer ([add], [reduce], [split], [empt]),
    of the hash-consed canonical forms ([rep], [lookup], [mul]), of the
    breadth-first enumeration done by [prepare] and of the lazy map
    ([hrmap_grigorchuk::create_step]), followed by the properties proved
    about them. *)

From Stdlib Require Import Ascii String NArith ZArith.
From stdpp Require Import base option list gmap.

Local Open Scope char_scope.

(** ** Words

    A C++ [string] is a vector of [char]; it is modelled as a list of
    characters whose last element is [s.back()]. *)

Module Word.

Abbreviation char := ascii (only parsing).
Abbreviation word := (list ascii) (only parsing).

(** A string literal as a word. *)
Definition str (s : string) : word := list_ascii_of_string s.

Definition char_eqb (x y : char) : bool := Ascii.eqb x y.

(** [x ^ y] on [char]: the operands are promoted to [int], xor-ed bit by
    bit, and the result (which fits in eight bits) is stored back. *)
Definition char_xor (x y : char) : char :=
  ascii_of_N (N.lxor (N_of_ascii x) (N_of_ascii y)).

Definition back (s : word) : option char := last s.
Definition push_back (s : word) (c : char) : word := s ++ [c].
Definition pop_back (s : word) : word := removelast s.
(** [s.back() = v] *)
Definition set_back (s : word) (v : char) : word := removelast s ++ [v].

(** [void add(string& s, char c)] *)
Definition add (s : word) (c : char) : word :=
  match back s with
  | None => push_back s c
  | Some b =>
      if char_eqb c b then pop_back s
      else if negb (char_eqb c "a") && negb (char_eqb b "a") then
        set_back s (char_xor (char_xor (char_xor (char_xor b c) "d") "b") "c")
      else push_back s c
  end.

(** [string reduce(const string& x)] *)
Definition reduce (x : word) : word := fold_left add x [].

(** [typedef tuple<bool, string, string> splitter] *)
Abbreviation splitter := (bool * word * word)%type (only parsing).

(** One iteration of the loop of [split]: the four [if]s are tried in the
    order of the source; the first three do not change [c] or [swapped],
    so at most one of them fires. *)
Definition split_step (st : splitter) (c : char) : splitter :=
  let '(swapped, s0, s1) := st in
  let '(s0, s1) :=
    if char_eqb c "b"
    then (add s0 (if swapped then "a" else "c"), add s1 (if swapped then "c" else "a"))
    else (s0, s1) in
  let '(s0, s1) :=
    if char_eqb c "c"
    then (add s0 (if swapped then "a" else "d"), add s1 (if swapped then "d" else "a"))
    else (s0, s1) in
  let '(s0, s1) :=
    if char_eqb c "d"
    then (if swapped then (s0, add s1 "b") else (add s0 "b", s1))
    else (s0, s1) in
  let swapped := if char_eqb c "a" then negb swapped else swapped in
  (swapped, s0, s1).

(** [splitter split(string s)] *)
Definition split (s : word) : splitter := fold_left split_step s (false, [], []).

(** [bool empt(const string& x)].  The recursion of the source is not
    structural; [fuel] bounds the number of nested activations of [empt]
    (the running call included) and [None] means that this number was
    exceeded.  [&&] evaluates its right operand only when the left one is
    true. *)
Fixpoint empt (fuel : nat) (x : word) : option bool :=
  match fuel with
  | 0 => None
  | S fuel =>
      let '(swapped, s0, s1) := split x in
      if decide (x = []) then Some true
      else if decide (x = ["d"]) then Some false
      else if swapped then Some false
      else match empt fuel s0 with
           | Some true => empt fuel s1
           | r => r
           end
  end.

(** The alphabet of generator symbols. *)
Definition is_gen (c : char) : bool :=
  char_eqb c "a" || char_eqb c "b" || char_eqb c "c" || char_eqb c "d".

Definition over_gens (w : word) : Prop := Forall (λ c, is_gen c = true) w.

Definition is_bcd (c : char) : bool :=
  char_eqb c "b" || char_eqb c "c" || char_eqb c "d".

(** The two conditions on the output of [reduce]: no two adjacent symbols
    are equal, and no two adjacent symbols are both in {b,c,d}. *)
Fixpoint no_adjacent_equal (w : word) : bool :=
  match w with
  | x :: (y :: _) as w' => negb (char_eqb x y) && no_adjacent_equal w'
  | _ => true
  end.

Fixpoint no_adjacent_bcd (w : word) : bool :=
  match w with
  | x :: (y :: _) as w' => negb (is_bcd x && is_bcd y) && no_adjacent_bcd w'
  | _ => true
  end.

(** The shape of a reduced word. *)
Definition reduced (w : word) : Prop :=
  over_gens w ∧ no_adjacent_equal w = true ∧ no_adjacent_bcd w = true.

(** The number of symbols of a word other than [a] (these are the ones
    that [split] routes to a half). *)
Definition nona (w : word) : nat :=
  length (filter (λ c, char_eqb c "a" = false) w).

(** The halves of a word without [a]: at most one symbol of {b,c,d} on
    the first side, at most one [a] on the second. *)
Definition small0 (s : word) : Prop := s = [] ∨ ∃ x, s = [x] ∧ is_bcd x = true.
Definition small1 (s : word) : Prop := s = [] ∨ s = ["a"].

(** One iteration of the loop of [split_slow]: the symbols are appended
    as they come, and a side that receives nothing is padded with ['-']. *)
Definition split_slow_step (st : splitter) (c : char) : splitter :=
  let '(swapped, s0, s1) := st in
  let '(s0, s1) :=
    if char_eqb c "b"
    then (s0 ++ [if swapped then "a" else "c"], s1 ++ [if swapped then "c" else "a"])
    else (s0, s1) in
  let '(s0, s1) :=
    if char_eqb c "c"
    then (s0 ++ [if swapped then "a" else "d"], s1 ++ [if swapped then "d" else "a"])
    else (s0, s1) in
  let '(s0, s1) :=
    if char_eqb c "d"
    then (if swapped then (s0 ++ ["-"], s1 ++ ["b"]) else (s0 ++ ["b"], s1 ++ ["-"]))
    else (s0, s1) in
  if char_eqb c "a" then (negb swapped, s0 ++ ["-"], s1 ++ ["-"])
  else (swapped, s0, s1).

(** [splitter split_slow(string s)] *)
Definition split_slow (s : word) : splitter :=
  fold_left split_slow_step s (false, [], []).

(** A half of [split_slow] without its padding. *)
Definition undash (s : word) : word := filter (λ c, c ≠ "-") s.

(** The number of occurrences of [a], and of generator symbols. *)
Definition count_a (w : word) : nat := length (filter (λ c, c = "a") w).
Definition count_gens (w : word) : nat :=
  length (filter (λ c, is_gen c = true) w).

(** [string encode(string s)], with [fuel] as for [empt]. *)
Fixpoint encode (fuel : nat) (s : word) : option word :=
  match fuel with
  | 0 => None
  | S fuel =>
      if decide (s = []) then Some (str "I")
      else if decide (s = ["d"]) then Some (str "d")
      else
        let '(swapped, s0, s1) := split s in
        e0 ← encode fuel s0;
        e1 ← encode fuel s1;
        Some ((if swapped then str "a(" else str "(")
                ++ e0 ++ str "," ++ e1 ++ str ")")
  end.

(** An encoding with no swap mark and no leaf [d]. *)
Definition plain (e : word) : bool :=
  forallb (λ c, negb (char_eqb c "a") && negb (char_eqb c "d")) e.

(** [set<string> seen]: the strings of the set, listed in the order of
    their insertion.  [addmore] only asks whether some member passes a
    test, so the order in which the set is traversed does not show. *)
Definition seen_insert (seen : list word) (s : word) : list word :=
  if decide (s ∈ seen) then seen else seen ++ [s].

(** The loop [for(string q: seen)] of [addmore]: [true] when it is left
    by [return].  [empt] is given the nesting that suffices for its
    argument (see [empt_terminates]). *)
Fixpoint addmore_scan (sr : word) (qs : list word) : option bool :=
  match qs with
  | [] => Some false
  | q :: qs =>
      let q := fold_left add sr q in
      match empt (length q + 2) q with
      | Some true => Some true
      | Some false => addmore_scan sr qs
      | None => None
      end
  end.

(** [void addmore(const string& s, int more)]; the state is the set
    [seen].  [fuel] bounds the nesting of the recursion, which does not
    end for a negative [more]. *)
Fixpoint addmore (fuel : nat) (seen : list word) (s : word) (more : Z)
  : option (list word) :=
  match fuel with
  | 0 => None
  | S fuel =>
      if decide (more = 0)%Z then
        match addmore_scan (reverse s) seen with
        | Some true => Some seen
        | Some false => Some (seen_insert seen s)
        | None => None
        end
      else
        fold_left
          (λ (acc : option (list word)) (c : char),
             seen ← acc;
             let s1 := add s c in
             if decide (length s1 ≠ length s + 1) then Some seen
             else addmore fuel seen s1 (more - 1)%Z)
          ["a"; "b"; "c"; "d"] (Some seen)
  end.

End Word.


(** ** Canonical representatives

    [typedef const struct rep* prep].  A pointer to a representative is
    either the address of one of the five static objects or the address of
    the key of a node of the map [all_reps]; map nodes never move and are
    never erased, so the [n]-th node ever inserted is named [node n]. *)

Module Store.
Import Word.

Inductive prep : Set :=
  | grig_I | grig_a | grig_b | grig_c | grig_d
  | node (n : nat).

Global Instance prep_eq_dec : EqDecision prep.
Proof. solve_decision. Defined.

(** [struct rep]; [len] is an [int], [-1] when unset. *)
Record rep : Set := mk_rep {
  swapped : bool;
  a0 : prep;
  a1 : prep;
  last : char;
  visited : bool;
  len : Z
}.

(** The constructor [rep(bool s, prep a0, prep a1, char l, bool vis = false)]. *)
Definition new_rep (s : bool) (a0 a1 : prep) (l : char) : rep :=
  mk_rep s a0 a1 l false (-1).

(** [tie(a.swapped, a.a0, a.a1)] *)
Definition tie (r : rep) : bool * prep * prep := (swapped r, a0 r, a1 r).

(** [bool operator == (const rep a, const rep b)] *)
Definition rep_eqb (a b : rep) : bool := bool_decide (tie a = tie b).

(** [bool operator < (const rep a, const rep b)]: the lexicographic order
    of the three components, pointers being compared by address. *)
Section order.
Variable addr : prep → Z.

Definition rep_ltb (a b : rep) : bool :=
  if bool_decide (swapped a = swapped b) then
    if bool_decide (addr (a0 a) = addr (a0 b)) then
      bool_decide (addr (a1 a) < addr (a1 b))%Z
    else bool_decide (addr (a0 a) < addr (a0 b))%Z
  else negb (swapped a) && swapped b.

(** Two keys of a [std::map] are the same key when neither is less than
    the other. *)
Definition rep_equiv (a b : rep) : bool :=
  negb (rep_ltb a b) && negb (rep_ltb b a).
End order.

(** The memory the engine works on: the five static objects and the nodes
    of [map<rep, char> all_reps] in the order of their insertion (the
    mapped [char] is always 0 and never read). *)
Record store : Set := mk_store {
  obj_I : rep;
  obj_a : rep;
  obj_b : rep;
  obj_c : rep;
  obj_d : rep;
  all_reps : list rep
}.

(** The state at the end of static initialisation. *)
Definition init : store := {|
  obj_I := new_rep false grig_I grig_I zero;
  obj_a := new_rep true grig_I grig_I "a";
  obj_b := new_rep false grig_a grig_c "b";
  obj_c := new_rep false grig_a grig_d "c";
  obj_d := new_rep false grig_I grig_b "d";
  all_reps := []
|}.

(** [*p]; [None] for a pointer to a node that was never allocated. *)
Definition deref (st : store) (p : prep) : option rep :=
  match p with
  | grig_I => Some (obj_I st)
  | grig_a => Some (obj_a st)
  | grig_b => Some (obj_b st)
  | grig_c => Some (obj_c st)
  | grig_d => Some (obj_d st)
  | node n => all_reps st !! n
  end.

(** Assignment to the [mutable] fields of [*p]. *)
Definition update (st : store) (p : prep) (f : rep → rep) : store :=
  match p with
  | grig_I => mk_store (f (obj_I st)) (obj_a st) (obj_b st) (obj_c st) (obj_d st) (all_reps st)
  | grig_a => mk_store (obj_I st) (f (obj_a st)) (obj_b st) (obj_c st) (obj_d st) (all_reps st)
  | grig_b => mk_store (obj_I st) (obj_a st) (f (obj_b st)) (obj_c st) (obj_d st) (all_reps st)
  | grig_c => mk_store (obj_I st) (obj_a st) (obj_b st) (f (obj_c st)) (obj_d st) (all_reps st)
  | grig_d => mk_store (obj_I st) (obj_a st) (obj_b st) (obj_c st) (f (obj_d st)) (all_reps st)
  | node n => mk_store (obj_I st) (obj_a st) (obj_b st) (obj_c st) (obj_d st)
                (alter f n (all_reps st))
  end.

Definition set_last (l : char) (r : rep) : rep :=
  mk_rep (swapped r) (a0 r) (a1 r) l (visited r) (len r).
Definition set_visited (v : bool) (r : rep) : rep :=
  mk_rep (swapped r) (a0 r) (a1 r) (last r) v (len r).
Definition set_len (d : Z) (r : rep) : rep :=
  mk_rep (swapped r) (a0 r) (a1 r) (last r) (visited r) d.

(** [all_reps.emplace(x, 0)] for a key that is not in the map: a new node
    holding a copy of [x]. *)
Definition emplace (st : store) (x : rep) : store :=
  mk_store (obj_I st) (obj_a st) (obj_b st) (obj_c st) (obj_d st)
    (all_reps st ++ [x]).

(** [prep lookup(rep x)].  [all_reps.find(x)] is the node whose key is
    the same key as [x]; keys are compared by [<] only, and the key
    equivalence it induces is [==] (see [rep_equiv_eqb]). *)
Definition lookup (st : store) (x : rep) : prep * store :=
  if rep_eqb x (obj_I st) then (grig_I, st)
  else if rep_eqb x (obj_a st) then (grig_a, st)
  else if rep_eqb x (obj_b st) then (grig_b, st)
  else if rep_eqb x (obj_c st) then (grig_c, st)
  else if rep_eqb x (obj_d st) then (grig_d, st)
  else match list_find (λ k, rep_eqb x k = true) (all_reps st) with
       | Some (n, _) => (node n, st)
       | None => (node (length (all_reps st)), emplace st x)
       end.

(** The twelve constant cases at the head of [mul], in the order of the
    source. *)
Definition mul_const (x y : prep) : option prep :=
  if decide (x = grig_I) then Some y
  else if decide (y = grig_I) then Some x
  else if decide (x = grig_a ∧ y = grig_a) then Some grig_I
  else if decide (x = grig_b ∧ y = grig_b) then Some grig_I
  else if decide (x = grig_c ∧ y = grig_c) then Some grig_I
  else if decide (x = grig_d ∧ y = grig_d) then Some grig_I
  else if decide (x = grig_b ∧ y = grig_c) then Some grig_d
  else if decide (x = grig_c ∧ y = grig_b) then Some grig_d
  else if decide (x = grig_b ∧ y = grig_d) then Some grig_c
  else if decide (x = grig_d ∧ y = grig_b) then Some grig_c
  else if decide (x = grig_c ∧ y = grig_d) then Some grig_b
  else if decide (x = grig_d ∧ y = grig_c) then Some grig_b
  else None.

(** [prep mul(prep x, prep y)].  [fuel] bounds the number of nested
    activations; [None] also stands for the dereference of a dangling
    pointer.  The members of the braced initialiser are evaluated from
    left to right: the first recursive call runs before the second, and
    [y->last] is read after both.  [swapped], [a0] and [a1] are not
    [mutable]: they are read once, before the calls. *)
Fixpoint mul_fuel (fuel : nat) (st : store) (x y : prep) : option (prep * store) :=
  match fuel with
  | 0 => None
  | S fuel =>
      match mul_const x y with
      | Some r => Some (r, st)
      | None =>
          rx ← deref st x;
          ry ← deref st y;
          if negb (swapped ry) then
            '(p0, st1) ← mul_fuel fuel st (a0 rx) (a0 ry);
            '(p1, st2) ← mul_fuel fuel st1 (a1 rx) (a1 ry);
            ry2 ← deref st2 y;
            Some (lookup st2 (new_rep (swapped rx) p0 p1 (last ry2)))
          else
            '(p0, st1) ← mul_fuel fuel st (a1 rx) (a0 ry);
            '(p1, st2) ← mul_fuel fuel st1 (a0 rx) (a1 ry);
            ry2 ← deref st2 y;
            Some (lookup st2 (new_rep (negb (swapped rx)) p0 p1 (last ry2)))
      end
  end.

(** The nesting of [mul] never exceeds this number when the children of
    every map node were allocated before the node itself
    (see [mul_fuel_enough]). *)
Definition mul_depth (st : store) : nat := 2 * length (all_reps st) + 5.

Definition mul (st : store) (x y : prep) : option (prep * store) :=
  mul_fuel (mul_depth st) st x y.

(** *** Invariants of the store *)

(** A pointer that can be dereferenced. *)
Definition valid (st : store) (p : prep) : Prop :=
  match p with node n => n < length (all_reps st) | _ => True end.

(** A child of the [n]-th node was allocated before it. *)
Definition before (n : nat) (p : prep) : Prop :=
  match p with node m => m < n | _ => True end.

(** The [const] members of the static objects keep their initial values. *)
Definition statics_ok (st : store) : Prop :=
  tie (obj_I st) = (false, grig_I, grig_I) ∧
  tie (obj_a st) = (true, grig_I, grig_I) ∧
  tie (obj_b st) = (false, grig_a, grig_c) ∧
  tie (obj_c st) = (false, grig_a, grig_d) ∧
  tie (obj_d st) = (false, grig_I, grig_b).

Definition closed (st : store) : Prop :=
  ∀ n r, all_reps st !! n = Some r → before n (a0 r) ∧ before n (a1 r).

(** The hash-consing invariant: two pointers to objects with the same
    triple are the same pointer. *)
Definition hashcons (st : store) : Prop :=
  ∀ p q rp rq,
    deref st p = Some rp → deref st q = Some rq → tie rp = tie rq → p = q.

Definition wf (st : store) : Prop := statics_ok st ∧ closed st ∧ hashcons st.

(** [st'] is [st] with further nodes inserted, nothing else changed. *)
Definition grows (st st' : store) : Prop :=
  obj_I st' = obj_I st ∧ obj_a st' = obj_a st ∧ obj_b st' = obj_b st ∧
  obj_c st' = obj_c st ∧ obj_d st' = obj_d st ∧
  ∃ l, all_reps st' = all_reps st ++ l.

(** Every object of [st] is still there in [st'], with the same triple
    (its [mutable] fields may differ). *)
Definition tie_le (st st' : store) : Prop :=
  ∀ p r, deref st p = Some r → ∃ r', deref st' p = Some r' ∧ tie r' = tie r.

Definition is_static (p : prep) : Prop :=
  match p with node _ => False | _ => True end.

Definition bcd_ptr (p : prep) : Prop := p = grig_b ∨ p = grig_c ∨ p = grig_d.

(** The two stores have the same objects with the same triples (their
    [mutable] fields may differ). *)
Definition same_ties (st st' : store) : Prop :=
  ∀ q, tie <$> deref st' q = tie <$> deref st q.

(** A bound on the nesting of [mul x y]. *)
Definition prank (p : prep) : nat :=
  match p with
  | grig_I => 0
  | grig_a => 1
  | grig_b | grig_c | grig_d => 2
  | node n => 3 + n
  end.

(** *** The action on the binary tree

    A representative [(s, x0, x1)] stands for the automorphism of the
    rooted binary tree that acts as [x0] below the left child and as [x1]
    below the right child of the root and then exchanges the two children
    when [s] holds.  [act st p w] is the image of the vertex [w] (a path
    from the root, [false] for left). *)
Fixpoint act (st : store) (p : prep) (w : list bool) : list bool :=
  match w with
  | [] => []
  | b :: w' =>
      match deref st p with
      | Some r => xorb b (swapped r) :: act st (if b then a1 r else a0 r) w'
      | None => b :: w'
      end
  end.

(** The automorphism a symbol of a word stands for: that of the static
    object of this name.  Any other symbol stands for the identity, as
    [split] skips it. *)
Definition gen_act (c : char) (v : list bool) : list bool :=
  if char_eqb c "a" then act init grig_a v
  else if char_eqb c "b" then act init grig_b v
  else if char_eqb c "c" then act init grig_c v
  else if char_eqb c "d" then act init grig_d v
  else v.

(** The action of a word on a vertex, its first symbol applied first. *)
Definition word_act (w : word) (v : list bool) : list bool :=
  fold_left (λ v c, gen_act c v) w v.

(** Two words stand for the same element of the group. *)
Definition same_element (q s : word) : Prop :=
  ∀ v, word_act q v = word_act s v.

(** No two strings of the list stand for the same element. *)
Definition distinct_elements (seen : list word) : Prop :=
  ∀ q1 q2, q1 ∈ seen → q2 ∈ seen → same_element q1 q2 → q1 = q2.

(** The six labels that [deform] knows. *)
Definition known_label (l : char) : Prop :=
  l = "a" ∨ l = "b" ∨ l = "c" ∨ l = "d" ∨ l = "A" ∨ l = "C".

(** Every object but the identity carries one of them. *)
Definition labelled (st : store) : Prop :=
  ∀ p r, deref st p = Some r → p ≠ grig_I → known_label (last r).

(** Some assignment of addresses to the objects, for an instance of
    [operator <]. *)
Definition addr0 (p : prep) : Z :=
  match p with
  | grig_I => 0 | grig_a => 1 | grig_b => 2 | grig_c => 3 | grig_d => 4
  | node n => 5 + Z.of_nat n
  end.

End Store.

(** ** The Cayley-layer enumerator *)

Module Enumerator.
Import Word Store.

(** The lambda [visit] of [prepare]; the vector [all] is captured by
    reference. *)
Definition visit (st : store) (all : list prep) (x : prep) (l : char) (d : Z)
  : option (store * list prep) :=
  r ← deref st x;
  if visited r then Some (st, all)
  else
    let st := update st x (set_visited true) in
    let st := update st x (set_last l) in
    let all := all ++ [x] in
    let st := update st x (set_len d) in
    Some (st, all).

(** The body of the [for] loop of [prepare] at index [i].  [all[i]] out
    of range has no defined result ([None]).  The progress line printed
    when [i == next], and the locals [length] and [next] that only serve
    it, are not part of the state.  [x->len + 1] is an argument of [visit]
    next to the call of [mul], which does not write to [len]; the [len] of
    [all[i]] is at most [i] (see [prepare_len_bound]), which is below
    [grig_limit], so the addition does not overflow an [int]. *)
Definition bfs_body (ac ca : prep) (i : nat) (s : store * list prep)
  : option (store * list prep) :=
  let '(st, all) := s in
  x ← all !! i;
  '(p, st) ← mul st x grig_b;
  rx ← deref st x;
  '(st, all) ← visit st all p "b" (len rx + 1);
  '(p, st) ← mul st x ac;
  rx ← deref st x;
  '(st, all) ← visit st all p "A" (len rx + 1);
  '(p, st) ← mul st x ca;
  rx ← deref st x;
  visit st all p "C" (len rx + 1).

(** [for(int i=0; i<grig_limit; i++)]: [n] iterations are left, the
    next one is at index [i]. *)
Fixpoint bfs_loop (ac ca : prep) (n i : nat) (s : store * list prep)
  : option (store * list prep) :=
  match n with
  | 0 => Some s
  | S n => s' ← bfs_body ac ca i s; bfs_loop ac ca n (S i) s'
  end.

(** [string deform(prep x2)].  [fuel] bounds the number of iterations of
    the [while] loop, which does not end when [last] is none of the six
    labels.  The store is returned as well, since [mul] may insert
    nodes. *)
Fixpoint deform_loop (fuel : nat) (st : store) (x2 : prep) (t : word)
  : option (word * store) :=
  match fuel with
  | 0 => None
  | S fuel =>
      if decide (x2 = grig_I) then Some (t, st)
      else
        r ← deref st x2;
        if char_eqb (last r) "a" then
          '(x2, st) ← mul st x2 grig_a; deform_loop fuel st x2 (t ++ ["a"])
        else if char_eqb (last r) "b" then
          '(x2, st) ← mul st x2 grig_b; deform_loop fuel st x2 (t ++ ["b"])
        else if char_eqb (last r) "c" then
          '(x2, st) ← mul st x2 grig_c; deform_loop fuel st x2 (t ++ ["c"])
        else if char_eqb (last r) "d" then
          '(x2, st) ← mul st x2 grig_d; deform_loop fuel st x2 (t ++ ["d"])
        else if char_eqb (last r) "A" then
          '(m, st) ← mul st x2 grig_c;
          '(x2, st) ← mul st m grig_a;
          deform_loop fuel st x2 (t ++ ["c"; "a"])
        else if char_eqb (last r) "C" then
          '(m, st) ← mul st x2 grig_a;
          '(x2, st) ← mul st m grig_c;
          deform_loop fuel st x2 (t ++ ["a"; "c"])
        else deform_loop fuel st x2 t
  end.

Definition deform (fuel : nat) (st : store) (x2 : prep) : option (word * store) :=
  '(t, st) ← deform_loop fuel st x2 [];
  Some (reverse t, st).

(** [void prepare()], started in store [st] with the budget [grig_limit].
    The result is the store it leaves, the vector [all] at the end of the
    loop and the two globals [ac] and [ca].  The last lines compute
    [badad] and print [deform(badad)]; [fuel] is for that call. *)
Definition prepare (fuel : nat) (grig_limit : Z) (st : store)
  : option (store * list prep * prep * prep) :=
  '(ac, st) ← mul st grig_a grig_c;
  '(ca, st) ← mul st grig_c grig_a;
  '(st, all) ← visit st [] grig_I zero 0;
  '(st, all) ← bfs_loop ac ca (Z.to_nat grig_limit) 0 (st, all);
  '(test, st) ← mul st grig_b grig_a;
  '(test, st) ← mul st test grig_d;
  '(test, st) ← mul st test grig_a;
  '(test, st) ← mul st test grig_d;
  '(_, st) ← deform fuel st test;
  Some (st, all, ac, ca).

(** *** The invariant of the traversal *)

(** [x] reaches [p] by multiplying by [g]: the product is interned and is
    [p]. *)
Definition reaches (st : store) (x g p : prep) : Prop :=
  mul st x g = Some (p, st).

(** The edges of the Cayley graph followed so far: all three generators
    at the indices below [i], and the generators of [gs] at index [i]. *)
Definition followed (ac ca : prep) (i : nat) (gs : list prep) (j : nat) (g : prep) : Prop :=
  (j < i ∧ g ∈ [grig_b; ac; ca]) ∨ (j = i ∧ g ∈ gs).

Record bfs_inv (ac ca : prep) (i : nat) (gs : list prep)
    (st : store) (all : list prep) : Prop := {
  inv_wf : wf st;
  inv_ac : valid st ac;
  inv_ca : valid st ca;
  inv_gs : gs ⊆ [grig_b; ac; ca];
  inv_visited : ∀ p r, deref st p = Some r → (visited r = true ↔ p ∈ all);
  inv_valid : ∀ p, p ∈ all → valid st p;
  inv_root : all !! 0 = Some grig_I ∧ len (obj_I st) = 0%Z;
  inv_sorted : ∀ j k pj pk rj rk,
    j ≤ k → all !! j = Some pj → all !! k = Some pk →
    deref st pj = Some rj → deref st pk = Some rk → (len rj ≤ len rk)%Z;
  inv_front : ∀ j k pj pk rj rk,
    i ≤ j → all !! j = Some pj → all !! k = Some pk →
    deref st pj = Some rj → deref st pk = Some rk → (len rk ≤ len rj + 1)%Z;
  inv_edge : ∀ j g pj,
    followed ac ca i gs j g → all !! j = Some pj →
    ∃ p rp rj, reaches st pj g p ∧ p ∈ all ∧
               deref st p = Some rp ∧ deref st pj = Some rj ∧
               (len rp ≤ len rj + 1)%Z;
  inv_parent : ∀ k pk rk,
    0 < k → all !! k = Some pk → deref st pk = Some rk →
    ∃ j g pj rj, followed ac ca i gs j g ∧ all !! j = Some pj ∧
                 reaches st pj g pk ∧ deref st pj = Some rj ∧
                 len rk = (len rj + 1)%Z;
  inv_ac_def : reaches st grig_a grig_c ac;
  inv_ca_def : reaches st grig_c grig_a ca;
  inv_bound : ∀ k pk rk,
    all !! k = Some pk → deref st pk = Some rk → (0 ≤ len rk ≤ Z.of_nat k)%Z
}.

(** *** The distances assigned by the traversal *)

(** [pk]'s distance is one plus the least distance of a processed
    representative (one of the first [grig_limit] entries of [all]) that
    reaches it by [b], [ac] or [ca]: some such representative is at
    distance [len pk - 1], and none is nearer. *)
Definition one_plus_min (grig_limit : Z) (ac ca : prep) (st : store)
    (all : list prep) (pk : prep) : Prop :=
  ∃ rk, deref st pk = Some rk ∧
    (∃ j g pj rj,
       j < Z.to_nat grig_limit ∧ all !! j = Some pj ∧ g ∈ [grig_b; ac; ca] ∧
       mul st pj g = Some (pk, st) ∧ deref st pj = Some rj ∧
       len rk = (len rj + 1)%Z) ∧
    (∀ j g pj rj st',
       j < Z.to_nat grig_limit → all !! j = Some pj → g ∈ [grig_b; ac; ca] →
       mul st pj g = Some (pk, st') → deref st pj = Some rj →
       (len rk ≤ len rj + 1)%Z).

(** The distances are non-decreasing in discovery order. *)
Definition distances_sorted (st : store) (all : list prep) : Prop :=
  ∀ j k pj pk rj rk,
    j ≤ k → all !! j = Some pj → all !! k = Some pk →
    deref st pj = Some rj → deref st pk = Some rk → (len rj ≤ len rk)%Z.

(** *** The labels left by the traversal *)

(** The generator that a label written by [visit] stands for. *)
Definition label_gen (ac ca : prep) (l : char) : option prep :=
  if char_eqb l "b" then Some grig_b
  else if char_eqb l "A" then Some ac
  else if char_eqb l "C" then Some ca
  else None.

(** No representative is listed twice, and each one but the first
    carries the label of a generator that leads to it from an earlier
    one, which is one step nearer. *)
Record lab_inv (ac ca : prep) (st : store) (all : list prep) : Prop := {
  lab_nodup : NoDup all;
  lab_parent : ∀ k pk rk,
    0 < k → all !! k = Some pk → deref st pk = Some rk →
    ∃ j pj rj g, j < k ∧ all !! j = Some pj ∧ deref st pj = Some rj ∧
                 label_gen ac ca (last rk) = Some g ∧
                 reaches st pj g pk ∧ len rk = (len rj + 1)%Z
}.

(** The symbols [deform] appends for a label: [ca] for [A], [ac] for
    [C], the label itself for [a], [b], [c], [d]. *)
Definition label_word (l : char) : word :=
  if char_eqb l "A" then str "ca"
  else if char_eqb l "C" then str "ac"
  else [l].

(** The static object a symbol of a word names. *)
Definition gen_ptr (c : char) : prep :=
  if char_eqb c "a" then grig_a
  else if char_eqb c "b" then grig_b
  else if char_eqb c "c" then grig_c
  else if char_eqb c "d" then grig_d
  else grig_I.

(** The product of [x] and the generators named by a word, multiplied
    on the right one after the other. *)
Fixpoint mul_word (st : store) (x : prep) (w : word) : option (prep * store) :=
  match w with
  | [] => Some (x, st)
  | c :: w => '(x, st) ← mul st x (gen_ptr c); mul_word st x w
  end.

(** [x] is [n] labelled steps away from the identity: unless it is the
    identity, it carries one of the labels [b], [A], [C], and it acts as
    some [pj], itself [n - 1] steps away, after the generator the label
    stands for. *)
Fixpoint trail (st : store) (x : prep) (n : nat) : Prop :=
  match n with
  | 0 => x = grig_I
  | S n =>
      x ≠ grig_I ∧
      ∃ r pj, deref st x = Some r ∧
              (last r = "b" ∨ last r = "A" ∨ last r = "C") ∧
              valid st pj ∧
              (∀ v, act st x v = act st pj (word_act (label_word (last r)) v)) ∧
              trail st pj n
  end.

End Enumerator.

(** ** The lazy map *)

Module Adapter.
Import Word Store Enumerator.

Global Instance prep_countable : Countable prep.
Proof.
  refine (inj_countable'
    (λ p, match p with
          | grig_I => 0 | grig_a => 1 | grig_b => 2 | grig_c => 3 | grig_d => 4
          | node n => 5 + n
          end)
    (λ k, match k with
          | 0 => grig_I | 1 => grig_a | 2 => grig_b | 3 => grig_c | 4 => grig_d
          | S (S (S (S (S n)))) => node n
          end) _).
  by intros [].
Defined.

(** Modelled from the spec: [struct heptagon] is declared by the host
    engine (hyper.h, not part of this unit), and the spec treats a node as
    opaque.  A [heptagon*] is named by the rank of its allocation; of the
    fields only [distance], which [create_step] computes from another
    heptagon, is kept, as an unbounded integer. *)
Record heptagon : Set := mk_heptagon { distance : Z }.

(** [struct hrmap_grigorchuk], together with the heptagons allocated for
    it ([heptagons]) and the calls of [connect] made on them ([links]). *)
Record hrmap_grigorchuk : Type := mk_hrmap {
  origin : nat;
  dec : gmap nat prep;
  enc : gmap prep nat;
  heptagons : list heptagon;
  links : list (nat * Z * nat * Z)
}.

(** [void gtie(heptagon* h, grigorchuk::prep p)] *)
Definition gtie (m : hrmap_grigorchuk) (h : nat) (p : prep) : hrmap_grigorchuk :=
  mk_hrmap (origin m) (<[h := p]> (dec m)) (<[p := h]> (enc m))
    (heptagons m) (links m).

(** Modelled from the spec: [tailored_alloc<heptagon>(S7)] belongs to the
    host engine; it yields a node that did not exist before, whose fields
    are then initialised. *)
Definition alloc (m : hrmap_grigorchuk) (x : heptagon) : nat * hrmap_grigorchuk :=
  (length (heptagons m),
   mk_hrmap (origin m) (dec m) (enc m) (heptagons m ++ [x]) (links m)).

(** Modelled from the spec: [connection_table::connect] belongs to the
    host engine; the spec only says that the adapter wires the host's
    adjacency structure, so a call [h->c.connect(d0, p, d1, false)] is
    recorded as the entry [(h, d0, p, d1)] of [links]. *)
Definition connect (m : hrmap_grigorchuk) (h : nat) (d0 : Z) (p : nat) (d1 : Z)
  : hrmap_grigorchuk :=
  mk_hrmap (origin m) (dec m) (enc m) (heptagons m) (links m ++ [(h, d0, p, d1)]).

(** The constructor [hrmap_grigorchuk()]; [prepared] and the store are
    the globals of [namespace grigorchuk]. *)
Definition hrmap_grigorchuk_new (fuel : nat) (grig_limit : Z)
    (prepared : bool) (st : store) : option (hrmap_grigorchuk * store) :=
  st ← (if prepared then Some st
        else '(st, _, _, _) ← prepare fuel grig_limit st; Some st);
  let '(origin, m) := alloc (mk_hrmap 0 ∅ ∅ [] []) (mk_heptagon 0) in
  let m := mk_hrmap origin (dec m) (enc m) (heptagons m) (links m) in
  Some (gtie m origin grig_I, st).

(** ["ACb" [d]]: the literal has four characters, the last one 0. *)
Definition label (d : Z) : option char :=
  if decide (d = 0)%Z then Some "A"
  else if decide (d = 1)%Z then Some "C"
  else if decide (d = 2)%Z then Some "b"
  else if decide (d = 3)%Z then Some zero
  else None.

(** The [switch(d)] of [create_step]: the new value of [pr]; there is no
    [default], so any other [d] leaves [pr] as it is. *)
Definition switch_d (st : store) (pr : prep) (d : Z) : option (prep * store) :=
  if decide (d = 0)%Z then
    '(t, st) ← mul st pr grig_a; mul st t grig_c
  else if decide (d = 1)%Z then
    '(t, st) ← mul st pr grig_c; mul st t grig_a
  else if decide (d = 2)%Z then mul st pr grig_b
  else Some (pr, st).

(** [heptagon *create_step(heptagon *p, int d)].  [dec[p]] of an unbound
    [p] is a null pointer, which [mul] dereferences: no defined result.
    [d] is an [int]: the definition stands for the source where [d] and
    [1 - d] are in [int_range], as they are for the directions 0, 1, 2. *)
Definition create_step (m : hrmap_grigorchuk) (st : store) (p : nat) (d : Z)
  : option (nat * hrmap_grigorchuk * store) :=
  pr ← dec m !! p;
  '(pr, st) ← switch_d st pr d;
  match enc m !! pr with
  | Some h =>
      Some (h, connect m h (if decide (d = 2)%Z then 2 else 1 - d)%Z p d, st)
  | None =>
      l ← label d;
      let st := update st pr (set_last l) in
      hp ← heptagons m !! p;
      let '(h, m) := alloc m (mk_heptagon (distance hp + 1)) in
      let m := gtie m h pr in
      Some (h, connect m h (if decide (d = 2)%Z then 2 else 1 - d)%Z p d, st)
  end.

(** What the adapter relies on and maintains: the store is well formed,
    every bound node has been allocated and is bound to a valid pointer,
    and the two maps are inverse to each other. *)
Definition adapter_inv (m : hrmap_grigorchuk) (st : store) : Prop :=
  wf st ∧
  (∀ h pr, dec m !! h = Some pr → valid st pr ∧ h < length (heptagons m)) ∧
  (∀ h pr, dec m !! h = Some pr ↔ enc m !! pr = Some h).

(** The labels and distances of the bound nodes: the identity is bound;
    distances are not negative; a node bound to the identity is at
    distance 0; any other bound node carries one of the labels [b], [A],
    [C], and it acts as a bound node one step nearer after the generator
    its label stands for. *)
Definition adapter_lab (m : hrmap_grigorchuk) (st : store) : Prop :=
  is_Some (enc m !! grig_I) ∧
  ∀ h pr hh,
    dec m !! h = Some pr → heptagons m !! h = Some hh →
    (0 ≤ distance hh)%Z ∧
    (pr = grig_I → distance hh = 0%Z) ∧
    (pr ≠ grig_I →
     ∃ r p pp hp,
       deref st pr = Some r ∧
       (last r = "b" ∨ last r = "A" ∨ last r = "C") ∧
       dec m !! p = Some pp ∧ heptagons m !! p = Some hp ∧
       distance hh = (distance hp + 1)%Z ∧
       ∀ v, act st pr v = act st pp (word_act (label_word (last r)) v)).

(** The states of a map and of the store in the life of the map: after
    the constructor (the first one, which runs [prepare]), after a call
    of [create_step] on a node of the map, and after a call of [mul] in
    between (as [deform] makes when a cell is drawn). *)
Inductive adapter_run : hrmap_grigorchuk → store → Prop :=
  | run_new fuel grig_limit m st :
      hrmap_grigorchuk_new fuel grig_limit false init = Some (m, st) →
      adapter_run m st
  | run_step m st p d h m1 st1 :
      adapter_run m st → (d = 0 ∨ d = 1 ∨ d = 2)%Z →
      create_step m st p d = Some (h, m1, st1) →
      adapter_run m1 st1
  | run_mul m st x y p st1 :
      adapter_run m st → valid st x → valid st y →
      mul st x y = Some (p, st1) →
      adapter_run m st1.

(** What can happen to a map and the store after some state of them:
    calls of [create_step] on nodes of the map, and calls of [mul]. *)
Inductive adapter_steps (m : hrmap_grigorchuk) (st : store)
  : hrmap_grigorchuk → store → Prop :=
  | steps_refl : adapter_steps m st m st
  | steps_step m1 st1 p d h m2 st2 :
      adapter_steps m st m1 st1 → (d = 0 ∨ d = 1 ∨ d = 2)%Z →
      create_step m1 st1 p d = Some (h, m2, st2) →
      adapter_steps m st m2 st2
  | steps_mul m1 st1 x y q st2 :
      adapter_steps m st m1 st1 → valid st1 x → valid st1 y →
      mul st1 x y = Some (q, st2) →
      adapter_steps m st m1 st2.

(** The values of an [int] (32 bits). *)
Definition int_range (z : Z) : Prop := (- 2 ^ 31 ≤ z < 2 ^ 31)%Z.

End Adapter.
(** ** Properties of the word layer *)

Module WordFacts.
Import Word.

Lemma char_eqb_eq x y : char_eqb x y = true ↔ x = y.
Proof. apply Ascii.eqb_eq. Qed.

Lemma char_eqb_refl x : char_eqb x x = true.
Proof. by apply char_eqb_eq. Qed.

Lemma char_eqb_neq x y : char_eqb x y = false ↔ x ≠ y.
Proof. apply Ascii.eqb_neq. Qed.

Lemma is_gen_cases c :
  is_gen c = true → c = "a" ∨ c = "b" ∨ c = "c" ∨ c = "d".
Proof.
  unfold is_gen. rewrite !orb_true_iff, !char_eqb_eq. tauto.
Qed.

Lemma is_bcd_cases c : is_bcd c = true → c = "b" ∨ c = "c" ∨ c = "d".
Proof.
  unfold is_bcd. rewrite !orb_true_iff, !char_eqb_eq. tauto.
Qed.

(** [add] seen from the back of the buffer. *)
Lemma add_nil c : add [] c = [c].
Proof. reflexivity. Qed.

Lemma add_snoc s b c :
  add (s ++ [b]) c =
    if char_eqb c b then s
    else if negb (char_eqb c "a") && negb (char_eqb b "a")
         then s ++ [char_xor (char_xor (char_xor (char_xor b c) "d") "b") "c"]
         else s ++ [b; c].
Proof.
  unfold add, back, pop_back, set_back, push_back.
  rewrite last_snoc, removelast_last, <- app_assoc. reflexivity.
Qed.

Lemma snoc_cases {A} (l : list A) : l = [] ∨ ∃ l' x, l = l' ++ [x].
Proof.
  induction l as [|x l _] using rev_ind; [by left | right; eauto].
Qed.

Lemma add_length s c : length (add s c) ≤ S (length s).
Proof.
  destruct (snoc_cases s) as [->|(s' & b & ->)]; [done|].
  rewrite add_snoc.
  repeat case_match; rewrite ?length_app; simpl; lia.
Qed.

Lemma fold_add_length w s :
  length (fold_left add w s) ≤ length s + length w.
Proof.
  revert s. induction w as [|c w IH]; intros s; simpl; [lia|].
  specialize (IH (add s c)). pose proof (add_length s c). lia.
Qed.

(** The two shape predicates, read from the back. *)
Lemma no_adjacent_equal_snoc l x :
  no_adjacent_equal (l ++ [x]) =
    no_adjacent_equal l &&
    match last l with Some z => negb (char_eqb z x) | None => true end.
Proof.
  induction l as [|y [|z l] IH]; simpl in *.
  - reflexivity.
  - by rewrite andb_true_r.
  - rewrite IH. by rewrite andb_assoc.
Qed.

Lemma no_adjacent_bcd_snoc l x :
  no_adjacent_bcd (l ++ [x]) =
    no_adjacent_bcd l &&
    match last l with Some z => negb (is_bcd z && is_bcd x) | None => true end.
Proof.
  induction l as [|y [|z l] IH]; simpl in *.
  - reflexivity.
  - by rewrite andb_true_r.
  - rewrite IH. by rewrite andb_assoc.
Qed.

Lemma reduced_nil : reduced [].
Proof. by repeat split; try constructor. Qed.

Lemma reduced_snoc l x :
  reduced (l ++ [x]) ↔
    reduced l ∧ is_gen x = true ∧
    match last l with
    | Some z => z ≠ x ∧ (is_bcd z && is_bcd x) = false
    | None => True
    end.
Proof.
  unfold reduced, over_gens.
  rewrite Forall_app, Forall_singleton, no_adjacent_equal_snoc,
    no_adjacent_bcd_snoc, !andb_true_iff.
  destruct (last l) as [z|].
  - rewrite !negb_true_iff, char_eqb_neq. tauto.
  - tauto.
Qed.

Lemma reduced_app_l l r : reduced (l ++ r) → reduced l.
Proof.
  induction r as [|x r IH] using rev_ind.
  - by rewrite app_nil_r.
  - rewrite app_assoc. intros H. apply reduced_snoc in H. tauto.
Qed.

Lemma add_reduced s c : reduced s → is_gen c = true → reduced (add s c).
Proof.
  intros Hs Hc.
  destruct (snoc_cases s) as [->|(s' & b & ->)].
  { rewrite add_nil. apply (reduced_snoc [] c). split; [apply reduced_nil|done]. }
  rewrite add_snoc.
  pose proof Hs as Hs0.
  apply reduced_snoc in Hs as (Hs' & Hb & Hlast).
  destruct (char_eqb c b) eqn:Ecb; [done|].
  apply char_eqb_neq in Ecb.
  destruct (negb (char_eqb c "a") && negb (char_eqb b "a")) eqn:Em.
  - apply andb_true_iff in Em as [Eca Eba].
    apply negb_true_iff, char_eqb_neq in Eca, Eba.
    apply reduced_snoc. split; [done|].
    assert (is_bcd b = true) as Hbb
      by (destruct (is_gen_cases _ Hb) as [->|[->|[->| ->]]]; done).
    split.
    + destruct (is_gen_cases _ Hb) as [->|[->|[->| ->]]];
        destruct (is_gen_cases _ Hc) as [->|[->|[->| ->]]]; done.
    + destruct (last s') as [z|]; [|done].
      destruct Hlast as [Hzb Hz]. rewrite Hbb, andb_true_r in Hz.
      rewrite Hz. split; [|done]. intros ->.
      destruct (is_gen_cases _ Hb) as [->|[->|[->| ->]]];
        destruct (is_gen_cases _ Hc) as [->|[->|[->| ->]]]; done.
  - change (s' ++ [b; c]) with (s' ++ [b] ++ [c]). rewrite app_assoc.
    apply reduced_snoc. split; [done|]. split; [done|].
    rewrite last_snoc. split; [done|].
    apply andb_false_iff in Em as [E|E]; apply negb_false_iff, char_eqb_eq in E;
      subst; [apply andb_false_r|done].
Qed.

Lemma fold_add_reduced w s :
  reduced s → over_gens w → reduced (fold_left add w s).
Proof.
  revert s. induction w as [|c w IH]; intros s Hs Hw; simpl; [done|].
  apply Forall_cons in Hw as [Hc Hw]. apply IH; [|done]. by apply add_reduced.
Qed.

(** On a reduced buffer, appending the next symbol of a reduced word is a
    plain [push_back]. *)
Lemma add_reduced_snoc s c : reduced (s ++ [c]) → add s c = s ++ [c].
Proof.
  intros H. apply reduced_snoc in H as (Hs & Hc & Hlast).
  destruct (snoc_cases s) as [->|(s' & b & ->)]; [done|].
  rewrite add_snoc. rewrite last_snoc in Hlast. destruct Hlast as [Hbc Hm].
  apply reduced_snoc in Hs as (_ & Hb & _).
  assert (char_eqb c b = false) as -> by (apply char_eqb_neq; congruence).
  rewrite <- app_assoc. simpl.
  destruct (is_gen_cases _ Hb) as [->|[->|[->| ->]]];
    destruct (is_gen_cases _ Hc) as [->|[->|[->| ->]]]; done.
Qed.

Lemma fold_add_fixed w s : reduced (s ++ w) → fold_left add w s = s ++ w.
Proof.
  revert s. induction w as [|c w IH]; intros s H; simpl.
  - by rewrite app_nil_r.
  - change (s ++ c :: w) with (s ++ [c] ++ w) in *. rewrite app_assoc in *.
    rewrite add_reduced_snoc by (by eapply reduced_app_l). by apply IH.
Qed.


(** *** The splitter *)

Lemma split_step_cases sw s0 s1 c :
  (c = "a" ∧ split_step (sw, s0, s1) c = (negb sw, s0, s1)) ∨
  (c = "b" ∧ split_step (sw, s0, s1) c =
     (sw, add s0 (if sw then "a" else "c"), add s1 (if sw then "c" else "a"))) ∨
  (c = "c" ∧ split_step (sw, s0, s1) c =
     (sw, add s0 (if sw then "a" else "d"), add s1 (if sw then "d" else "a"))) ∨
  (c = "d" ∧ split_step (sw, s0, s1) c =
     (if sw then (sw, s0, add s1 "b") else (sw, add s0 "b", s1))) ∨
  (is_gen c = false ∧ split_step (sw, s0, s1) c = (sw, s0, s1)).
Proof.
  unfold split_step, is_gen.
  destruct (char_eqb c "a") eqn:Ea; [apply char_eqb_eq in Ea as ->; by left|].
  destruct (char_eqb c "b") eqn:Eb;
    [apply char_eqb_eq in Eb as ->; by right; left|].
  destruct (char_eqb c "c") eqn:Ec;
    [apply char_eqb_eq in Ec as ->; by right; right; left|].
  destruct (char_eqb c "d") eqn:Ed;
    [apply char_eqb_eq in Ed as ->; right; right; right; left; by destruct sw|].
  by right; right; right; right.
Qed.

Lemma split_snoc w c : split (w ++ [c]) = split_step (split w) c.
Proof. unfold split. by rewrite fold_left_app. Qed.

(** Both halves are built with [add] from generator symbols only, hence
    reduced. *)
Lemma split_step_reduced sw s0 s1 c sw' s0' s1' :
  split_step (sw, s0, s1) c = (sw', s0', s1') →
  reduced s0 → reduced s1 → reduced s0' ∧ reduced s1'.
Proof.
  intros E H0 H1.
  destruct (split_step_cases sw s0 s1 c)
    as [[_ E']|[[_ E']|[[_ E']|[[_ E']|[_ E']]]]];
    rewrite E' in E; clear E'; destruct sw; simplify_eq;
    split; try done; apply add_reduced; done.
Qed.

Lemma split_fold_reduced w sw s0 s1 sw' s0' s1' :
  fold_left split_step w (sw, s0, s1) = (sw', s0', s1') →
  reduced s0 → reduced s1 → reduced s0' ∧ reduced s1'.
Proof.
  revert sw s0 s1. induction w as [|c w IH]; intros sw s0 s1; cbn [fold_left].
  - intros [= <- <- <-]; auto.
  - destruct (split_step (sw, s0, s1) c) as [[sw2 t0] t1] eqn:E.
    intros Hf H0 H1.
    destruct (split_step_reduced _ _ _ _ _ _ _ E H0 H1) as [H0' H1'].
    exact (IH _ _ _ Hf H0' H1').
Qed.

Lemma split_reduced x sw s0 s1 :
  split x = (sw, s0, s1) → reduced s0 ∧ reduced s1.
Proof. intros E. eapply split_fold_reduced; eauto using reduced_nil. Qed.

Lemma nona_le w : nona w ≤ length w.
Proof. apply length_filter. Qed.

Lemma nona_lt w : "a" ∈ w → nona w < length w.
Proof.
  unfold nona. induction w as [|c w IH]; [by intros ?%elem_of_nil|].
  intros [<-|Hin]%elem_of_cons.
  - rewrite filter_cons_False by (by rewrite char_eqb_refl).
    pose proof (length_filter (λ c, char_eqb c "a" = false) w). simpl. lia.
  - specialize (IH Hin). rewrite filter_cons. case_decide; simpl; lia.
Qed.

Lemma split_step_length sw s0 s1 c sw' s0' s1' :
  split_step (sw, s0, s1) c = (sw', s0', s1') →
  length s0' ≤ length s0 + nona [c] ∧ length s1' ≤ length s1 + nona [c].
Proof.
  intros E.
  destruct (split_step_cases sw s0 s1 c)
    as [[-> E']|[[-> E']|[[-> E']|[[-> E']|[_ E']]]]];
    rewrite E' in E; clear E'; destruct sw; simplify_eq;
    repeat match goal with
           | |- context [add ?s ?c] => pose proof (add_length s c); generalize dependent (add s c); intros
           end;
    unfold nona; simpl; lia.
Qed.

Lemma split_fold_length w sw s0 s1 sw' s0' s1' :
  fold_left split_step w (sw, s0, s1) = (sw', s0', s1') →
  length s0' ≤ length s0 + nona w ∧ length s1' ≤ length s1 + nona w.
Proof.
  revert sw s0 s1. induction w as [|c w IH]; intros sw s0 s1; cbn [fold_left].
  - intros [= <- <- <-]. lia.
  - destruct (split_step (sw, s0, s1) c) as [[sw2 t0] t1] eqn:E.
    intros Hf. apply IH in Hf. apply split_step_length in E.
    change (c :: w) with ([c] ++ w). unfold nona in *.
    rewrite filter_app, length_app. lia.
Qed.

Lemma add_small0 s c : small0 s → is_bcd c = true → small0 (add s c).
Proof.
  intros [->|(x & -> & Hx)] Hc.
  - right. by exists c.
  - change [x] with ([] ++ [x]). rewrite add_snoc.
    destruct (is_bcd_cases _ Hx) as [->|[->| ->]];
      destruct (is_bcd_cases _ Hc) as [->|[->| ->]]; simpl;
      first [by left | right; eexists; split; [reflexivity|done]].
Qed.

Lemma add_small1 s : small1 s → small1 (add s "a").
Proof. intros [->| ->]; [by right|by left]. Qed.

Lemma split_fold_no_a w s0 s1 sw' s0' s1' :
  "a" ∉ w →
  fold_left split_step w (false, s0, s1) = (sw', s0', s1') →
  small0 s0 → small1 s1 → sw' = false ∧ small0 s0' ∧ small1 s1'.
Proof.
  revert s0 s1. induction w as [|c w IH]; intros s0 s1 Hna; cbn [fold_left].
  - by intros [= <- <- <-].
  - apply not_elem_of_cons in Hna as [Hc Hna].
    destruct (split_step_cases false s0 s1 c)
      as [[-> E']|[[-> E']|[[-> E']|[[-> E']|[_ E']]]]];
      rewrite E'; clear E'; try done; intros Hf H0 H1;
      (eapply IH; [done|exact Hf|..]);
      auto using add_small0, add_small1.
Qed.

Lemma small0_length s : small0 s → length s ≤ 1.
Proof. intros [->|(x & -> & _)]; simpl; lia. Qed.

Lemma small1_length s : small1 s → length s ≤ 1.
Proof. intros [->| ->]; simpl; lia. Qed.

(** Each half of a split is strictly shorter than the input or has at
    most one symbol. *)
Lemma split_halves x sw s0 s1 :
  split x = (sw, s0, s1) →
  (length s0 < length x ∧ length s1 < length x) ∨
  (length s0 ≤ 1 ∧ length s1 ≤ 1).
Proof.
  intros E. destruct (decide ("a" ∈ x)) as [Hin|Hna].
  - left. apply split_fold_length in E. apply nona_lt in Hin. simpl in E. lia.
  - right. eapply split_fold_no_a in E as (_ & H0 & H1); [|done|by left..].
    auto using small0_length, small1_length.
Qed.

(** *** The word-problem decider *)

Lemma empt_S fuel x :
  empt (S fuel) x =
    let '(swapped, s0, s1) := split x in
    if decide (x = []) then Some true
    else if decide (x = ["d"]) then Some false
    else if swapped then Some false
    else match empt fuel s0 with
         | Some true => empt fuel s1
         | r => r
         end.
Proof. reflexivity. Qed.

(** More fuel does not change an answer. *)
Lemma empt_mono fuel fuel' x r :
  fuel ≤ fuel' → empt fuel x = Some r → empt fuel' x = Some r.
Proof.
  revert fuel' x r. induction fuel as [|n IH]; intros [|m] x r Hle; try done; [lia|].
  rewrite !empt_S. destruct (split x) as [[sw s0] s1].
  repeat case_decide; try done. destruct sw; [done|].
  destruct (empt n s0) as [[]|] eqn:E0; [| |done]; intros E1.
  - rewrite (IH m s0 true) by (done || lia). apply IH; [lia|done].
  - rewrite (IH m s0 false) by (done || lia). done.
Qed.

(** Words of at most one symbol are decided within three activations. *)
Lemma empt_short x : length x ≤ 1 → is_Some (empt 3 x).
Proof.
  destruct x as [|c [|]]; simpl length; intros ?; [by eexists| |lia].
  destruct (split_step_cases false [] [] c)
    as [[-> E']|[[-> E']|[[-> E']|[[-> E']|[Hc E']]]]];
    try (by eexists).
  rewrite empt_S. unfold split. cbn [fold_left]. rewrite E'.
  repeat case_decide; by eexists.
Qed.

Lemma empt_terminates_aux n x : length x ≤ n → is_Some (empt (n + 2) x).
Proof.
  revert x. induction n as [|n IH]; intros x Hx.
  - destruct x; [by eexists|simpl in Hx; lia].
  - destruct (decide (length x ≤ 1)) as [Hs|Hl].
    { destruct (empt_short x Hs) as [r Hr]. exists r.
      eapply empt_mono; [|done]. lia. }
    assert (∀ s, length s ≤ n → is_Some (empt (S n + 1) s)) as Hsub.
    { intros s Hs. destruct (IH s Hs) as [r Hr]. exists r.
      eapply empt_mono; [|done]. lia. }
    replace (S n + 2) with (S (S n + 1)) by lia. rewrite empt_S.
    destruct (split x) as [[sw s0] s1] eqn:E.
    repeat case_decide; try by eexists. destruct sw; [by eexists|].
    destruct (split_halves _ _ _ _ E) as [[L0 L1]|[L0 L1]].
    + destruct (Hsub s0) as [[] Hr0]; [lia| |]; rewrite Hr0; [|by eexists].
      apply Hsub. lia.
    + destruct (Hsub s0) as [[] Hr0]; [lia| |]; rewrite Hr0; [|by eexists].
      apply Hsub. lia.
Qed.


(** *** Statements about the word layer *)

(** C6. For every word [w] over {a,b,c,d}, [reduce w] is again a word
    over {a,b,c,d}, is not longer than [w], has no two adjacent equal
    symbols and no two adjacent symbols both in {b,c,d}.  ([reduce] is a
    total function: [pop_back] and [back] are only reached on a non-empty
    buffer.) *)
Theorem reduce_shape (w : word) :
  over_gens w →
  over_gens (reduce w) ∧
  length (reduce w) ≤ length w ∧
  no_adjacent_equal (reduce w) = true ∧
  no_adjacent_bcd (reduce w) = true.
Proof.
  intros Hw.
  destruct (fold_add_reduced w [] reduced_nil Hw) as (Hg & He & Hb).
  pose proof (fold_add_length w []) as Hl.
  unfold reduce. simpl in Hl. auto.
Qed.

Lemma reduce_shape_witness :
  over_gens (reduce (str "abcadbb")) ∧
  length (reduce (str "abcadbb")) ≤ length (str "abcadbb") ∧
  no_adjacent_equal (reduce (str "abcadbb")) = true ∧
  no_adjacent_bcd (reduce (str "abcadbb")) = true.
Proof. apply (reduce_shape (str "abcadbb")). repeat constructor. Defined.

(** C7. For every word [w] over {a,b,c,d}, reducing a second time changes
    nothing: [reduce (reduce w) = reduce w]. *)
Theorem reduce_idempotent (w : word) :
  over_gens w → reduce (reduce w) = reduce w.
Proof.
  intros Hw. pose proof (fold_add_reduced w [] reduced_nil Hw) as Hr.
  unfold reduce at 1. by rewrite fold_add_fixed.
Qed.

Lemma reduce_idempotent_witness :
  reduce (reduce (str "abcadbb")) = reduce (str "abcadbb").
Proof. apply (reduce_idempotent (str "abcadbb")). repeat constructor. Defined.

(** C2, as the code has it.  When [split] processes a symbol [b] it
    appends, with [add], [c] to [s0] and [a] to [s1] if the running flag
    is false, and [a] to [s0] and [c] to [s1] if it is true; in
    particular [split "b" = (false, "c", "a")]. *)
Theorem split_routes_b :
  (∀ sw s0 s1,
     split_step (sw, s0, s1) "b" =
       (sw, add s0 (if sw then "a" else "c"), add s1 (if sw then "c" else "a"))) ∧
  (∀ w1 w2,
     split (w1 ++ "b" :: w2) =
       fold_left split_step w2
         (let '(sw, s0, s1) := split w1 in
          (sw, add s0 (if sw then "a" else "c"), add s1 (if sw then "c" else "a")))) ∧
  split (str "b") = (false, str "c", str "a").
Proof.
  split; [|split]; [by intros [] | |reflexivity].
  intros w1 w2. unfold split. rewrite fold_left_app. cbn [fold_left].
  by destruct (fold_left split_step w1 (false, [], [])) as [[[] s0] s1].
Qed.

(** C2, as the claim words it ([a] to [s0] and [c] to [s1] under a false
    flag), fails on the one-symbol word [b]. *)
Lemma split_routes_b_claimed_fails :
  split_step (false, [], []) "b" ≠ (false, add [] "a", add [] "c") ∧
  split (str "b") ≠ (false, str "a", str "c").
Proof. split; discriminate. Qed.

(** C4, as the code has it.  [empt] terminates on every word [w] (over
    {a,b,c,d} or not) within [length w + 2] nested activations, that is
    with a recursion depth of at most [length w + 1] below the first
    call; each of the two words of a recursive call is no longer than the
    word of its parent. *)
Theorem empt_terminates (w : word) :
  is_Some (empt (length w + 2) w) ∧
  length (split w).1.2 ≤ length w ∧
  length (split w).2 ≤ length w.
Proof.
  split; [by apply empt_terminates_aux|].
  destruct (split w) as [[sw s0] s1] eqn:E. simpl.
  apply split_fold_length in E. pose proof (nona_le w). simpl in E. lia.
Qed.

(** C4, as the claim words it, fails on the word [b]: two nested
    recursive calls ([empt "c"], then [empt "d"]) are needed for a word of
    length one, and the two halves of [b] have total length two. *)
Lemma empt_depth_claimed_fails :
  empt (S (length (str "b"))) (str "b") = None ∧
  empt (S (S (length (str "b")))) (str "b") = Some false ∧
  ¬ (length (split (str "b")).1.2 + length (split (str "b")).2
     ≤ length (str "b")).
Proof. repeat split; simpl; lia. Qed.

End WordFacts.

(** ** Properties of the canonical form store *)

Module StoreFacts.
Import Store.

(** *** The key order of the map *)

Lemma rep_eqb_eq x y : rep_eqb x y = true ↔ tie x = tie y.
Proof. unfold rep_eqb. apply bool_decide_eq_true. Qed.

Lemma rep_eqb_tie x x' y y' :
  tie x = tie x' → tie y = tie y' → rep_eqb x y = rep_eqb x' y'.
Proof. unfold rep_eqb. by intros -> ->. Qed.

(** Whatever the (pairwise distinct) addresses of the objects are, two
    keys are equivalent for [operator <] exactly when they are equal for
    [operator ==]. *)
Lemma rep_equiv_eqb (addr : prep → Z) x y :
  Inj (=) (=) addr → rep_equiv addr x y = rep_eqb x y.
Proof.
  intros Hinj. unfold rep_equiv, rep_ltb, rep_eqb, tie.
  destruct x as [sx x0 x1 ? ? ?], y as [sy y0 y1 ? ? ?]; simpl.
  destruct (decide (sx = sy)) as [->|Hs].
  - rewrite !bool_decide_eq_true_2 by done.
    destruct (decide (x0 = y0)) as [->|H0].
    + rewrite !bool_decide_eq_true_2 by done.
      destruct (decide (x1 = y1)) as [->|H1].
      * rewrite (bool_decide_eq_false_2 (_ < _)%Z) by lia.
        by rewrite bool_decide_eq_true_2.
      * rewrite (bool_decide_eq_false_2 (_ = _)) by congruence.
        assert (addr x1 ≠ addr y1) by (intros ?%Hinj; done).
        repeat case_bool_decide; simpl; try done; lia.
    + rewrite (bool_decide_eq_false_2 ((_, _, _) = _)) by congruence.
      assert (addr x0 ≠ addr y0) by (intros ?%Hinj; done).
      repeat case_bool_decide; simpl; try done; try lia; congruence.
  - rewrite (bool_decide_eq_false_2 ((_, _, _) = _)) by congruence.
    rewrite !(bool_decide_eq_false_2 (_ = _ :> bool)) by congruence.
    by destruct sx, sy.
Qed.


(** *** Pointers and the two orders on stores *)

Lemma deref_valid st p : is_Some (deref st p) ↔ valid st p.
Proof.
  destruct p; simpl; try (split; [done|by eexists]).
  apply lookup_lt_is_Some.
Qed.

Lemma deref_Some_valid st p r : deref st p = Some r → valid st p.
Proof. intros H. apply deref_valid. by eexists. Qed.

Lemma grows_refl st : grows st st.
Proof. repeat split. exists []. by rewrite app_nil_r. Qed.

Lemma grows_trans st1 st2 st3 : grows st1 st2 → grows st2 st3 → grows st1 st3.
Proof.
  intros (?&?&?&?&?&l&Hl) (?&?&?&?&?&l'&Hl').
  repeat split; try congruence. exists (l ++ l'). by rewrite Hl', Hl, app_assoc.
Qed.

Lemma grows_deref st st' p r :
  grows st st' → deref st p = Some r → deref st' p = Some r.
Proof.
  intros (?&?&?&?&?&l&Hl). destruct p; simpl; try congruence.
  intros Hn. rewrite Hl. by apply lookup_app_l_Some.
Qed.

Lemma grows_valid st st' p : grows st st' → valid st p → valid st' p.
Proof.
  intros Hg [r Hr]%deref_valid. apply deref_valid. exists r.
  by eapply grows_deref.
Qed.

Lemma grows_length st st' :
  grows st st' → length (all_reps st) ≤ length (all_reps st').
Proof. intros (?&?&?&?&?&l&->). rewrite length_app. lia. Qed.

Lemma grows_emplace st x : grows st (emplace st x).
Proof. repeat split. by exists [x]. Qed.

Lemma grows_statics_ok st st' : grows st st' → statics_ok st → statics_ok st'.
Proof. unfold statics_ok. intros (->&->&->&->&->&_). done. Qed.

Lemma tie_le_refl st : tie_le st st.
Proof. intros p r H. eauto. Qed.

Lemma tie_le_trans st1 st2 st3 : tie_le st1 st2 → tie_le st2 st3 → tie_le st1 st3.
Proof.
  intros H12 H23 p r H. destruct (H12 _ _ H) as (r' & H' & E').
  destruct (H23 _ _ H') as (r'' & H'' & E''). exists r''. split; congruence.
Qed.

Lemma grows_tie_le st st' : grows st st' → tie_le st st'.
Proof. intros Hg p r H. exists r. split; [by eapply grows_deref|done]. Qed.

Lemma tie_le_valid st st' p : tie_le st st' → valid st p → valid st' p.
Proof.
  intros Hle [r Hr]%deref_valid. destruct (Hle _ _ Hr) as (r' & Hr' & _).
  by eapply deref_Some_valid.
Qed.

Lemma tie_le_statics_ok st st' : tie_le st st' → statics_ok st → statics_ok st'.
Proof.
  intros Hle (HI & Ha & Hb & Hc & Hd).
  destruct (Hle grig_I _ eq_refl) as (? & [= <-] & ?).
  destruct (Hle grig_a _ eq_refl) as (? & [= <-] & ?).
  destruct (Hle grig_b _ eq_refl) as (? & [= <-] & ?).
  destruct (Hle grig_c _ eq_refl) as (? & [= <-] & ?).
  destruct (Hle grig_d _ eq_refl) as (? & [= <-] & ?).
  repeat split; congruence.
Qed.

Lemma deref_emplace_old st x p r :
  deref st p = Some r → deref (emplace st x) p = Some r.
Proof. apply grows_deref, grows_emplace. Qed.

Lemma deref_emplace st x p r :
  deref (emplace st x) p = Some r →
  deref st p = Some r ∨ (p = node (length (all_reps st)) ∧ r = x).
Proof.
  destruct p as [| | | | |n]; simpl; auto.
  intros H. apply lookup_app_Some in H as [H|[Hn H]]; [by left|right].
  apply list_lookup_singleton_Some in H as [Hz Hrx].
  split; [f_equal; lia|done].
Qed.

(** *** [lookup] *)

(** [lookup] either returns an object that is already there, with the
    triple that was asked for, or it inserts the candidate, and then no
    object had this triple. *)
Lemma lookup_cases st x p st' :
  lookup st x = (p, st') →
  (st' = st ∧ ∃ r, deref st p = Some r ∧ tie r = tie x) ∨
  (st' = emplace st x ∧ p = node (length (all_reps st)) ∧
   ∀ q r, deref st q = Some r → tie r ≠ tie x).
Proof.
  unfold lookup.
  destruct (rep_eqb x (obj_I st)) eqn:EI;
    [apply rep_eqb_eq in EI; intros [= <- <-]; left; simpl; eauto|].
  destruct (rep_eqb x (obj_a st)) eqn:Ea;
    [apply rep_eqb_eq in Ea; intros [= <- <-]; left; simpl; eauto|].
  destruct (rep_eqb x (obj_b st)) eqn:Eb;
    [apply rep_eqb_eq in Eb; intros [= <- <-]; left; simpl; eauto|].
  destruct (rep_eqb x (obj_c st)) eqn:Ec;
    [apply rep_eqb_eq in Ec; intros [= <- <-]; left; simpl; eauto|].
  destruct (rep_eqb x (obj_d st)) eqn:Ed;
    [apply rep_eqb_eq in Ed; intros [= <- <-]; left; simpl; eauto|].
  destruct (list_find _ _) as [[n k]|] eqn:Ef.
  - apply list_find_Some in Ef as (Hn & Hk & _). apply rep_eqb_eq in Hk.
    intros [= <- <-]. left. simpl. eauto.
  - intros [= <- <-]. right. split; [done|]. split; [done|].
    apply list_find_None in Ef.
    intros q r Hq Hr. symmetry in Hr. apply rep_eqb_eq in Hr.
    destruct q; simpl in Hq; simplify_eq; try congruence.
    rewrite Forall_forall in Ef. eapply Ef; [|done].
    by eapply list_elem_of_lookup_2.
Qed.

Lemma lookup_grows st x p st' : lookup st x = (p, st') → grows st st'.
Proof.
  intros [[-> _]|(-> & _)]%lookup_cases;
    [apply grows_refl|apply grows_emplace].
Qed.

(** The object returned by [lookup] has the triple that was asked for. *)
Lemma lookup_tie st x p st' :
  lookup st x = (p, st') → ∃ r, deref st' p = Some r ∧ tie r = tie x.
Proof.
  intros [[-> H]|(-> & -> & _)]%lookup_cases; [done|].
  exists x. split; [|done]. simpl. by rewrite lookup_app_r, Nat.sub_diag.
Qed.

(** A new node keeps the candidate as it is, [last] included. *)
Lemma lookup_new st x p st' :
  lookup st x = (p, st') → ¬ valid st p → deref st' p = Some x.
Proof.
  intros [[-> (r & Hr & _)]|(-> & -> & _)]%lookup_cases Hnv.
  - by apply deref_Some_valid in Hr.
  - simpl. by rewrite lookup_app_r, Nat.sub_diag.
Qed.

(** Under the hash-consing invariant [lookup] returns the one object that
    has the triple, and inserts nothing. *)
Lemma lookup_found st x p r :
  hashcons st → deref st p = Some r → tie r = tie x → lookup st x = (p, st).
Proof.
  intros Hh Hp Hr. destruct (lookup st x) as [p' st'] eqn:E.
  destruct (lookup_cases _ _ _ _ E) as [[-> (r' & Hr' & Et)]|(_ & _ & Hno)].
  - f_equal. eapply Hh; eauto. congruence.
  - by destruct (Hno _ _ Hp).
Qed.

Lemma lookup_hashcons st x p st' :
  lookup st x = (p, st') → hashcons st → hashcons st'.
Proof.
  intros [[-> _]|(-> & -> & Hno)]%lookup_cases Hh; [done|].
  intros q1 q2 r1 r2 H1 H2 Et.
  apply deref_emplace in H1 as [H1|[-> ->]];
    apply deref_emplace in H2 as [H2|[-> ->]].
  - eauto.
  - by destruct (Hno _ _ H1).
  - destruct (Hno _ _ H2). congruence.
  - done.
Qed.

Lemma lookup_closed st x p st' :
  lookup st x = (p, st') → valid st (a0 x) → valid st (a1 x) →
  closed st → closed st'.
Proof.
  intros [[-> _]|(-> & -> & _)]%lookup_cases V0 V1 Hc; [done|].
  intros n r H. simpl in H.
  apply lookup_app_Some in H as [H|[Hn H]]; [by eapply Hc|].
  apply list_lookup_singleton_Some in H as [Hz Hrx]. subst r.
  assert (n = length (all_reps st)) as -> by lia.
  split; [destruct (a0 x)|destruct (a1 x)]; simpl in *; done.
Qed.


(** *** [mul]: equations and induction principle *)

(** The two branches of [mul] differ by the crossing of the children of
    [x] and by the negation of its flag. *)
Lemma mul_fuel_S fuel st x y :
  mul_fuel (S fuel) st x y =
    match mul_const x y with
    | Some r => Some (r, st)
    | None =>
        rx ← deref st x;
        ry ← deref st y;
        '(p0, st1) ← mul_fuel fuel st (if swapped ry then a1 rx else a0 rx) (a0 ry);
        '(p1, st2) ← mul_fuel fuel st1 (if swapped ry then a0 rx else a1 rx) (a1 ry);
        ry2 ← deref st2 y;
        Some (lookup st2 (new_rep (xorb (swapped rx) (swapped ry)) p0 p1 (last ry2)))
    end.
Proof.
  simpl. destruct (mul_const x y); [done|].
  destruct (deref st x) as [rx|]; [|done]. destruct (deref st y) as [ry|]; [|done].
  simpl. by destruct (swapped ry), (swapped rx).
Qed.

Lemma mul_fuel_const fuel st x y r :
  mul_const x y = Some r → mul_fuel (S fuel) st x y = Some (r, st).
Proof. intros E. by rewrite mul_fuel_S, E. Qed.

Lemma mul_fuel_ind (P : store → prep → prep → prep → store → Prop) :
  (∀ st x y r, mul_const x y = Some r → P st x y r st) →
  (∀ st x y rx ry p0 st1 p1 st2 ry2 p st',
     mul_const x y = None →
     deref st x = Some rx → deref st y = Some ry →
     P st (if swapped ry then a1 rx else a0 rx) (a0 ry) p0 st1 →
     P st1 (if swapped ry then a0 rx else a1 rx) (a1 ry) p1 st2 →
     deref st2 y = Some ry2 →
     lookup st2 (new_rep (xorb (swapped rx) (swapped ry)) p0 p1 (last ry2)) = (p, st') →
     P st x y p st') →
  ∀ fuel st x y p st', mul_fuel fuel st x y = Some (p, st') → P st x y p st'.
Proof.
  intros Hconst Hrec. induction fuel as [|fuel IH]; intros st x y p st'; [done|].
  rewrite mul_fuel_S. destruct (mul_const x y) as [r|] eqn:Ec.
  { intros [= <- <-]. by apply Hconst. }
  destruct (deref st x) as [rx|] eqn:Ex; [|done].
  destruct (deref st y) as [ry|] eqn:Ey; [|done]. simpl.
  destruct (mul_fuel fuel st _ _) as [[p0 st1]|] eqn:E0; [|done]. simpl.
  destruct (mul_fuel fuel st1 _ _) as [[p1 st2]|] eqn:E1; [|done]. simpl.
  destruct (deref st2 y) as [ry2|] eqn:Ey2; [|done]. simpl.
  intros [= El]. eapply Hrec; eauto.
Qed.

(** More fuel does not change a result. *)
Lemma mul_fuel_mono fuel fuel' st x y res :
  fuel ≤ fuel' → mul_fuel fuel st x y = Some res → mul_fuel fuel' st x y = Some res.
Proof.
  revert fuel' st x y res.
  induction fuel as [|fuel IH]; intros [|fuel'] st x y res Hle; try done; [lia|].
  rewrite !mul_fuel_S. destruct (mul_const x y); [done|].
  destruct (deref st x) as [rx|]; [|done].
  destruct (deref st y) as [ry|]; [|done]. simpl.
  destruct (mul_fuel fuel st _ _) as [[p0 st1]|] eqn:E0; [|done].
  rewrite (IH fuel' _ _ _ _ ltac:(lia) E0). simpl.
  destruct (mul_fuel fuel st1 _ _) as [[p1 st2]|] eqn:E1; [|done].
  by rewrite (IH fuel' _ _ _ _ ltac:(lia) E1).
Qed.

(** *** What [mul] does to the store *)

Lemma mul_fuel_grows fuel st x y p st' :
  mul_fuel fuel st x y = Some (p, st') → grows st st'.
Proof.
  revert fuel st x y p st'.
  apply (mul_fuel_ind (λ st x y p st', grows st st')).
  - intros. apply grows_refl.
  - intros st x y rx ry p0 st1 p1 st2 ry2 p st' _ _ _ G0 G1 _ El.
    eauto using grows_trans, lookup_grows.
Qed.

Lemma mul_fuel_hashcons fuel st x y p st' :
  mul_fuel fuel st x y = Some (p, st') → hashcons st → hashcons st'.
Proof.
  revert fuel st x y p st'.
  apply (mul_fuel_ind (λ st x y p st', hashcons st → hashcons st')); [done|].
  intros st x y rx ry p0 st1 p1 st2 ry2 p st' _ _ _ H0 H1 _ El Hh.
  eauto using lookup_hashcons.
Qed.

Lemma tie_eq r s x0 x1 :
  tie r = (s, x0, x1) → swapped r = s ∧ a0 r = x0 ∧ a1 r = x1.
Proof. by intros [= -> -> ->]. Qed.

(** The children of an object can be dereferenced and do not rank above
    it; they rank strictly below it unless it is the identity or one of
    [b], [c], [d]. *)
Lemma child_prank st p r :
  statics_ok st → closed st → deref st p = Some r →
  (valid st (a0 r) ∧ valid st (a1 r)) ∧
  (prank (a0 r) ≤ prank p ∧ prank (a1 r) ≤ prank p) ∧
  (p = grig_I ∨ bcd_ptr p ∨ (prank (a0 r) < prank p ∧ prank (a1 r) < prank p)).
Proof.
  intros (HI & Ha & Hb & Hc & Hd) Hcl Hp. unfold bcd_ptr.
  apply tie_eq in HI as (_ & HI0 & HI1). apply tie_eq in Ha as (_ & Ha0 & Ha1).
  apply tie_eq in Hb as (_ & Hb0 & Hb1). apply tie_eq in Hc as (_ & Hc0 & Hc1).
  apply tie_eq in Hd as (_ & Hd0 & Hd1).
  destruct p as [| | | | |n]; simpl in Hp; simplify_eq.
  - rewrite HI0, HI1. simpl. auto.
  - rewrite Ha0, Ha1. simpl. repeat split; auto.
  - rewrite Hb0, Hb1. simpl. auto 10.
  - rewrite Hc0, Hc1. simpl. auto 10.
  - rewrite Hd0, Hd1. simpl. repeat split; auto.
  - destruct (Hcl _ _ Hp) as [B0 B1]. pose proof (lookup_lt_Some _ _ _ Hp).
    destruct (a0 r), (a1 r); simpl in *; repeat split; auto; try lia;
      right; right; lia.
Qed.

Lemma mul_const_None x y :
  mul_const x y = None →
  x ≠ grig_I ∧ y ≠ grig_I ∧ ¬ (bcd_ptr x ∧ bcd_ptr y).
Proof.
  unfold bcd_ptr.
  destruct x, y; simpl; try done; intros _; repeat split; try done;
    intros [[|[|]] [|[|]]]; done.
Qed.

Lemma mul_const_valid st x y r :
  mul_const x y = Some r → valid st x → valid st y → valid st r.
Proof. destruct x, y; simpl; intros [= <-]; done. Qed.

Lemma mul_fuel_closed fuel st x y p st' :
  mul_fuel fuel st x y = Some (p, st') →
  statics_ok st → closed st → valid st x → valid st y →
  closed st' ∧ valid st' p.
Proof.
  revert fuel st x y p st'.
  cut (∀ fuel st x y p st', mul_fuel fuel st x y = Some (p, st') →
         grows st st' ∧
         (statics_ok st → closed st → valid st x → valid st y →
          closed st' ∧ valid st' p)).
  { intros H fuel st x y p st' E. by apply (H _ _ _ _ _ _ E). }
  apply (mul_fuel_ind (λ st x y p st',
    grows st st' ∧
    (statics_ok st → closed st → valid st x → valid st y →
     closed st' ∧ valid st' p))).
  - intros st x y r E. split; [apply grows_refl|]. eauto using mul_const_valid.
  - intros st x y rx ry p0 st1 p1 st2 ry2 p st' _ Hx Hy [G0 IH0] [G1 IH1] _ El.
    split; [eauto using grows_trans, lookup_grows|].
    intros Hs Hc Vx Vy.
    destruct (child_prank _ _ _ Hs Hc Hx) as ([Vx0 Vx1] & _).
    destruct (child_prank _ _ _ Hs Hc Hy) as ([Vy0 Vy1] & _).
    destruct IH0 as [Hc1 Vp0]; [done|done|by destruct (swapped ry)|done|].
    destruct IH1 as [Hc2 Vp1];
      [by eapply grows_statics_ok|done
      |destruct (swapped ry); by eapply grows_valid|by eapply grows_valid|].
    split.
    + eapply lookup_closed; [exact El|simpl..|done]; eauto using grows_valid.
    + destruct (lookup_tie _ _ _ _ El) as (r & Hr & _).
      by eapply deref_Some_valid.
Qed.

(** Every well-formed store stays well formed. *)
Lemma mul_fuel_wf fuel st x y p st' :
  mul_fuel fuel st x y = Some (p, st') →
  wf st → valid st x → valid st y → wf st' ∧ valid st' p.
Proof.
  intros E (Hs & Hc & Hh) Vx Vy.
  destruct (mul_fuel_closed _ _ _ _ _ _ E Hs Hc Vx Vy) as [Hc' Vp].
  split; [|done]. split; [|split]; [|done|by eapply mul_fuel_hashcons].
  eapply grows_statics_ok; [by eapply mul_fuel_grows|done].
Qed.

(** *** Termination of [mul] *)

(** The measure that decreases along the recursion: constant cases are
    immediate, otherwise the ranks of the operands add up. *)
Lemma mul_measure_decreases st x y rx ry :
  statics_ok st → closed st →
  mul_const x y = None → deref st x = Some rx → deref st y = Some ry →
  ∀ cx cy, (cx = a0 rx ∨ cx = a1 rx) → (cy = a0 ry ∨ cy = a1 ry) →
  is_Some (mul_const cx cy) ∨ prank cx + prank cy < prank x + prank y.
Proof.
  intros Hs Hc Ec Hx Hy cx cy Hcx Hcy.
  destruct (mul_const_None _ _ Ec) as (HxI & HyI & Hbcd).
  destruct (child_prank _ _ _ Hs Hc Hx) as (_ & [Lx0 Lx1] & Sx).
  destruct (child_prank _ _ _ Hs Hc Hy) as (_ & [Ly0 Ly1] & Sy).
  right.
  destruct Sx as [?|[Bx|[Sx0 Sx1]]]; [done| |].
  - destruct Sy as [?|[By|[Sy0 Sy1]]]; [done|by destruct Hbcd|].
    destruct Hcx as [-> | ->], Hcy as [-> | ->]; lia.
  - destruct Hcx as [-> | ->], Hcy as [-> | ->]; lia.
Qed.

Lemma mul_fuel_terminates fuel st x y :
  statics_ok st → closed st → valid st x → valid st y →
  (is_Some (mul_const x y) ∧ 0 < fuel) ∨ prank x + prank y < fuel →
  is_Some (mul_fuel fuel st x y).
Proof.
  revert st x y. induction fuel as [|fuel IH]; intros st x y Hs Hc Vx Vy Hm;
    [destruct Hm as [[_ ?]|?]; lia|].
  rewrite mul_fuel_S. destruct (mul_const x y) as [r|] eqn:Ec; [by eexists|].
  destruct Hm as [[[? [=]] _]|Hm].
  apply deref_valid in Vx as Dx. destruct Dx as [rx Hx].
  apply deref_valid in Vy as Dy. destruct Dy as [ry Hy].
  rewrite Hx, Hy. simpl.
  destruct (child_prank _ _ _ Hs Hc Hx) as ([Vx0 Vx1] & _).
  destruct (child_prank _ _ _ Hs Hc Hy) as ([Vy0 Vy1] & _).
  pose proof (mul_measure_decreases _ _ _ _ _ Hs Hc Ec Hx Hy) as Hdec.
  assert (∀ cx cy, (cx = a0 rx ∨ cx = a1 rx) → (cy = a0 ry ∨ cy = a1 ry) →
            (is_Some (mul_const cx cy) ∧ 0 < fuel) ∨ prank cx + prank cy < fuel)
    as Hdec'.
  { intros cx cy Hcx Hcy. destruct (Hdec cx cy Hcx Hcy); [left|right]; [|lia].
    split; [done|]. destruct x, y; simpl in *; try done; lia. }
  destruct (IH st (if swapped ry then a1 rx else a0 rx) (a0 ry))
    as [[p0 st1] E0]; [done|done|by destruct (swapped ry)|done| |].
  { apply Hdec'; [destruct (swapped ry)|]; auto. }
  rewrite E0. simpl.
  pose proof (mul_fuel_grows _ _ _ _ _ _ E0) as G0.
  destruct (mul_fuel_closed _ _ _ _ _ _ E0) as [Hc1 Vp0];
    [done|done|by destruct (swapped ry)|done|].
  destruct (IH st1 (if swapped ry then a0 rx else a1 rx) (a1 ry))
    as [[p1 st2] E1];
    [by eapply grows_statics_ok|done
    |destruct (swapped ry); by eapply grows_valid|by eapply grows_valid| |].
  { apply Hdec'; [destruct (swapped ry)|]; auto. }
  rewrite E1. simpl.
  pose proof (mul_fuel_grows _ _ _ _ _ _ E1) as G1.
  rewrite (grows_deref _ _ _ _ G1 (grows_deref _ _ _ _ G0 Hy)). simpl.
  by eexists.
Qed.

Lemma prank_valid st p : valid st p → prank p < length (all_reps st) + 3.
Proof. destruct p; simpl; lia. Qed.

(** [mul_depth] is enough fuel. *)
Lemma mul_fuel_enough st x y :
  statics_ok st → closed st → valid st x → valid st y →
  is_Some (mul st x y).
Proof.
  intros Hs Hc Vx Vy. apply mul_fuel_terminates; try done. right.
  pose proof (prank_valid _ _ Vx). pose proof (prank_valid _ _ Vy).
  unfold mul_depth. lia.
Qed.


(** *** The initial store *)

Lemma statics_ok_init : statics_ok init.
Proof. by repeat split. Qed.

Lemma closed_init : closed init.
Proof. intros n r H. simpl in H. by rewrite lookup_nil in H. Qed.

(** The five static triples are pairwise distinct. *)
Lemma hashcons_init : hashcons init.
Proof.
  intros p q rp rq Hp Hq E.
  destruct p, q; simpl in Hp, Hq; try by rewrite lookup_nil in *.
  all: by simplify_eq.
Qed.

Lemma wf_init : wf init.
Proof. split; [|split]; [apply statics_ok_init|apply closed_init|apply hashcons_init]. Qed.

(** *** Results of [mul] do not depend on when they are computed *)

Lemma tie_le_length st st' :
  tie_le st st' → length (all_reps st) ≤ length (all_reps st').
Proof.
  intros Hle. destruct (all_reps st) as [|r l] eqn:E using rev_ind; [simpl; lia|].
  clear IHl. assert (valid st (node (length l))) as V.
  { simpl. rewrite E, length_app. simpl. lia. }
  apply (tie_le_valid _ _ _ Hle) in V. simpl in V. rewrite length_app. simpl. lia.
Qed.

(** Once [mul x y] has been computed, computing it again later, in a
    store where further nodes exist and [mutable] fields have changed,
    returns the same pointer and inserts nothing. *)
Lemma mul_fuel_stable fuel st x y p st1 st2 :
  mul_fuel fuel st x y = Some (p, st1) →
  tie_le st1 st2 → hashcons st2 →
  mul_fuel fuel st2 x y = Some (p, st2).
Proof.
  revert st x y p st1.
  induction fuel as [|fuel IH]; intros st x y p st1; [done|].
  rewrite !mul_fuel_S. destruct (mul_const x y) as [r|] eqn:Ec.
  { by intros [= <- <-]. }
  destruct (deref st x) as [rx|] eqn:Ex; [|done].
  destruct (deref st y) as [ry|] eqn:Ey; [|done]. simpl.
  destruct (mul_fuel fuel st _ _) as [[p0 sta]|] eqn:E0; [|done]. simpl.
  destruct (mul_fuel fuel sta _ _) as [[p1 stb]|] eqn:E1; [|done]. simpl.
  destruct (deref stb y) as [ry2|] eqn:Ey2; [|done]. simpl.
  intros [= El] Hle Hh.
  pose proof (grows_tie_le _ _ (mul_fuel_grows _ _ _ _ _ _ E0)) as L0.
  pose proof (grows_tie_le _ _ (mul_fuel_grows _ _ _ _ _ _ E1)) as L1.
  pose proof (grows_tie_le _ _ (lookup_grows _ _ _ _ El)) as L2.
  assert (tie_le st st2) as L by eauto using tie_le_trans.
  destruct (L _ _ Ex) as (rx' & -> & (Sx & X0 & X1)%tie_eq).
  destruct (L _ _ Ey) as (ry' & Ey' & (Sy & Y0 & Y1)%tie_eq). rewrite Ey'. simpl.
  simpl in Sx, X0, X1, Sy, Y0, Y1. rewrite Sx, X0, X1, Sy, Y0, Y1.
  rewrite (IH _ _ _ _ _ E0) by eauto using tie_le_trans. simpl.
  rewrite (IH _ _ _ _ _ E1) by eauto using tie_le_trans. simpl.
  rewrite Ey'. simpl. f_equal.
  destruct (lookup_tie _ _ _ _ El) as (r & Hr & Et).
  destruct (Hle _ _ Hr) as (r' & Hr' & Et').
  eapply lookup_found; [done|exact Hr'|]. by rewrite Et', Et.
Qed.

Lemma mul_stable st x y p st1 st2 :
  mul st x y = Some (p, st1) → tie_le st1 st2 → hashcons st2 →
  mul st2 x y = Some (p, st2).
Proof.
  unfold mul. intros E Hle Hh.
  eapply mul_fuel_mono; [|by eapply mul_fuel_stable].
  pose proof (grows_length _ _ (mul_fuel_grows _ _ _ _ _ _ E)).
  pose proof (tie_le_length _ _ Hle). unfold mul_depth. lia.
Qed.

Lemma mul_wf st x y p st' :
  mul st x y = Some (p, st') →
  wf st → valid st x → valid st y → wf st' ∧ valid st' p ∧ grows st st'.
Proof.
  intros E Hwf Vx Vy. destruct (mul_fuel_wf _ _ _ _ _ _ E Hwf Vx Vy).
  split; [done|]. split; [done|]. by eapply mul_fuel_grows.
Qed.

Lemma mul_total st x y :
  wf st → valid st x → valid st y → ∃ p st', mul st x y = Some (p, st').
Proof.
  intros (Hs & Hc & _) Vx Vy.
  destruct (mul_fuel_enough st x y Hs Hc Vx Vy) as [[p st'] E]. eauto.
Qed.


(** *** The flag of a product *)

Lemma statics_swapped st :
  statics_ok st →
  swapped (obj_I st) = false ∧ swapped (obj_a st) = true ∧
  swapped (obj_b st) = false ∧ swapped (obj_c st) = false ∧
  swapped (obj_d st) = false.
Proof.
  intros (HI & Ha & Hb & Hc & Hd).
  apply tie_eq in HI as (? & _), Ha as (? & _), Hb as (? & _),
    Hc as (? & _), Hd as (? & _). done.
Qed.

Lemma mul_const_swapped st x y r rx ry :
  statics_ok st → mul_const x y = Some r →
  deref st x = Some rx → deref st y = Some ry →
  ∃ rr, deref st r = Some rr ∧ swapped rr = xorb (swapped rx) (swapped ry).
Proof.
  intros (SI & Sa & Sb & Sc & Sd)%statics_swapped Ec Hx Hy.
  destruct x, y; cbv in Ec; simpl in Hx, Hy; simplify_eq; simpl;
    eexists; (split; [try reflexivity; eassumption|]);
    rewrite ?SI, ?Sa, ?Sb, ?Sc, ?Sd, ?xorb_false_r; done.
Qed.

Lemma mul_fuel_swapped fuel st x y p st' rx ry :
  mul_fuel fuel st x y = Some (p, st') → statics_ok st →
  deref st x = Some rx → deref st y = Some ry →
  ∃ r, deref st' p = Some r ∧ swapped r = xorb (swapped rx) (swapped ry).
Proof.
  destruct fuel as [|fuel]; [done|]. rewrite mul_fuel_S.
  destruct (mul_const x y) as [r|] eqn:Ec.
  { intros [= <- <-] Hs Hx Hy. by eapply mul_const_swapped. }
  intros E Hs Hx Hy. rewrite Hx, Hy in E. simpl in E.
  destruct (mul_fuel fuel st _ _) as [[p0 st1]|]; [|done]. simpl in E.
  destruct (mul_fuel fuel st1 _ _) as [[p1 st2]|]; [|done]. simpl in E.
  destruct (deref st2 y) as [ry2|]; [|done]. simpl in E.
  injection E as El. destruct (lookup_tie _ _ _ _ El) as (r & Hr & Et).
  exists r. split; [done|]. by apply tie_eq in Et as (? & _).
Qed.

(** *** The [last] field of a product *)

(** Either [mul] inserts nothing and returns an object that was there, or
    the object it returns is the node inserted last, and that node was
    built by the outermost activation from [y->last]. *)
Lemma mul_fuel_fresh fuel st x y p st' :
  mul_fuel fuel st x y = Some (p, st') →
  statics_ok st → closed st → valid st x → valid st y →
  (st' = st ∧ valid st p) ∨
  (p = node (length (all_reps st') - 1) ∧
   length (all_reps st) < length (all_reps st') ∧
   ∃ ry r, deref st y = Some ry ∧ deref st' p = Some r ∧ last r = last ry).
Proof.
  revert st x y p st'.
  induction fuel as [|fuel IH]; intros st x y p st'; [done|].
  rewrite mul_fuel_S. destruct (mul_const x y) as [r|] eqn:Ec.
  { intros [= <- <-] _ _ Vx Vy. left. eauto using mul_const_valid. }
  destruct (deref st x) as [rx|] eqn:Ex; [|done].
  destruct (deref st y) as [ry|] eqn:Ey; [|done]. simpl.
  destruct (mul_fuel fuel st _ _) as [[p0 sta]|] eqn:E0; [|done]. simpl.
  destruct (mul_fuel fuel sta _ _) as [[p1 stb]|] eqn:E1; [|done]. simpl.
  destruct (deref stb y) as [ry2|] eqn:Ey2; [|done]. simpl.
  intros [= El] Hs Hc Vx Vy.
  destruct (child_prank _ _ _ Hs Hc Ex) as ([Vx0 Vx1] & _).
  destruct (child_prank _ _ _ Hs Hc Ey) as ([Vy0 Vy1] & _).
  pose proof (mul_fuel_grows _ _ _ _ _ _ E0) as G0.
  pose proof (mul_fuel_grows _ _ _ _ _ _ E1) as G1.
  assert (valid st (if swapped ry then a1 rx else a0 rx)) as Vc0
    by (by destruct (swapped ry)).
  assert (valid st (if swapped ry then a0 rx else a1 rx)) as Vc1
    by (by destruct (swapped ry)).
  destruct (mul_fuel_closed _ _ _ _ _ _ E0 Hs Hc Vc0 Vy0) as [Hca Vp0].
  pose proof (grows_statics_ok _ _ G0 Hs) as Hsa.
  destruct (mul_fuel_closed _ _ _ _ _ _ E1 Hsa Hca) as [Hcb Vp1];
    [by eapply grows_valid..|].
  pose proof (grows_statics_ok _ _ G1 Hsa) as Hsb.
  pose proof (IH _ _ _ _ _ E0 Hs Hc Vc0 Vy0) as R0.
  pose proof (IH _ _ _ _ _ E1 Hsa Hca
                (grows_valid _ _ _ G0 Vc1) (grows_valid _ _ _ G0 Vy1)) as R1.
  pose proof (grows_length _ _ G0) as L0.
  pose proof (grows_length _ _ G1) as L1.
  assert (ry2 = ry) as ->.
  { pose proof (grows_deref _ _ _ _ G1 (grows_deref _ _ _ _ G0 Ey)). congruence. }
  destruct (lookup_cases _ _ _ _ El) as [[-> (r & Hr & Et)]|(-> & -> & _)].
  - (* the triple is already there: no inner call has inserted a node *)
    apply tie_eq in Et as (_ & Et0 & Et1). simpl in Et0, Et1.
    destruct (child_prank _ _ _ Hsb Hcb Hr) as (_ & [Lr0 Lr1] & Sr).
    pose proof (prank_valid _ _ (deref_Some_valid _ _ _ Hr)) as Lp.
    rewrite Et0, Et1 in *.
    assert (sta = st ∧ stb = sta) as [-> ->].
    { destruct R1 as [[-> _]|(-> & Lt1 & _)].
      - split; [|done]. destruct R0 as [[-> _]|(-> & Lt0 & _)]; [done|].
        exfalso. simpl in Lr0.
        destruct Sr as [->|[[->|[->| ->]]|[? ?]]]; simpl in *; lia.
      - exfalso. simpl in Lr1.
        destruct Sr as [->|[[->|[->| ->]]|[? ?]]]; simpl in *; lia. }
    left. split; [done|]. by eapply deref_Some_valid.
  - right. simpl. rewrite length_app. simpl.
    split; [f_equal; lia|]. split; [lia|].
    exists ry, (new_rep (xorb (swapped rx) (swapped ry)) p0 p1 (last ry)).
    split; [done|]. split; [|done].
    by rewrite lookup_app_r, Nat.sub_diag.
Qed.


(** *** Statements about the store and the multiplier *)

(** C1. The hash-consing invariant of [lookup].  In a store whose objects
    have pairwise distinct triples, for any two candidates [x] and [y]
    looked up one after the other: the two calls return the same pointer
    if and only if the candidates have the same triple; a candidate with
    the triple of one of the five static objects yields that object (and
    inserts nothing); any later [lookup] of a candidate with the triple
    of [x] returns the pointer returned for [x] and inserts nothing; and
    after [lookup] two pointers are equal if and only if the objects they
    point to have equal triples. *)
Theorem lookup_hash_consing (st : store) (x y : rep) :
  statics_ok st → hashcons st →
  ∃ p st1 q st2,
    lookup st x = (p, st1) ∧ lookup st1 y = (q, st2) ∧
    (p = q ↔ tie x = tie y) ∧
    (tie x = (false, grig_I, grig_I) → p = grig_I ∧ st1 = st) ∧
    (tie x = (true, grig_I, grig_I) → p = grig_a ∧ st1 = st) ∧
    (tie x = (false, grig_a, grig_c) → p = grig_b ∧ st1 = st) ∧
    (tie x = (false, grig_a, grig_d) → p = grig_c ∧ st1 = st) ∧
    (tie x = (false, grig_I, grig_b) → p = grig_d ∧ st1 = st) ∧
    (∀ st3 x', tie_le st1 st3 → hashcons st3 → tie x' = tie x →
               lookup st3 x' = (p, st3)) ∧
    hashcons st1 ∧
    (∀ p1 p2 r1 r2, deref st1 p1 = Some r1 → deref st1 p2 = Some r2 →
                    (p1 = p2 ↔ tie r1 = tie r2)).
Proof.
  intros Hs Hh.
  destruct (lookup st x) as [p st1] eqn:Ex.
  destruct (lookup st1 y) as [q st2] eqn:Ey.
  exists p, st1, q, st2. split; [done|]. split; [done|].
  pose proof (lookup_hashcons _ _ _ _ Ex Hh) as Hh1.
  destruct (lookup_tie _ _ _ _ Ex) as (rp & Hrp & Etp).
  destruct (lookup_tie _ _ _ _ Ey) as (rq & Hrq & Etq).
  assert (∀ g rg, deref st g = Some rg → tie x = tie rg → p = g ∧ st1 = st)
    as Hstatic.
  { intros g rg Hg Et. symmetry in Et.
    rewrite (lookup_found _ _ _ _ Hh Hg Et) in Ex. by simplify_eq. }
  destruct Hs as (HI & Ha & Hb & Hc & Hd).
  split; [|split; [|split; [|split; [|split; [|split; [|split; [|split]]]]]]].
  - split.
    + intros ->.
      pose proof (grows_deref _ _ _ _ (lookup_grows _ _ _ _ Ey) Hrp). congruence.
    + intros Et. rewrite (lookup_found st1 y p rp Hh1 Hrp) in Ey by congruence.
      by simplify_eq.
  - intros Et. eapply (Hstatic grig_I); [done|]; congruence.
  - intros Et. eapply (Hstatic grig_a); [done|]; congruence.
  - intros Et. eapply (Hstatic grig_b); [done|]; congruence.
  - intros Et. eapply (Hstatic grig_c); [done|]; congruence.
  - intros Et. eapply (Hstatic grig_d); [done|]; congruence.
  - intros st3 x' Hle Hh3 Et. destruct (Hle _ _ Hrp) as (r3 & Hr3 & Et3).
    eapply lookup_found; [done..|congruence].
  - done.
  - intros p1 p2 r1 r2 H1 H2. split.
    + by intros ->; simplify_eq.
    + intros Et. by eapply Hh1.
Qed.

Lemma lookup_hash_consing_witness :
  ∃ p st1 q st2,
    lookup init (new_rep true grig_a grig_d "c") = (p, st1) ∧
    lookup st1 (new_rep true grig_a grig_d "b") = (q, st2) ∧
    (p = q ↔ tie (new_rep true grig_a grig_d "c") = tie (new_rep true grig_a grig_d "b")) ∧
    (tie (new_rep true grig_a grig_d "c") = (false, grig_I, grig_I) → p = grig_I ∧ st1 = init) ∧
    (tie (new_rep true grig_a grig_d "c") = (true, grig_I, grig_I) → p = grig_a ∧ st1 = init) ∧
    (tie (new_rep true grig_a grig_d "c") = (false, grig_a, grig_c) → p = grig_b ∧ st1 = init) ∧
    (tie (new_rep true grig_a grig_d "c") = (false, grig_a, grig_d) → p = grig_c ∧ st1 = init) ∧
    (tie (new_rep true grig_a grig_d "c") = (false, grig_I, grig_b) → p = grig_d ∧ st1 = init) ∧
    (∀ st3 x', tie_le st1 st3 → hashcons st3 →
               tie x' = tie (new_rep true grig_a grig_d "c") →
               lookup st3 x' = (p, st3)) ∧
    hashcons st1 ∧
    (∀ p1 p2 r1 r2, deref st1 p1 = Some r1 → deref st1 p2 = Some r2 →
                    (p1 = p2 ↔ tie r1 = tie r2)).
Proof.
  apply (lookup_hash_consing init
           (new_rep true grig_a grig_d "c") (new_rep true grig_a grig_d "b")).
  - exact statics_ok_init.
  - exact hashcons_init.
Defined.

(** C10. For all valid pointers [x] and [y] of a well-formed store,
    [mul x y] returns an object whose [swapped] flag is the exclusive or
    of the flags of [x] and [y]. *)
Theorem mul_swapped_parity (st : store) (x y : prep) :
  wf st → valid st x → valid st y →
  ∃ p st' rx ry r,
    mul st x y = Some (p, st') ∧
    deref st x = Some rx ∧ deref st y = Some ry ∧ deref st' p = Some r ∧
    swapped r = xorb (swapped rx) (swapped ry).
Proof.
  intros Hwf Vx Vy. destruct (mul_total st x y Hwf Vx Vy) as (p & st' & E).
  apply deref_valid in Vx as [rx Hx]. apply deref_valid in Vy as [ry Hy].
  destruct Hwf as (Hs & _).
  destruct (mul_fuel_swapped _ _ _ _ _ _ _ _ E Hs Hx Hy) as (r & Hr & Sr).
  by exists p, st', rx, ry, r.
Qed.

Lemma mul_swapped_parity_witness :
  ∃ p st' rx ry r,
    mul init grig_a grig_c = Some (p, st') ∧
    deref init grig_a = Some rx ∧ deref init grig_c = Some ry ∧
    deref st' p = Some r ∧
    swapped r = xorb (swapped rx) (swapped ry).
Proof.
  apply (mul_swapped_parity init grig_a grig_c); [exact wf_init|exact I|exact I].
Defined.

(** C3, as the code has it.  For all valid pointers [x] and [y] of a
    well-formed store, [mul x y] returns; it leaves every object that
    existed before the call as it was, all fields included; and when the
    object it returns did not exist before the call, the [last] field of
    that object is [y->last]. *)
Theorem mul_last_symbol (st : store) (x y : prep) :
  wf st → valid st x → valid st y →
  ∃ p st',
    mul st x y = Some (p, st') ∧
    (∀ q r, deref st q = Some r → deref st' q = Some r) ∧
    (¬ valid st p →
     ∃ ry r, deref st y = Some ry ∧ deref st' p = Some r ∧ last r = last ry).
Proof.
  intros Hwf Vx Vy. destruct (mul_total st x y Hwf Vx Vy) as (p & st' & E).
  exists p, st'. split; [done|]. split.
  - intros q r. apply grows_deref. by eapply mul_fuel_grows.
  - destruct Hwf as (Hs & Hc & _).
    destruct (mul_fuel_fresh _ _ _ _ _ _ E Hs Hc Vx Vy)
      as [[_ Vp]|(_ & _ & Hlast)]; done.
Qed.

Lemma mul_last_symbol_witness :
  ∃ p st',
    mul init grig_a grig_c = Some (p, st') ∧
    (∀ q r, deref init q = Some r → deref st' q = Some r) ∧
    (¬ valid init p →
     ∃ ry r, deref init grig_c = Some ry ∧ deref st' p = Some r ∧
             last r = last ry).
Proof.
  apply (mul_last_symbol init grig_a grig_c); [exact wf_init|exact I|exact I].
Defined.

(** C3, as the claim words it, fails on a constant case ([mul a a] is the
    identity, whose [last] is 0 and not ['a']) and on an interned result
    (after [ac = mul a c] and [ab = mul a b], [mul ab d] is the node [ac],
    whose [last] is still ['c'] and not ['d']). *)
Lemma mul_last_symbol_claimed_fails :
  (∃ p st' r ry,
     mul init grig_a grig_a = Some (p, st') ∧
     deref st' p = Some r ∧ deref st' grig_a = Some ry ∧ last r ≠ last ry) ∧
  (∃ ac st1 ab st2 p st3 r ry,
     mul init grig_a grig_c = Some (ac, st1) ∧
     mul st1 grig_a grig_b = Some (ab, st2) ∧
     mul st2 ab grig_d = Some (p, st3) ∧
     deref st3 p = Some r ∧ deref st3 grig_d = Some ry ∧ last r ≠ last ry).
Proof.
  split.
  - by eexists _, _, _, _.
  - by eexists _, _, _, _, _, _, _, _.
Qed.


End StoreFacts.

(** ** The multiplier computes the product of tree automorphisms *)

Module Action.
Import Store StoreFacts.

Lemma act_cons st p r b w :
  deref st p = Some r →
  act st p (b :: w) = xorb b (swapped r) :: act st (if b then a1 r else a0 r) w.
Proof. intros H. simpl. by rewrite H. Qed.

(** The action of a pointer only depends on the triples reachable from
    it. *)
Lemma act_tie_le st st' p w :
  statics_ok st → closed st → tie_le st st' → valid st p →
  act st' p w = act st p w.
Proof.
  intros Hs Hc Hle. revert p. induction w as [|b w IH]; intros p Vp; [done|].
  apply deref_valid in Vp as [r Hr].
  destruct (Hle _ _ Hr) as (r' & Hr' & (Es & E0 & E1)%tie_eq).
  rewrite (act_cons _ _ _ _ _ Hr), (act_cons _ _ _ _ _ Hr'), Es, E0, E1.
  f_equal. apply IH.
  destruct (child_prank _ _ _ Hs Hc Hr) as ([V0 V1] & _). by destruct b.
Qed.

(** The static objects act in every store as they do initially. *)
Lemma act_static st g w :
  statics_ok st → is_static g → act st g w = act init g w.
Proof.
  intros Hs. pose proof Hs as (HI & Ha & Hb & Hc & Hd).
  apply tie_eq in HI as (SI & I0 & I1), Ha as (Sa & A0 & A1),
    Hb as (Sb & B0 & B1), Hc as (Sc & C0 & C1), Hd as (Sd & D0 & D1).
  revert g. induction w as [|b w IH]; intros g Hg; [done|].
  destruct g; try done; simpl;
    rewrite ?SI, ?I0, ?I1, ?Sa, ?A0, ?A1, ?Sb, ?B0, ?B1, ?Sc, ?C0, ?C1,
      ?Sd, ?D0, ?D1; f_equal; by destruct b; apply IH.
Qed.

Lemma act_init_I w : act init grig_I w = w.
Proof. induction w as [|[] w IH]; simpl; by rewrite ?IH. Qed.

Lemma act_init_a_a w : act init grig_a (act init grig_a w) = w.
Proof. destruct w as [|[] w]; simpl; by rewrite ?act_init_I. Qed.

(** [b], [c], [d] and the identity form a Klein four-group. *)
Lemma act_init_klein w :
  let f p := act init p in
  f grig_b (f grig_b w) = w ∧ f grig_c (f grig_c w) = w ∧
  f grig_d (f grig_d w) = w ∧
  f grig_b (f grig_c w) = f grig_d w ∧ f grig_c (f grig_b w) = f grig_d w ∧
  f grig_b (f grig_d w) = f grig_c w ∧ f grig_d (f grig_b w) = f grig_c w ∧
  f grig_c (f grig_d w) = f grig_b w ∧ f grig_d (f grig_c w) = f grig_b w.
Proof.
  induction w as [|[] w IH]; [done| |]; simpl in *.
  - destruct IH as (?&?&?&?&?&?&?&?&?). repeat split; by f_equal.
  - rewrite !act_init_I. repeat split; f_equal; apply act_init_a_a.
Qed.

Lemma act_mul_const st x y r w :
  statics_ok st → mul_const x y = Some r →
  act st r w = act st x (act st y w).
Proof.
  intros Hs Ec. pose proof (act_init_klein w) as (?&?&?&?&?&?&?&?&?).
  destruct (decide (x = grig_I)) as [->|Hx].
  { cbv in Ec. simplify_eq. rewrite (act_static st grig_I) by done.
    by rewrite act_init_I. }
  destruct (decide (y = grig_I)) as [->|Hy].
  { destruct x; cbv in Ec; simplify_eq; rewrite (act_static st grig_I) by done;
      by rewrite act_init_I. }
  destruct x, y; cbv in Ec; simplify_eq; rewrite !(act_static st) by done;
    rewrite ?act_init_I, ?act_init_a_a; done.
Qed.


(** [mul x y] acts as [y] followed by [x]. *)
Lemma act_mul_fuel fuel st x y p st' :
  mul_fuel fuel st x y = Some (p, st') →
  statics_ok st → closed st → valid st x → valid st y →
  ∀ w, act st' p w = act st x (act st y w).
Proof.
  revert st x y p st'.
  induction fuel as [|fuel IH]; intros st x y p st'; [done|].
  rewrite mul_fuel_S. destruct (mul_const x y) as [r|] eqn:Ec.
  { intros [= <- <-] Hs _ _ _ w. by apply act_mul_const. }
  destruct (deref st x) as [rx|] eqn:Ex; [|done].
  destruct (deref st y) as [ry|] eqn:Ey; [|done]. simpl.
  destruct (mul_fuel fuel st _ _) as [[p0 sta]|] eqn:E0; [|done]. simpl.
  destruct (mul_fuel fuel sta _ _) as [[p1 stb]|] eqn:E1; [|done]. simpl.
  destruct (deref stb y) as [ry2|] eqn:Ey2; [|done]. simpl.
  intros [= El] Hs Hc Vx Vy.
  destruct (child_prank _ _ _ Hs Hc Ex) as ([Vx0 Vx1] & _).
  destruct (child_prank _ _ _ Hs Hc Ey) as ([Vy0 Vy1] & _).
  pose proof (mul_fuel_grows _ _ _ _ _ _ E0) as G0.
  pose proof (mul_fuel_grows _ _ _ _ _ _ E1) as G1.
  pose proof (lookup_grows _ _ _ _ El) as G2.
  assert (valid st (if swapped ry then a1 rx else a0 rx)) as Vc0
    by (by destruct (swapped ry)).
  assert (valid st (if swapped ry then a0 rx else a1 rx)) as Vc1
    by (by destruct (swapped ry)).
  destruct (mul_fuel_closed _ _ _ _ _ _ E0 Hs Hc Vc0 Vy0) as [Hca Vp0].
  pose proof (grows_statics_ok _ _ G0 Hs) as Hsa.
  destruct (mul_fuel_closed _ _ _ _ _ _ E1 Hsa Hca) as [Hcb Vp1];
    [by eapply grows_valid..|].
  pose proof (grows_statics_ok _ _ G1 Hsa) as Hsb.
  pose proof (IH _ _ _ _ _ E0 Hs Hc Vc0 Vy0) as A0.
  pose proof (IH _ _ _ _ _ E1 Hsa Hca
                (grows_valid _ _ _ G0 Vc1) (grows_valid _ _ _ G0 Vy1)) as A1.
  destruct (lookup_tie _ _ _ _ El) as (r & Hr & (Es & Er0 & Er1)%tie_eq).
  simpl in Es, Er0, Er1.
  intros [|b w]; [done|].
  rewrite (act_cons _ _ _ _ _ Hr), (act_cons _ _ _ _ _ Ey),
    (act_cons _ _ _ _ _ Ex), Es, Er0, Er1.
  f_equal; [by destruct b, (swapped rx), (swapped ry)|].
  destruct b.
  - (* below the right child *)
    rewrite (act_tie_le stb st') by eauto using grows_tie_le.
    rewrite A1.
    rewrite !(act_tie_le st sta) by eauto using grows_tie_le.
    by destruct (swapped ry).
  - (* below the left child *)
    rewrite (act_tie_le sta st')
      by eauto using grows_tie_le, grows_trans.
    rewrite A0. by destruct (swapped ry).
Qed.

(** The identity, [b], [c] and [d] act differently from one another on
    the first three levels of the tree. *)
Lemma act_init_separates p q :
  (p = grig_I ∨ bcd_ptr p) → (q = grig_I ∨ bcd_ptr q) → p ≠ q →
  ∃ w, act init p w ≠ act init q w.
Proof.
  unfold bcd_ptr.
  intros [->|[->|[->| ->]]] [->|[->|[->| ->]]] Hne; try done;
    first [ by exists [false; false] | by exists [true; false; false] ].
Qed.

(** Two valid pointers of a well-formed store that act in the same way
    are the same pointer. *)
Lemma act_injective st p q :
  wf st → valid st p → valid st q →
  (∀ w, act st p w = act st q w) → p = q.
Proof.
  intros (Hs & Hc & Hh).
  remember (prank p + prank q) as n eqn:En.
  revert p q En. induction n as [n IH] using lt_wf_ind.
  intros p q -> Vp Vq Hact.
  pose proof Vp as [rp Hp]%deref_valid. pose proof Vq as [rq Hq]%deref_valid.
  destruct (child_prank _ _ _ Hs Hc Hp) as ([Vp0 Vp1] & [Lp0 Lp1] & Sp).
  destruct (child_prank _ _ _ Hs Hc Hq) as ([Vq0 Vq1] & [Lq0 Lq1] & Sq).
  destruct (decide ((p = grig_I ∨ bcd_ptr p) ∧ (q = grig_I ∨ bcd_ptr q)))
    as [[Bp Bq]|Hnb].
  { (* both among the identity, b, c, d: a short path tells them apart *)
    destruct (decide (p = q)) as [|Hne]; [done|exfalso].
    destruct (act_init_separates p q Bp Bq Hne) as [w Hw]. apply Hw.
    rewrite <- !(act_static st) by
      (unfold bcd_ptr in *; destruct Bp as [->|[->|[->| ->]]],
         Bq as [->|[->|[->| ->]]]; done).
    apply Hact. }
  assert (swapped rp = swapped rq) as Es.
  { specialize (Hact [false]).
    rewrite (act_cons _ _ _ _ _ Hp), (act_cons _ _ _ _ _ Hq) in Hact.
    by simplify_eq. }
  assert (∀ (b : bool) w, act st (if b then a1 rp else a0 rp) w =
                 act st (if b then a1 rq else a0 rq) w) as Hch.
  { intros b w. specialize (Hact (b :: w)).
    rewrite (act_cons _ _ _ _ _ Hp), (act_cons _ _ _ _ _ Hq) in Hact.
    by simplify_eq. }
  assert (prank (a0 rp) + prank (a0 rq) < prank p + prank q ∧
          prank (a1 rp) + prank (a1 rq) < prank p + prank q) as [M0 M1].
  { destruct Sp as [?|[?|[? ?]]], Sq as [?|[?|[? ?]]];
      first [ by destruct Hnb; auto | lia ]. }
  assert (a0 rp = a0 rq) as E0
    by (eapply IH; [exact M0|done..|]; intros w; apply (Hch false)).
  assert (a1 rp = a1 rq) as E1
    by (eapply IH; [exact M1|done..|]; intros w; apply (Hch true)).
  eapply Hh; [done..|]. unfold tie. congruence.
Qed.

(** The products [(x y) z] and [x (y z)], computed one after the other,
    are the same pointer. *)
Lemma mul_assoc st x y z :
  wf st → valid st x → valid st y → valid st z →
  ∃ xy st1 l st2 yz st3 r st4,
    mul st x y = Some (xy, st1) ∧ mul st1 xy z = Some (l, st2) ∧
    mul st2 y z = Some (yz, st3) ∧ mul st3 x yz = Some (r, st4) ∧
    l = r.
Proof.
  intros Hwf Vx Vy Vz.
  destruct (mul_total st x y) as (xy & st1 & E1); [done..|].
  destruct (mul_wf _ _ _ _ _ E1) as (Hwf1 & Vxy & G1); [done..|].
  destruct (mul_total st1 xy z) as (l & st2 & E2);
    [done|done|by eapply grows_valid|].
  destruct (mul_wf _ _ _ _ _ E2) as (Hwf2 & Vl & G2);
    [done|done|by eapply grows_valid|].
  assert (grows st st2) as G02 by eauto using grows_trans.
  destruct (mul_total st2 y z) as (yz & st3 & E3);
    [done|by eapply grows_valid..|].
  destruct (mul_wf _ _ _ _ _ E3) as (Hwf3 & Vyz & G3);
    [done|by eapply grows_valid..|].
  assert (grows st st3) as G03 by eauto using grows_trans.
  destruct (mul_total st3 x yz) as (r & st4 & E4);
    [done|by eapply grows_valid|done|].
  destruct (mul_wf _ _ _ _ _ E4) as (Hwf4 & Vr & G4);
    [done|by eapply grows_valid|done|].
  exists xy, st1, l, st2, yz, st3, r, st4. repeat (split; [done|]).
  destruct Hwf as (Hs & Hc & _), Hwf1 as (Hs1 & Hc1 & _),
    Hwf2 as (Hs2 & Hc2 & _), Hwf3 as (Hs3 & Hc3 & _).
  apply (act_injective st4); [done|eauto using grows_valid, grows_trans|done|].
  intros w.
  rewrite (act_tie_le st2 st4) by eauto using grows_tie_le, grows_trans.
  rewrite (act_mul_fuel _ _ _ _ _ _ E2) by eauto using grows_valid.
  rewrite (act_mul_fuel _ _ _ _ _ _ E1) by done.
  rewrite (act_mul_fuel _ _ _ _ _ _ E4) by eauto using grows_valid.
  rewrite (act_mul_fuel _ _ _ _ _ _ E3) by eauto using grows_valid.
  rewrite !(act_tie_le st st1) by eauto using grows_tie_le.
  rewrite !(act_tie_le st st3) by eauto using grows_tie_le.
  by rewrite !(act_tie_le st st2) by eauto using grows_tie_le.
Qed.

End Action.

(** ** Properties of the enumerator *)

Module EnumFacts.
Import Store StoreFacts Action Enumerator.

(** *** Assignments to [mutable] fields *)

Lemma deref_update_eq st p f r :
  deref st p = Some r → deref (update st p f) p = Some (f r).
Proof.
  destruct p as [| | | | |n]; simpl; try by intros [= ->].
  intros H. by rewrite list_lookup_alter_eq, H.
Qed.

Lemma deref_update_ne st p f q :
  p ≠ q → deref (update st p f) q = deref st q.
Proof.
  intros Hne. destruct p as [| | | | |n], q as [| | | | |m]; simpl; try done.
  apply list_lookup_alter_ne. congruence.
Qed.

Lemma same_ties_refl st : same_ties st st.
Proof. by intros q. Qed.

Lemma same_ties_trans st1 st2 st3 :
  same_ties st1 st2 → same_ties st2 st3 → same_ties st1 st3.
Proof. intros H12 H23 q. by rewrite H23, H12. Qed.

Lemma same_ties_update st p f :
  (∀ r, tie (f r) = tie r) → same_ties st (update st p f).
Proof.
  intros Hf q. destruct (decide (p = q)) as [<-|Hne].
  - destruct (deref st p) as [r|] eqn:E.
    + rewrite (deref_update_eq _ _ _ _ E). simpl. by rewrite Hf.
    + destruct p; simpl in *; try done. by rewrite list_lookup_alter_eq, E.
  - by rewrite deref_update_ne.
Qed.

Lemma same_ties_tie_le st st' : same_ties st st' → tie_le st st'.
Proof.
  intros H p r Hp. specialize (H p). rewrite Hp in H.
  destruct (deref st' p) as [r'|]; [|done]. exists r'. simpl in H.
  split; [done|]. congruence.
Qed.

Lemma same_ties_sym st st' : same_ties st st' → same_ties st' st.
Proof. intros H q. by rewrite H. Qed.

Lemma same_ties_valid st st' p : same_ties st st' → valid st p ↔ valid st' p.
Proof.
  intros H. rewrite <- !deref_valid. specialize (H p).
  destruct (deref st p), (deref st' p); simpl in H; try done;
    split; intros [? ?]; eauto; done.
Qed.

Lemma same_ties_wf st st' : same_ties st st' → wf st → wf st'.
Proof.
  intros H (Hs & Hc & Hh).
  pose proof (same_ties_tie_le _ _ H) as Hle.
  pose proof (same_ties_tie_le _ _ (same_ties_sym _ _ H)) as Hle'.
  split; [by eapply tie_le_statics_ok|]. split.
  - intros n r' Hn. destruct (Hle' (node n) r' Hn) as (r & Hr & (_ & E0 & E1)%tie_eq).
    rewrite <- E0, <- E1. by eapply Hc.
  - intros p q rp rq Hp Hq Et.
    destruct (Hle' _ _ Hp) as (rp' & Hp' & Ep).
    destruct (Hle' _ _ Hq) as (rq' & Hq' & Eq).
    eapply Hh; [done..|]. congruence.
Qed.

(** *** Every object [mul] inserts is unvisited *)

Lemma mul_fuel_new_unvisited fuel st x y p st' :
  mul_fuel fuel st x y = Some (p, st') →
  ∀ q r, deref st' q = Some r → deref st q = Some r ∨ visited r = false.
Proof.
  revert fuel st x y p st'.
  apply (mul_fuel_ind (λ st x y p st',
    ∀ q r, deref st' q = Some r → deref st q = Some r ∨ visited r = false)).
  - auto.
  - intros st x y rx ry p0 st1 p1 st2 ry2 p st' _ _ _ IH0 IH1 _ El q r Hq.
    assert (deref st2 q = Some r ∨ visited r = false) as [H2|?]; [| |by right].
    { destruct (lookup_cases _ _ _ _ El) as [[-> _]|(-> & _ & _)]; [by left|].
      apply deref_emplace in Hq as [?|[_ ->]]; [by left|by right]. }
    destruct (IH1 _ _ H2) as [H1|?]; [|by right]. by apply IH0.
Qed.

(** *** [visit] *)

Lemma visit_cases st all p l d st' all' :
  visit st all p l d = Some (st', all') →
  ∃ r, deref st p = Some r ∧
    ((visited r = true ∧ st' = st ∧ all' = all) ∨
     (visited r = false ∧ all' = all ++ [p] ∧
      deref st' p = Some (mk_rep (swapped r) (a0 r) (a1 r) l true d) ∧
      (∀ q, q ≠ p → deref st' q = deref st q) ∧
      same_ties st st')).
Proof.
  unfold visit. destruct (deref st p) as [r|] eqn:E; [|done]. simpl.
  destruct (visited r) eqn:Ev.
  - intros [= <- <-]. exists r. split; [done|]. by left.
  - intros [= <- <-]. exists r. split; [done|]. right.
    split; [done|]. split; [done|]. split; [|split].
    + pose proof (deref_update_eq _ _ (set_visited true) _ E) as E1.
      pose proof (deref_update_eq _ _ (set_last l) _ E1) as E2.
      by rewrite (deref_update_eq _ _ (set_len d) _ E2).
    + intros q Hq. by rewrite !deref_update_ne.
    + eapply same_ties_trans; [|by apply same_ties_update].
      eapply same_ties_trans; by apply same_ties_update.
Qed.


(** *** The invariant is kept by every step of the traversal *)

Lemma reaches_stable st st' x g p :
  reaches st x g p → tie_le st st' → hashcons st' → reaches st' x g p.
Proof. unfold reaches. intros. by eapply mul_stable. Qed.

Lemma mul_reaches st x g p st' :
  wf st → valid st x → valid st g →
  mul st x g = Some (p, st') → reaches st' x g p.
Proof.
  intros Hwf Vx Vg E. destruct (mul_wf _ _ _ _ _ E Hwf Vx Vg) as ((_ & _ & Hh) & _ & _).
  eapply mul_stable; [done|apply tie_le_refl|done].
Qed.

Lemma grows_deref_back st st' q r :
  grows st st' → valid st q → deref st' q = Some r → deref st q = Some r.
Proof.
  intros Hg [r0 Hr0]%deref_valid Hq.
  pose proof (grows_deref _ _ _ _ Hg Hr0). congruence.
Qed.

Lemma followed_weaken ac ca i gs g j g' :
  followed ac ca i gs j g' → followed ac ca i (g :: gs) j g'.
Proof. intros [?|[-> ?]]; [by left|right]. split; [done|]. by apply elem_of_cons; right. Qed.

Lemma followed_next ac ca i j g :
  followed ac ca i [grig_b; ac; ca] j g ↔ followed ac ca (S i) [] j g.
Proof.
  unfold followed. split.
  - intros [[? ?]|[-> ?]]; left; split; try done; lia.
  - intros [[? ?]|[_ ?%elem_of_nil]]; [|done].
    destruct (decide (j = i)) as [->|]; [by right|left]. split; [lia|done].
Qed.

(** A call of [mul] in between keeps the invariant. *)
Lemma inv_mul ac ca i gs st all x g p st1 :
  bfs_inv ac ca i gs st all → valid st x → valid st g →
  mul st x g = Some (p, st1) →
  bfs_inv ac ca i gs st1 all ∧ valid st1 p ∧ grows st st1.
Proof.
  intros [Hwf Vac Vca Hgs Hvis Hval Hroot Hsort Hfront Hedge Hpar Hac Hca Hbnd] Vx Vg E.
  destruct (mul_wf _ _ _ _ _ E Hwf Vx Vg) as (Hwf1 & Vp & Hg).
  split; [|done].
  assert (∀ q r, q ∈ all → deref st1 q = Some r → deref st q = Some r) as Hback.
  { intros q r Hq. apply grows_deref_back; auto. }
  pose proof Hwf1 as (_ & _ & Hh1).
  split; try done.
  - by eapply grows_valid.
  - by eapply grows_valid.
  - intros q r Hq.
    destruct (mul_fuel_new_unvisited _ _ _ _ _ _ E _ _ Hq) as [Hq0|Hv]; [by apply Hvis|].
    rewrite Hv. split; [done|]. intros Hin.
    pose proof (Hback _ _ Hin Hq) as Hq0. apply (Hvis _ _ Hq0) in Hin. congruence.
  - intros q Hq. eapply grows_valid; eauto.
  - destruct Hroot as [? Hl]. split; [done|].
    destruct Hg as (-> & _). done.
  - intros j k pj pk rj rk Hjk Hj Hk Dj Dk.
    eapply Hsort; [exact Hjk|exact Hj|exact Hk|..];
      eapply Hback; eauto using list_elem_of_lookup_2.
  - intros j k pj pk rj rk Hjk Hj Hk Dj Dk.
    eapply Hfront; [exact Hjk|exact Hj|exact Hk|..];
      eapply Hback; eauto using list_elem_of_lookup_2.
  - intros j g' pj Hf Hj.
    destruct (Hedge _ _ _ Hf Hj) as (p' & rp & rj & Hr & Hin & Dp & Dj & Hl).
    exists p', rp, rj.
    split; [eapply reaches_stable; eauto using grows_tie_le|].
    split; [done|]. split; [by eapply grows_deref|].
    split; [by eapply grows_deref|done].
  - intros k pk rk Hk0 Hk Dk.
    destruct (Hpar k pk rk Hk0 Hk) as (j & g' & pj & rj & Hf & Hj & Hr & Dj & Hl);
      [eapply Hback; eauto using list_elem_of_lookup_2|].
    exists j, g', pj, rj. split; [done|]. split; [done|].
    split; [eapply reaches_stable; eauto using grows_tie_le|].
    split; [by eapply grows_deref|done].
  - eapply reaches_stable; eauto using grows_tie_le.
  - eapply reaches_stable; eauto using grows_tie_le.
  - intros k pk rk Hk Dk. eapply Hbnd; [exact Hk|].
    eapply Hback; eauto using list_elem_of_lookup_2.
Qed.


Lemma lookup_snoc_cases {A} (l : list A) (x y : A) j :
  (l ++ [x]) !! j = Some y →
  (l !! j = Some y ∧ j < length l) ∨ (j = length l ∧ y = x).
Proof.
  intros [H|[Hj H]]%lookup_app_Some.
  - left. split; [done|]. by eapply lookup_lt_Some.
  - right. apply list_lookup_singleton_Some in H as [? ->]. split; [lia|done].
Qed.

(** [visit] of a neighbour that was seen before. *)
Lemma inv_visit_old ac ca i gs st all x rx g p rp :
  bfs_inv ac ca i gs st all →
  all !! i = Some x → deref st x = Some rx →
  g ∈ [grig_b; ac; ca] → reaches st x g p →
  deref st p = Some rp → visited rp = true →
  bfs_inv ac ca i (g :: gs) st all.
Proof.
  intros [Hwf Vac Vca Hgs Hvis Hval Hroot Hsort Hfront Hedge Hpar Hac Hca Hbnd] Hi Dx Hg Hr Dp Ev.
  assert (p ∈ all) as Hin by (by apply (Hvis _ _ Dp)).
  destruct (proj1 (list_elem_of_lookup all p) Hin) as [k Hk].
  split; try done.
  - intros y [->|?]%elem_of_cons; auto.
  - intros j g' pj [Hf|[-> Hg']] Hj.
    + apply (Hedge j g' pj); [by left|done].
    + apply elem_of_cons in Hg' as [->|Hg'].
      * assert (pj = x) as -> by congruence.
        exists p, rp, rx. repeat (split; [done|]).
        by eapply (Hfront i k x p).
      * apply (Hedge i g' pj); [by right|done].
  - intros k' pk rk Hk0 Hk' Dk.
    destruct (Hpar _ _ _ Hk0 Hk' Dk) as (j & g' & pj & rj & Hf & ?).
    exists j, g', pj, rj. split; [by apply followed_weaken|done].
Qed.

(** [visit] of a neighbour that is discovered now. *)
Lemma inv_visit_new ac ca i gs st all x rx g p rp l st' :
  bfs_inv ac ca i gs st all →
  all !! i = Some x → deref st x = Some rx →
  g ∈ [grig_b; ac; ca] → reaches st x g p →
  deref st p = Some rp → visited rp = false →
  deref st' p = Some (mk_rep (swapped rp) (a0 rp) (a1 rp) l true (len rx + 1)) →
  (∀ q, q ≠ p → deref st' q = deref st q) →
  same_ties st st' →
  bfs_inv ac ca i (g :: gs) st' (all ++ [p]).
Proof.
  intros [Hwf Vac Vca Hgs Hvis Hval Hroot Hsort Hfront Hedge Hpar Hac Hca Hbnd]
    Hi Dx Hg Hr Dp Ev Dp' Hne Hsame.
  assert (p ∉ all) as Hnin.
  { intros Hin. apply (Hvis _ _ Dp) in Hin. congruence. }
  assert (∀ q, q ∈ all → deref st' q = deref st q) as Hold.
  { intros q Hq. apply Hne. by intros ->. }
  assert (∀ j q, all !! j = Some q → deref st' q = deref st q) as Hold'.
  { intros j q Hq. eapply Hold, list_elem_of_lookup_2, Hq. }
  pose proof (same_ties_wf _ _ Hsame Hwf) as Hwf'.
  pose proof (same_ties_tie_le _ _ Hsame) as Hle.
  pose proof Hwf' as (_ & _ & Hh').
  pose proof (lookup_lt_Some _ _ _ Hi) as Hlt.
  assert (deref st' x = Some rx) as Dx' by (by rewrite (Hold' _ _ Hi)).
  split.
  - done.
  - by apply (same_ties_valid _ _ _ Hsame).
  - by apply (same_ties_valid _ _ _ Hsame).
  - intros y [->|?]%elem_of_cons; auto.
  - intros q r Dq. rewrite elem_of_app, list_elem_of_singleton.
    destruct (decide (q = p)) as [->|Hqp].
    + rewrite Dp' in Dq. injection Dq as <-. simpl. split; auto.
    + rewrite (Hne _ Hqp) in Dq. rewrite (Hvis _ _ Dq). split; [auto|].
      by intros [?|?].
  - intros q [Hq| ->%list_elem_of_singleton]%elem_of_app.
    + by apply (same_ties_valid _ _ _ Hsame), Hval.
    + by eapply deref_Some_valid.
  - destruct Hroot as [H0 Hl]. split; [by apply lookup_app_l_Some|].
    assert (deref st' grig_I = deref st grig_I) as HI by eauto.
    simpl in HI. by injection HI as ->.
  - intros j k pj pk rj rk Hjk Hj Hk Dj Dk.
    apply lookup_snoc_cases in Hj as [[Hj Lj]|[-> ->]];
      apply lookup_snoc_cases in Hk as [[Hk Lk]|[-> ->]].
    + rewrite (Hold' _ _ Hj) in Dj. rewrite (Hold' _ _ Hk) in Dk.
      by eapply (Hsort j k).
    + rewrite (Hold' _ _ Hj) in Dj. rewrite Dp' in Dk. injection Dk as <-. simpl.
      by eapply (Hfront i j x pj).
    + lia.
    + by simplify_eq.
  - intros j k pj pk rj rk Hij Hj Hk Dj Dk.
    apply lookup_snoc_cases in Hj as [[Hj Lj]|[-> ->]];
      apply lookup_snoc_cases in Hk as [[Hk Lk]|[-> ->]].
    + rewrite (Hold' _ _ Hj) in Dj. rewrite (Hold' _ _ Hk) in Dk.
      by eapply (Hfront j k).
    + rewrite (Hold' _ _ Hj) in Dj. rewrite Dp' in Dk. injection Dk as <-. simpl.
      pose proof (Hsort i j x pj rx rj Hij Hi Hj Dx Dj). lia.
    + rewrite (Hold' _ _ Hk) in Dk. rewrite Dp' in Dj. injection Dj as <-. simpl.
      pose proof (Hfront i k x pk rx rk (le_n _) Hi Hk Dx Dk). lia.
    + simplify_eq. lia.
  - intros j g' pj Hf Hj.
    assert (all !! j = Some pj) as Hj'.
    { apply lookup_snoc_cases in Hj as [[? _]|[-> _]]; [done|].
      destruct Hf as [[? _]|[? _]]; lia. }
    assert (followed ac ca i gs j g' ∨ (j = i ∧ g' = g)) as [Hf'|[-> ->]].
    { destruct Hf as [?|[-> [->|?]%elem_of_cons]];
        [by left; left|by right|by left; right]. }
    + destruct (Hedge _ _ _ Hf' Hj') as (p0 & rp0 & rj & Hr0 & Hin0 & D0 & Dj & Hl).
      exists p0, rp0, rj.
      split; [by eapply reaches_stable|].
      split; [apply elem_of_app; by left|].
      split; [by rewrite (Hold _ Hin0)|].
      split; [by rewrite (Hold' _ _ Hj')|done].
    + assert (pj = x) as -> by congruence.
      eexists p, _, rx.
      split; [by eapply reaches_stable|].
      split; [apply elem_of_app; right; by apply list_elem_of_singleton|].
      split; [exact Dp'|]. split; [done|]. simpl. lia.
  - intros k pk rk Hk0 Hk Dk.
    apply lookup_snoc_cases in Hk as [[Hk Lk]|[-> ->]].
    + rewrite (Hold' _ _ Hk) in Dk.
      destruct (Hpar _ _ _ Hk0 Hk Dk) as (j & g' & pj & rj & Hf & Hj & Hr0 & Dj & Hl).
      exists j, g', pj, rj.
      split; [by apply followed_weaken|].
      split; [by apply lookup_app_l_Some|].
      split; [by eapply reaches_stable|].
      split; [by rewrite (Hold' _ _ Hj)|done].
    + rewrite Dp' in Dk. injection Dk as <-.
      exists i, g, x, rx.
      split; [right; split; [done|by apply elem_of_cons; left]|].
      split; [by apply lookup_app_l_Some|].
      split; [by eapply reaches_stable|]. done.
  - by eapply reaches_stable.
  - by eapply reaches_stable.
  - intros k pk rk Hk Dk.
    apply lookup_snoc_cases in Hk as [[Hk Lk]|[-> ->]].
    + rewrite (Hold' _ _ Hk) in Dk. by eapply Hbnd.
    + rewrite Dp' in Dk. injection Dk as <-. simpl.
      pose proof (Hbnd _ _ _ Hi Dx). lia.
Qed.

Lemma inv_visit ac ca i gs st all x rx g p l st' all' :
  bfs_inv ac ca i gs st all →
  all !! i = Some x → deref st x = Some rx →
  g ∈ [grig_b; ac; ca] → reaches st x g p →
  visit st all p l (len rx + 1) = Some (st', all') →
  bfs_inv ac ca i (g :: gs) st' all'.
Proof.
  intros Inv Hi Dx Hg Hr Hv.
  destruct (visit_cases _ _ _ _ _ _ _ Hv)
    as (rp & Dp & [(Ev & -> & ->)|(Ev & -> & Dp' & Hne & Hsame)]).
  - by eapply inv_visit_old.
  - by eapply inv_visit_new.
Qed.


Lemma visit_prefix st all p l d st' all' i x :
  visit st all p l d = Some (st', all') → all !! i = Some x → all' !! i = Some x.
Proof.
  intros (r & _ & [(_ & _ & ->)|(_ & -> & _)])%visit_cases Hi; [done|].
  by apply lookup_app_l_Some.
Qed.

Lemma inv_gen_valid ac ca i gs st all g :
  bfs_inv ac ca i gs st all → g ∈ [grig_b; ac; ca] → valid st g.
Proof.
  intros Inv Hg. repeat (apply elem_of_cons in Hg as [->|Hg]);
    [done|apply Inv|apply Inv|by apply elem_of_nil in Hg].
Qed.

(** One line [visit(mul(x, g), l, x->len + 1)] of the loop body. *)
Lemma inv_step ac ca i gs st all x g l p st1 rx st2 all2 :
  bfs_inv ac ca i gs st all →
  all !! i = Some x → g ∈ [grig_b; ac; ca] →
  mul st x g = Some (p, st1) → deref st1 x = Some rx →
  visit st1 all p l (len rx + 1) = Some (st2, all2) →
  bfs_inv ac ca i (g :: gs) st2 all2 ∧ all2 !! i = Some x.
Proof.
  intros Inv Hi Hg E Dx Hv.
  assert (valid st x) as Vx by (eapply Inv, list_elem_of_lookup_2, Hi).
  pose proof (inv_gen_valid _ _ _ _ _ _ _ Inv Hg) as Vg.
  destruct (inv_mul _ _ _ _ _ _ _ _ _ _ Inv Vx Vg E) as (Inv1 & Vp & G).
  split; [|by eapply visit_prefix].
  eapply inv_visit; [exact Inv1|exact Hi|exact Dx|exact Hg| |exact Hv].
  eapply mul_reaches; [apply Inv|done..].
Qed.

Lemma inv_next ac ca i st all :
  bfs_inv ac ca i [ca; ac; grig_b] st all → bfs_inv ac ca (S i) [] st all.
Proof.
  intros [Hwf Vac Vca Hgs Hvis Hval Hroot Hsort Hfront Hedge Hpar Hac Hca Hbnd].
  assert (∀ j g, followed ac ca i [ca; ac; grig_b] j g ↔
                 followed ac ca (S i) [] j g) as Hf.
  { intros j g. rewrite <- followed_next. unfold followed.
    rewrite !elem_of_cons, !elem_of_nil. tauto. }
  split; try done.
  - by intros y ?%elem_of_nil.
  - intros j k pj pk rj rk Hij. apply Hfront. lia.
  - intros j g pj Hfo. apply Hedge. by apply Hf.
  - intros k pk rk Hk0 Hk Dk.
    destruct (Hpar _ _ _ Hk0 Hk Dk) as (j & g & pj & rj & Hfo & ?).
    exists j, g, pj, rj. split; [by apply Hf|done].
Qed.

Lemma inv_body ac ca i st all st' all' :
  bfs_inv ac ca i [] st all →
  bfs_body ac ca i (st, all) = Some (st', all') →
  bfs_inv ac ca (S i) [] st' all'.
Proof.
  intros Inv. unfold bfs_body.
  assert (grig_b ∈ [grig_b; ac; ca]) as Gb by (apply elem_of_cons; by left).
  assert (ac ∈ [grig_b; ac; ca]) as Gac
    by (apply elem_of_cons; right; apply elem_of_cons; by left).
  assert (ca ∈ [grig_b; ac; ca]) as Gca
    by (do 2 (apply elem_of_cons; right); apply elem_of_cons; by left).
  destruct (all !! i) as [x|] eqn:Hi; [|done]. simpl.
  destruct (mul st x grig_b) as [[p1 st1]|] eqn:E1; [|done]. simpl.
  destruct (deref st1 x) as [rx1|] eqn:D1; [|done]. simpl.
  destruct (visit st1 all p1 _ _) as [[st2 all2]|] eqn:V1; [|done]. simpl.
  destruct (inv_step _ _ _ _ _ _ _ _ _ _ _ _ _ _ Inv Hi Gb E1 D1 V1)
    as [Inv2 Hi2].
  destruct (mul st2 x ac) as [[p2 st3]|] eqn:E2; [|done]. simpl.
  destruct (deref st3 x) as [rx2|] eqn:D2; [|done]. simpl.
  destruct (visit st3 all2 p2 _ _) as [[st4 all4]|] eqn:V2; [|done]. simpl.
  destruct (inv_step _ _ _ _ _ _ _ _ _ _ _ _ _ _ Inv2 Hi2 Gac E2 D2 V2)
    as [Inv4 Hi4].
  destruct (mul st4 x ca) as [[p3 st5]|] eqn:E3; [|done]. simpl.
  destruct (deref st5 x) as [rx3|] eqn:D3; [|done]. simpl.
  intros V3.
  destruct (inv_step _ _ _ _ _ _ _ _ _ _ _ _ _ _ Inv4 Hi4 Gca E3 D3 V3)
    as [Inv6 _].
  by apply inv_next.
Qed.

Lemma inv_loop ac ca n i st all st' all' :
  bfs_inv ac ca i [] st all →
  bfs_loop ac ca n i (st, all) = Some (st', all') →
  bfs_inv ac ca (i + n) [] st' all'.
Proof.
  revert i st all. induction n as [|n IH]; intros i st all Inv; cbn [bfs_loop].
  - intros [= <- <-]. by rewrite Nat.add_0_r.
  - destruct (bfs_body ac ca i (st, all)) as [[st1 all1]|] eqn:Eb; [|done].
    cbn [mbind option_bind]. intros El. replace (i + S n) with (S i + n) by lia.
    eapply IH; [|exact El]. by eapply inv_body.
Qed.


(** The invariant holds when the loop is entered. *)
Lemma inv_init st0 ac st1 ca st2 st3 all :
  wf st0 → (∀ q r, deref st0 q = Some r → visited r = false) →
  mul st0 grig_a grig_c = Some (ac, st1) →
  mul st1 grig_c grig_a = Some (ca, st2) →
  visit st2 [] grig_I zero 0 = Some (st3, all) →
  bfs_inv ac ca 0 [] st3 all.
Proof.
  intros Hwf0 Hun0 E1 E2 Hv.
  destruct (mul_wf _ _ _ _ _ E1 Hwf0 I I) as (Hwf1 & Vac & G1).
  destruct (mul_wf _ _ _ _ _ E2 Hwf1 I I) as (Hwf2 & Vca & G2).
  assert (∀ q r, deref st2 q = Some r → visited r = false) as Hun2.
  { intros q r Hq.
    destruct (mul_fuel_new_unvisited _ _ _ _ _ _ E2 _ _ Hq) as [Hq1|?]; [|done].
    destruct (mul_fuel_new_unvisited _ _ _ _ _ _ E1 _ _ Hq1) as [Hq0|?]; [|done].
    by eapply Hun0. }
  pose proof Hwf2 as (_ & _ & Hh2).
  assert (reaches st2 grig_a grig_c ac) as Rac.
  { eapply reaches_stable;
      [exact (mul_reaches st0 grig_a grig_c ac st1 Hwf0 I I E1)
      |by apply grows_tie_le|done]. }
  assert (reaches st2 grig_c grig_a ca) as Rca
    by exact (mul_reaches st1 grig_c grig_a ca st2 Hwf1 I I E2).
  destruct (visit_cases _ _ _ _ _ _ _ Hv)
    as (rI & DI & [(Ev & _)|(_ & -> & DI' & Hne & Hsame)]).
  { rewrite (Hun2 _ _ DI) in Ev. done. }
  pose proof (same_ties_wf _ _ Hsame Hwf2) as Hwf3.
  pose proof Hwf3 as (_ & _ & Hh3).
  pose proof (same_ties_tie_le _ _ Hsame) as Hle.
  simpl app.
  assert (∀ k (q : prep), [grig_I] !! k = Some q → k = 0 ∧ q = grig_I) as Hone.
  { intros k q Hk. apply list_lookup_singleton_Some in Hk as [? ?]. by split. }
  split.
  - done.
  - by apply (same_ties_valid _ _ _ Hsame), (grows_valid _ _ _ G2).
  - by apply (same_ties_valid _ _ _ Hsame).
  - by intros y ?%elem_of_nil.
  - intros q r Dq. rewrite list_elem_of_singleton.
    destruct (decide (q = grig_I)) as [->|Hq].
    + rewrite DI' in Dq. injection Dq as <-. by simpl.
    + rewrite (Hne _ Hq) in Dq. rewrite (Hun2 _ _ Dq). split; [done|]. done.
  - intros q ->%list_elem_of_singleton. done.
  - split; [done|]. simpl in DI'. by injection DI' as ->.
  - intros j k pj pk rj rk _ [-> ->]%Hone [-> ->]%Hone Dj Dk.
    rewrite Dj in Dk. injection Dk as ->. lia.
  - intros j k pj pk rj rk _ [-> ->]%Hone [-> ->]%Hone Dj Dk.
    rewrite Dj in Dk. injection Dk as ->. lia.
  - intros j g pj [[? _]|[_ ?%elem_of_nil]]; [lia|done].
  - intros k pk rk Hk0 [-> _]%Hone. lia.
  - by eapply reaches_stable.
  - by eapply reaches_stable.
  - intros k pk rk [-> ->]%Hone Dk. rewrite DI' in Dk.
    injection Dk as <-. simpl. lia.
Qed.

(** The diagnostic tail of [prepare] only multiplies. *)
Lemma deform_loop_inv ac ca i gs all fuel st x2 t t' st' :
  bfs_inv ac ca i gs st all → valid st x2 →
  deform_loop fuel st x2 t = Some (t', st') →
  bfs_inv ac ca i gs st' all.
Proof.
  revert st x2 t. induction fuel as [|fuel IH]; intros st x2 t Inv Vx; [done|].
  cbn [deform_loop]. case_decide; [by intros [= _ <-]|].
  destruct (deref st x2) as [r|]; [|done]. cbn [mbind option_bind].
  assert (∀ st0 x g (k : prep * store → option (list ascii * store)),
            bfs_inv ac ca i gs st0 all → valid st0 x → is_static g →
            (∀ st2 p2, bfs_inv ac ca i gs st2 all → valid st2 p2 →
                       k (p2, st2) = Some (t', st') → bfs_inv ac ca i gs st' all) →
            mul st0 x g ≫= k = Some (t', st') → bfs_inv ac ca i gs st' all) as Hmul.
  { intros st0 x g k Inv0 Vx0 Sg Hk.
    destruct (mul st0 x g) as [[p2 st2]|] eqn:E; [|done]. cbn [mbind option_bind].
    assert (valid st0 g) as Vg by (by destruct g).
    destruct (inv_mul _ _ _ _ _ _ _ _ _ _ Inv0 Vx0 Vg E) as (Inv2 & Vp2 & _).
    by apply Hk. }
  repeat case_match.
  - eapply (Hmul st x2 grig_a); [done..|]. intros st2 p2 ? ?. by apply IH.
  - eapply (Hmul st x2 grig_b); [done..|]. intros st2 p2 ? ?. by apply IH.
  - eapply (Hmul st x2 grig_c); [done..|]. intros st2 p2 ? ?. by apply IH.
  - eapply (Hmul st x2 grig_d); [done..|]. intros st2 p2 ? ?. by apply IH.
  - eapply (Hmul st x2 grig_c); [done..|]. intros st2 p2 ? ?.
    eapply (Hmul st2 p2 grig_a); [done..|]. intros st3 p3 ? ?. by apply IH.
  - eapply (Hmul st x2 grig_a); [done..|]. intros st2 p2 ? ?.
    eapply (Hmul st2 p2 grig_c); [done..|]. intros st3 p3 ? ?. by apply IH.
  - by apply IH.
Qed.

(** The invariant at the end of [prepare]. *)
Lemma prepare_inv fuel grig_limit st0 st all ac ca :
  wf st0 → (∀ q r, deref st0 q = Some r → visited r = false) →
  prepare fuel grig_limit st0 = Some (st, all, ac, ca) →
  bfs_inv ac ca (Z.to_nat grig_limit) [] st all.
Proof.
  intros Hwf0 Hun0. unfold prepare.
  destruct (mul st0 grig_a grig_c) as [[ac' st1]|] eqn:E1; [|done].
  cbn [mbind option_bind].
  destruct (mul st1 grig_c grig_a) as [[ca' st2]|] eqn:E2; [|done].
  cbn [mbind option_bind].
  destruct (visit st2 [] grig_I zero 0) as [[st3 all3]|] eqn:Hv; [|done].
  cbn [mbind option_bind].
  destruct (bfs_loop ac' ca' _ 0 _) as [[st4 all4]|] eqn:El; [|done].
  cbn [mbind option_bind].
  pose proof (inv_init _ _ _ _ _ _ _ Hwf0 Hun0 E1 E2 Hv) as Inv3.
  pose proof (inv_loop _ _ _ _ _ _ _ _ Inv3 El) as Inv4. simpl in Inv4.
  destruct (mul st4 grig_b grig_a) as [[t1 st5]|] eqn:T1; [|done].
  cbn [mbind option_bind].
  destruct (inv_mul _ _ _ _ _ _ grig_b grig_a _ _ Inv4 I I T1) as (Inv5 & V1 & _).
  destruct (mul st5 t1 grig_d) as [[t2 st6]|] eqn:T2; [|done].
  cbn [mbind option_bind].
  destruct (inv_mul _ _ _ _ _ _ t1 grig_d _ _ Inv5 V1 I T2) as (Inv6 & V2 & _).
  destruct (mul st6 t2 grig_a) as [[t3 st7]|] eqn:T3; [|done].
  cbn [mbind option_bind].
  destruct (inv_mul _ _ _ _ _ _ t2 grig_a _ _ Inv6 V2 I T3) as (Inv7 & V3 & _).
  destruct (mul st7 t3 grig_d) as [[t4 st8]|] eqn:T4; [|done].
  cbn [mbind option_bind].
  destruct (inv_mul _ _ _ _ _ _ t3 grig_d _ _ Inv7 V3 I T4) as (Inv8 & V4 & _).
  unfold deform.
  destruct (deform_loop fuel st8 t4 []) as [[t st9]|] eqn:Ed; [|done].
  cbn [mbind option_bind]. intros [= <- <- <- <-].
  by eapply deform_loop_inv.
Qed.

(** No distance exceeds the rank of its representative in [all]:
    [x->len + 1] stays within [int] for every budget. *)
Lemma prepare_len_bound fuel grig_limit st0 st all ac ca k pk rk :
  wf st0 → (∀ q r, deref st0 q = Some r → visited r = false) →
  prepare fuel grig_limit st0 = Some (st, all, ac, ca) →
  all !! k = Some pk → deref st pk = Some rk → (0 ≤ len rk ≤ Z.of_nat k)%Z.
Proof.
  intros Hwf0 Hun0 E. eapply inv_bound. by eapply prepare_inv.
Qed.

Lemma init_unvisited q r : deref init q = Some r → visited r = false.
Proof.
  destruct q; simpl; by intros [= <-].
Qed.


(** *** Statements about the enumerator *)

Lemma inv_one_plus_min ac ca n st all k pk :
  bfs_inv ac ca n [] st all → 0 < k → all !! k = Some pk →
  one_plus_min (Z.of_nat n) ac ca st all pk.
Proof.
  intros Inv Hk0 Hk. unfold one_plus_min. rewrite Nat2Z.id.
  destruct Inv as [Hwf Vac Vca Hgs Hvis Hval Hroot Hsort Hfront Hedge Hpar Hac Hca Hbnd].
  assert (valid st pk) as [rk Dk]%deref_valid
    by (eapply Hval, list_elem_of_lookup_2, Hk).
  exists rk. split; [done|]. split.
  - destruct (Hpar _ _ _ Hk0 Hk Dk) as (j & g & pj & rj & Hf & Hj & Hr & Dj & Hl).
    destruct Hf as [[Hjn Hg]|[_ ?%elem_of_nil]]; [|done].
    by exists j, g, pj, rj.
  - intros j g pj rj st' Hjn Hj Hg Em Dj.
    destruct (Hedge j g pj) as (p & rp & rj' & Hr & Hin & Dp & Dj' & Hl);
      [by left|done|].
    unfold reaches in Hr. rewrite Hr in Em. injection Em as -> _.
    by simplify_eq.
Qed.

(** C8, as the code has it.  When [prepare] returns (started in the
    initial store): [ac] and [ca] are the products [a c] and [c a]; the
    identity is the first representative discovered and its distance is
    0; the distances are non-decreasing in discovery order; and every
    discovered representative other than the identity has a distance
    equal to one plus the minimum distance among the processed
    representatives that reach it by multiplying by [b], [ac] or [ca]. *)
Theorem prepare_bfs_distances fuel grig_limit st all ac ca :
  prepare fuel grig_limit init = Some (st, all, ac, ca) →
  (mul st grig_a grig_c = Some (ac, st) ∧ mul st grig_c grig_a = Some (ca, st)) ∧
  (all !! 0 = Some grig_I ∧ len (obj_I st) = 0%Z) ∧
  distances_sorted st all ∧
  (∀ k pk, 0 < k → all !! k = Some pk → one_plus_min grig_limit ac ca st all pk).
Proof.
  intros E.
  pose proof (prepare_inv _ _ _ _ _ _ _ wf_init init_unvisited E) as Inv.
  split; [split; apply Inv|]. split; [apply Inv|].
  split; [exact (inv_sorted _ _ _ _ _ _ Inv)|].
  intros k pk Hk0 Hk.
  pose proof (inv_one_plus_min _ _ _ _ _ _ _ Inv Hk0 Hk) as H.
  unfold one_plus_min in *. by rewrite Nat2Z.id in H.
Qed.

Lemma prepare_bfs_distances_witness :
  ∃ st all ac ca,
    prepare 20 2 init = Some (st, all, ac, ca) ∧
    (mul st grig_a grig_c = Some (ac, st) ∧ mul st grig_c grig_a = Some (ca, st)) ∧
    (all !! 0 = Some grig_I ∧ len (obj_I st) = 0%Z) ∧
    distances_sorted st all ∧
    (∀ k pk, 0 < k → all !! k = Some pk → one_plus_min 2 ac ca st all pk).
Proof.
  eexists _, _, _, _. split; [vm_compute; reflexivity|].
  apply (prepare_bfs_distances 20 2). vm_compute. reflexivity.
Defined.

(** C8, as the claim words it, fails for the identity, which is a
    discovered representative too: with a budget of two, [b] is processed,
    is at distance 1 and reaches the identity by [b], while the identity
    is at distance 0. *)
Lemma prepare_root_distance_claimed_fails :
  ∃ st all ac ca,
    prepare 20 2 init = Some (st, all, ac, ca) ∧
    all !! 0 = Some grig_I ∧ len (obj_I st) = 0%Z ∧
    all !! 1 = Some grig_b ∧ len (obj_b st) = 1%Z ∧
    mul st grig_b grig_b = Some (grig_I, st) ∧
    ¬ one_plus_min 2 ac ca st all grig_I.
Proof.
  eexists _, _, _, _. split; [vm_compute; reflexivity|].
  repeat (split; [reflexivity|]).
  intros (rk & Dk & (j & g & pj & rj & Hj & Hall & _ & _ & Dj & Hl) & _).
  injection Dk as <-.
  destruct j as [|[|j]]; [| |simpl in Hj; lia];
    simpl in Hall; injection Hall as <-; injection Dj as <-; simpl in Hl; lia.
Qed.

(** C5.  When [prepare] returns, for all representatives [x], [y], [z] it
    has discovered (whatever the budget), [mul (mul x y) z] and
    [mul x (mul y z)], computed one after the other, are the same
    pointer. *)
Theorem mul_assoc_discovered fuel grig_limit st all ac ca x y z :
  prepare fuel grig_limit init = Some (st, all, ac, ca) →
  x ∈ all → y ∈ all → z ∈ all →
  ∃ xy st1 l st2 yz st3 r st4,
    mul st x y = Some (xy, st1) ∧ mul st1 xy z = Some (l, st2) ∧
    mul st2 y z = Some (yz, st3) ∧ mul st3 x yz = Some (r, st4) ∧
    l = r.
Proof.
  intros E Hx Hy Hz.
  pose proof (prepare_inv _ _ _ _ _ _ _ wf_init init_unvisited E) as Inv.
  apply mul_assoc; [apply Inv|by apply Inv..].
Qed.

Lemma mul_assoc_discovered_witness :
  ∃ st all ac ca,
    prepare 20 2 init = Some (st, all, ac, ca) ∧
    ∃ xy st1 l st2 yz st3 r st4,
      mul st grig_b ac = Some (xy, st1) ∧ mul st1 xy ca = Some (l, st2) ∧
      mul st2 ac ca = Some (yz, st3) ∧ mul st3 grig_b yz = Some (r, st4) ∧
      l = r.
Proof.
  eexists _, _, _, _. split; [vm_compute; reflexivity|].
  eapply (mul_assoc_discovered 20 2 _ _ (node 0) (node 1) grig_b (node 0) (node 1));
    [vm_compute; reflexivity|repeat constructor..].
Defined.

End EnumFacts.

(** ** Properties of the lazy map *)

Module AdapterFacts.
Import Store StoreFacts EnumFacts Enumerator Adapter.

(** The product selected by the direction is computed, and computing it
    again later gives the same pointer without touching the store. *)
Lemma switch_d_spec st pr d :
  wf st → valid st pr → (d = 0 ∨ d = 1 ∨ d = 2)%Z →
  ∃ pr' st',
    switch_d st pr d = Some (pr', st') ∧
    wf st' ∧ valid st' pr' ∧ grows st st' ∧
    ∀ st2, tie_le st' st2 → hashcons st2 → switch_d st2 pr d = Some (pr', st2).
Proof.
  intros Hwf Vpr Hd. unfold switch_d.
  assert (∀ g1 g2, is_static g1 → is_static g2 →
    ∃ pr' st',
      ('(t, st) ← mul st pr g1; mul st t g2) = Some (pr', st') ∧
      wf st' ∧ valid st' pr' ∧ grows st st' ∧
      ∀ st2, tie_le st' st2 → hashcons st2 →
             ('(t, st) ← mul st2 pr g1; mul st t g2) = Some (pr', st2)) as H2.
  { intros g1 g2 S1 S2.
    assert (∀ s, valid s g1) as V1 by (by destruct g1).
    assert (∀ s, valid s g2) as V2 by (by destruct g2).
    destruct (mul_total st pr g1) as (t & sta & Ea); [done..|].
    destruct (mul_wf _ _ _ _ _ Ea) as (Hwfa & Vt & Ga); [done..|].
    destruct (mul_total sta t g2) as (pr' & stb & Eb); [done..|].
    destruct (mul_wf _ _ _ _ _ Eb) as (Hwfb & Vpr' & Gb); [done..|].
    exists pr', stb. rewrite Ea. cbn [mbind option_bind]. split; [done|].
    split; [done|]. split; [done|]. split; [by eapply grows_trans|].
    intros st2 Hle Hh.
    rewrite (mul_stable _ _ _ _ _ _ Ea) by
      (done || eauto using tie_le_trans, grows_tie_le).
    cbn [mbind option_bind]. by eapply mul_stable. }
  repeat case_decide; try lia.
  - by apply H2.
  - by apply H2.
  - destruct (mul_total st pr grig_b) as (pr' & st' & E); [done..|].
    destruct (mul_wf _ _ _ _ _ E) as (Hwf' & Vpr' & G); [done..|].
    exists pr', st'. repeat (split; [done|]).
    intros st2 Hle Hh. by eapply mul_stable.
Qed.

Lemma grows_inv_dec (m : hrmap_grigorchuk) st st' :
  tie_le st st' →
  (∀ h pr, dec m !! h = Some pr → valid st pr ∧ h < length (heptagons m)) →
  ∀ h pr, dec m !! h = Some pr → valid st' pr ∧ h < length (heptagons m).
Proof.
  intros Hle H h pr Hh. destruct (H _ _ Hh). split; [|done].
  by eapply tie_le_valid.
Qed.

Lemma set_last_tie l r : tie (set_last l r) = tie r.
Proof. done. Qed.

(** The invariant holds for a new map. *)
Lemma new_adapter_inv fuel grig_limit prepared st m st' :
  wf st → (prepared = false → ∀ q r, deref st q = Some r → visited r = false) →
  hrmap_grigorchuk_new fuel grig_limit prepared st = Some (m, st') →
  adapter_inv m st'.
Proof.
  intros Hwf Hun. unfold hrmap_grigorchuk_new.
  assert (∀ s, (if prepared then Some st
                else '(st, _, _, _) ← prepare fuel grig_limit st; Some st) = Some s →
               wf s) as Hs.
  { intros s. destruct prepared; [by intros [= <-]|].
    destruct (prepare fuel grig_limit st) as [[[[s' all] ac] ca]|] eqn:E; [|done].
    intros [= <-]. eapply (prepare_inv _ _ _ _ _ _ _ Hwf (Hun eq_refl) E). }
  destruct (if prepared then _ else _) as [s|]; [|done]. cbn.
  intros [= <- <-]. split; [by apply Hs|]. simpl. split.
  - intros h pr [[<- <-]|[_ ?]]%lookup_insert_Some; [simpl; split; [done|lia]|].
    by rewrite lookup_empty in *.
  - intros h pr. rewrite !lookup_insert_Some, !lookup_empty.
    split; intros [[<- <-]|[_ [=]]]; by left.
Qed.


End AdapterFacts.

(** ** Further properties of the word layer *)

Module WordMore.
Import Word WordFacts.

(** Every generator is an involution for [add]. *)
Lemma add_add_same s c :
  reduced s → is_gen c = true → add (add s c) c = s.
Proof.
  intros Hs Hc.
  destruct (snoc_cases s) as [->|(s' & b & ->)].
  { rewrite add_nil. change [c] with ([] ++ [c]).
    by rewrite add_snoc, char_eqb_refl. }
  apply reduced_snoc in Hs as (Hs' & Hb & Hlast).
  rewrite add_snoc.
  destruct (char_eqb c b) eqn:Ecb.
  - apply char_eqb_eq in Ecb as ->.
    destruct (snoc_cases s') as [->|(s'' & z & ->)]; [done|].
    rewrite last_snoc in Hlast. destruct Hlast as [Hzb Hz].
    apply reduced_snoc in Hs' as (_ & Hzg & _).
    rewrite add_snoc, <- app_assoc.
    assert (char_eqb b z = false) as -> by (apply char_eqb_neq; congruence).
    destruct (is_gen_cases _ Hb) as [->|[->|[->| ->]]];
      destruct (is_gen_cases _ Hzg) as [->|[->|[->| ->]]]; done.
  - destruct (is_gen_cases _ Hb) as [->|[->|[->| ->]]];
      destruct (is_gen_cases _ Hc) as [->|[->|[->| ->]]];
      try done; simpl; rewrite <- ?app_assoc;
      first [ by rewrite add_snoc
            | change (?l ++ [?x; ?y]) with (l ++ [x] ++ [y]);
              rewrite app_assoc, add_snoc; by simpl ].
Qed.

(** Two different symbols of {b,c,d} in a row count as the third one. *)
Lemma add_add_merge s x y :
  reduced s → is_bcd x = true → is_bcd y = true → x ≠ y →
  add (add s x) y =
    add s (char_xor (char_xor (char_xor (char_xor x y) "d") "b") "c").
Proof.
  intros Hs Hx Hy Hxy.
  destruct (snoc_cases s) as [->|(s' & z & ->)].
  { rewrite !add_nil. change [x] with ([] ++ [x]). rewrite add_snoc.
    destruct (is_bcd_cases _ Hx) as [->|[->| ->]];
      destruct (is_bcd_cases _ Hy) as [->|[->| ->]]; done. }
  apply reduced_snoc in Hs as (Hs' & Hz & Hlast).
  assert (match last s' with Some u => u = "a" | None => True end ∨ z = "a") as Ha.
  { destruct (is_gen_cases _ Hz) as [->|Hzb]; [by right|left].
    destruct (last s') as [u|] eqn:El; [|done].
    destruct Hlast as [_ Hu].
    assert (is_bcd z = true) as Hzb' by (by destruct Hzb as [->|[->| ->]]).
    rewrite Hzb', andb_true_r in Hu.
    apply last_Some in El as [s'' ->].
    apply reduced_snoc in Hs' as (_ & Hug & _).
    destruct (is_gen_cases _ Hug) as [->|[->|[->| ->]]]; done. }
  destruct Ha as [Hu| ->].
  - (* the buffer ends with [a z] or is the single symbol [z] *)
    assert (∀ v, is_bcd v = true → add s' v = s' ++ [v]) as Hpush.
    { intros v Hv. destruct (snoc_cases s') as [->|(s'' & u & ->)]; [done|].
      rewrite last_snoc in Hu. subst u. rewrite add_snoc.
      destruct (is_bcd_cases _ Hv) as [->|[->| ->]]; by rewrite <- app_assoc. }
    destruct (is_gen_cases _ Hz) as [->|Hzb].
    + destruct (is_bcd_cases _ Hx) as [->|[->| ->]];
        destruct (is_bcd_cases _ Hy) as [->|[->| ->]]; try done;
        rewrite !add_snoc; simpl;
        change (?l ++ [?u; ?v]) with (l ++ [u] ++ [v]);
        rewrite app_assoc, add_snoc; simpl; by rewrite <- app_assoc.
    + destruct Hzb as [->|[->| ->]];
        destruct (is_bcd_cases _ Hx) as [->|[->| ->]];
        destruct (is_bcd_cases _ Hy) as [->|[->| ->]]; try done;
        rewrite !add_snoc; simpl; rewrite ?add_snoc; simpl;
        rewrite ?Hpush by done; done.
  - destruct (is_bcd_cases _ Hx) as [->|[->| ->]];
      destruct (is_bcd_cases _ Hy) as [->|[->| ->]]; try done;
      rewrite !add_snoc; simpl;
      change (?l ++ [?u; ?v]) with (l ++ [u] ++ [v]);
      rewrite app_assoc, add_snoc; simpl; by rewrite <- app_assoc.
Qed.


Lemma reduce_snoc w c : reduce (w ++ [c]) = add (reduce w) c.
Proof. unfold reduce. by rewrite fold_left_app. Qed.

Lemma reduce_reduced w : over_gens w → reduced (reduce w).
Proof. intros Hw. by apply fold_add_reduced; [apply reduced_nil|]. Qed.

Lemma reduced_over_gens w : reduced w → over_gens w.
Proof. by intros (? & _). Qed.

(** Feeding the symbols of [add r c] into a buffer amounts to feeding
    those of [r] and then [c]. *)
Lemma fold_add_add r c s :
  reduced r → reduced s → is_gen c = true →
  fold_left add (add r c) s = add (fold_left add r s) c.
Proof.
  intros Hr Hs Hc.
  destruct (snoc_cases r) as [->|(r' & b & ->)]; [done|].
  pose proof Hr as Hr0.
  apply reduced_snoc in Hr as (Hr' & Hb & Hlast).
  pose proof (fold_add_reduced r' s Hs (reduced_over_gens _ Hr')) as Hf.
  rewrite add_snoc.
  destruct (char_eqb c b) eqn:Ecb.
  - apply char_eqb_eq in Ecb as ->.
    rewrite fold_left_app. cbn [fold_left]. by rewrite add_add_same.
  - apply char_eqb_neq in Ecb.
    destruct (negb (char_eqb c "a") && negb (char_eqb b "a")) eqn:Em.
    + apply andb_true_iff in Em as [Eca Eba].
      apply negb_true_iff, char_eqb_neq in Eca, Eba.
      assert (is_bcd b = true) as Hbb
        by (destruct (is_gen_cases _ Hb) as [->|[->|[->| ->]]]; done).
      assert (is_bcd c = true) as Hcb
        by (destruct (is_gen_cases _ Hc) as [->|[->|[->| ->]]]; done).
      rewrite !fold_left_app. cbn [fold_left].
      rewrite add_add_merge; done || congruence.
    + change (r' ++ [b; c]) with (r' ++ [b] ++ [c]).
      by rewrite app_assoc, !fold_left_app.
Qed.

(** A buffer cannot tell a word from its reduction. *)
Lemma fold_add_reduce v s :
  reduced s → over_gens v →
  fold_left add (reduce v) s = fold_left add v s.
Proof.
  intros Hs. induction v as [|c v IH] using rev_ind; intros Hv; [done|].
  apply Forall_app in Hv as [Hv Hc]. rewrite Forall_singleton in Hc.
  rewrite reduce_snoc, fold_add_add by (done || by apply reduce_reduced).
  by rewrite IH, fold_left_app.
Qed.

Lemma fold_add_reverse w s :
  reduced s → over_gens w →
  fold_left add (reverse w) (fold_left add w s) = s.
Proof.
  revert s. induction w as [|c w IH]; intros s Hs Hw; [done|].
  apply Forall_cons in Hw as [Hc Hw].
  rewrite reverse_cons, fold_left_app. simpl.
  rewrite IH by auto using add_reduced. by apply add_add_same.
Qed.

(** *** The splitter and reduction *)

Lemma split_step_twice sw s0 s1 c :
  reduced s0 → reduced s1 → is_gen c = true →
  split_step (split_step (sw, s0, s1) c) c = (sw, s0, s1).
Proof.
  intros H0 H1 Hc.
  destruct (is_gen_cases _ Hc) as [->|[->|[->| ->]]]; destruct sw;
    cbn; rewrite ?add_add_same by done; done.
Qed.

Lemma split_step_merge sw s0 s1 x y :
  reduced s0 → reduced s1 → is_bcd x = true → is_bcd y = true → x ≠ y →
  split_step (split_step (sw, s0, s1) x) y =
    split_step (sw, s0, s1)
      (char_xor (char_xor (char_xor (char_xor x y) "d") "b") "c").
Proof.
  intros H0 H1 Hx Hy Hxy.
  destruct (is_bcd_cases _ Hx) as [->|[->| ->]];
    destruct (is_bcd_cases _ Hy) as [->|[->| ->]]; try done; destruct sw; cbn;
    rewrite ?add_add_same by done;
    rewrite ?(add_add_merge s0), ?(add_add_merge s1) by done; done.
Qed.

Lemma split_add r c :
  reduced r → is_gen c = true → split (add r c) = split_step (split r) c.
Proof.
  intros Hr Hc.
  destruct (snoc_cases r) as [->|(r' & b & ->)]; [done|].
  apply reduced_snoc in Hr as (Hr' & Hb & _).
  destruct (split r') as [[sw s0] s1] eqn:E.
  destruct (split_reduced _ _ _ _ E) as [H0 H1].
  rewrite add_snoc, !split_snoc, E.
  destruct (char_eqb c b) eqn:Ecb.
  - apply char_eqb_eq in Ecb as ->. by rewrite split_step_twice.
  - apply char_eqb_neq in Ecb.
    destruct (negb (char_eqb c "a") && negb (char_eqb b "a")) eqn:Em.
    + apply andb_true_iff in Em as [Eca Eba].
      apply negb_true_iff, char_eqb_neq in Eca, Eba.
      assert (is_bcd b = true) as Hbb
        by (destruct (is_gen_cases _ Hb) as [->|[->|[->| ->]]]; done).
      assert (is_bcd c = true) as Hcb
        by (destruct (is_gen_cases _ Hc) as [->|[->|[->| ->]]]; done).
      rewrite split_snoc, E. rewrite split_step_merge; done || congruence.
    + change (r' ++ [b; c]) with (r' ++ [b] ++ [c]).
      by rewrite app_assoc, !split_snoc, E.
Qed.

Lemma split_reduce w : over_gens w → split (reduce w) = split w.
Proof.
  induction w as [|c w IH] using rev_ind; intros Hw; [done|].
  apply Forall_app in Hw as [Hw Hc]. rewrite Forall_singleton in Hc.
  rewrite reduce_snoc, split_add by (done || by apply reduce_reduced).
  by rewrite IH, split_snoc.
Qed.

(** The flag of [split] is the parity of the number of [a]. *)
Lemma split_fold_flag w sw s0 s1 :
  (fold_left split_step w (sw, s0, s1)).1.1 = xorb sw (Nat.odd (count_a w)).
Proof.
  revert sw s0 s1. induction w as [|c w IH]; intros sw s0 s1.
  { simpl. by rewrite xorb_false_r. }
  cbn [fold_left]. unfold count_a. rewrite filter_cons.
  destruct (split_step_cases sw s0 s1 c)
    as [[-> E']|[[-> E']|[[-> E']|[[-> E']|[Hc E']]]]]; rewrite E'.
  - rewrite IH. rewrite decide_True by done. cbn [length].
    rewrite Nat.odd_succ, <- Nat.negb_odd. fold (count_a w).
    by destruct sw, (Nat.odd (count_a w)).
  - by rewrite IH, decide_False.
  - by rewrite IH, decide_False.
  - destruct sw; by rewrite IH, decide_False.
  - rewrite IH, decide_False; [done|]. by intros ->.
Qed.


(** *** [split_slow] *)

Lemma split_slow_snoc w c :
  split_slow (w ++ [c]) = split_slow_step (split_slow w) c.
Proof. unfold split_slow. by rewrite fold_left_app. Qed.

Lemma undash_snoc t x :
  undash (t ++ [x]) = if decide (x = "-") then undash t else undash t ++ [x].
Proof.
  unfold undash. rewrite filter_app, filter_cons, filter_nil.
  repeat case_decide; try done; by rewrite ?app_nil_r.
Qed.

Lemma count_gens_snoc w c :
  count_gens (w ++ [c]) = count_gens w + (if is_gen c then 1 else 0).
Proof.
  unfold count_gens. rewrite filter_app, length_app, filter_cons, filter_nil.
  destruct (is_gen c); case_decide; simpl; done || lia.
Qed.

Lemma split_slow_step_cases sw t0 t1 c :
  (c = "a" ∧ split_slow_step (sw, t0, t1) c = (negb sw, t0 ++ ["-"], t1 ++ ["-"])) ∨
  (c = "b" ∧ split_slow_step (sw, t0, t1) c =
     (sw, t0 ++ [if sw then "a" else "c"], t1 ++ [if sw then "c" else "a"])) ∨
  (c = "c" ∧ split_slow_step (sw, t0, t1) c =
     (sw, t0 ++ [if sw then "a" else "d"], t1 ++ [if sw then "d" else "a"])) ∨
  (c = "d" ∧ split_slow_step (sw, t0, t1) c =
     (if sw then (sw, t0 ++ ["-"], t1 ++ ["b"]) else (sw, t0 ++ ["b"], t1 ++ ["-"]))) ∨
  (is_gen c = false ∧ split_slow_step (sw, t0, t1) c = (sw, t0, t1)).
Proof.
  unfold split_slow_step, is_gen.
  destruct (char_eqb c "a") eqn:Ea; [apply char_eqb_eq in Ea as ->; by left|].
  destruct (char_eqb c "b") eqn:Eb;
    [apply char_eqb_eq in Eb as ->; by right; left|].
  destruct (char_eqb c "c") eqn:Ec;
    [apply char_eqb_eq in Ec as ->; by right; right; left|].
  destruct (char_eqb c "d") eqn:Ed;
    [apply char_eqb_eq in Ed as ->; right; right; right; left; by destruct sw|].
  by right; right; right; right.
Qed.

Lemma split_slow_spec w :
  split w = ((split_slow w).1.1,
             reduce (undash (split_slow w).1.2),
             reduce (undash (split_slow w).2)) ∧
  length (split_slow w).1.2 = count_gens w ∧
  length (split_slow w).2 = count_gens w.
Proof.
  induction w as [|c w IH] using rev_ind; [done|].
  rewrite split_snoc, split_slow_snoc, count_gens_snoc.
  destruct (split_slow w) as [[sw t0] t1]. destruct IH as (-> & L0 & L1).
  simpl in L0, L1. cbn [fst snd].
  destruct (split_step_cases sw (reduce (undash t0)) (reduce (undash t1)) c)
    as [[Hc E']|[[Hc E']|[[Hc E']|[[Hc E']|[Hc E']]]]]; rewrite E'; clear E';
    destruct (split_slow_step_cases sw t0 t1 c)
      as [[Ec E']|[[Ec E']|[[Ec E']|[[Ec E']|[Ec E']]]]];
    rewrite E'; clear E'; try (by subst); try (rewrite Hc); try subst c;
    destruct sw; cbn [fst snd is_gen char_eqb Ascii.eqb Bool.eqb orb];
    rewrite ?undash_snoc, ?length_app; cbn [length];
    rewrite ?decide_True, ?decide_False by done; rewrite ?reduce_snoc;
    (split; [done|lia]).
Qed.

(** *** The decider *)

Lemma count_a_odd_flag w : (split w).1.1 = Nat.odd (count_a w).
Proof. unfold split. by rewrite split_fold_flag. Qed.

Lemma empt_odd fuel w :
  Nat.odd (count_a w) = true → empt (S fuel) w = Some false.
Proof.
  intros Ho. rewrite empt_S. pose proof (count_a_odd_flag w) as Hf.
  destruct (split w) as [[sw s0] s1]. simpl in Hf. rewrite Ho in Hf. subst sw.
  repeat case_decide; subst; done.
Qed.

Lemma empt_b_false fuel r : empt fuel ["b"] = Some r → r = false.
Proof.
  intros E. pose proof (empt_mono fuel (fuel + 3) _ _ ltac:(lia) E) as E'.
  assert (empt 3 ["b"] = Some false) as E3 by done.
  pose proof (empt_mono 3 (fuel + 3) _ _ ltac:(lia) E3). congruence.
Qed.

Lemma empt_reduce fuel w r :
  over_gens w → empt fuel w = Some r → empt fuel (reduce w) = Some r.
Proof.
  intros Hw. destruct fuel as [|fuel]; [done|].
  rewrite !empt_S, split_reduce by done.
  destruct (decide (w = [])) as [->|Hn]; [done|].
  destruct (decide (w = ["d"])) as [->|Hd]; [done|].
  destruct (decide (reduce w = [])) as [Er|Hrn].
  { pose proof (split_reduce w Hw) as Es. rewrite Er in Es. rewrite <- Es.
    cbn. destruct fuel; [done|]. cbn. by intros [= <-]. }
  destruct (decide (reduce w = ["d"])) as [Er|Hrd]; [|done].
  pose proof (split_reduce w Hw) as Es. rewrite Er in Es. rewrite <- Es.
  cbn. destruct (empt fuel ["b"]) as [[]|] eqn:Eb; try done.
  by apply empt_b_false in Eb.
Qed.

(** *** [encode] *)

Lemma encode_S fuel s :
  encode (S fuel) s =
    if decide (s = []) then Some (str "I")
    else if decide (s = ["d"]) then Some (str "d")
    else
      let '(swapped, s0, s1) := split s in
      e0 ← encode fuel s0;
      e1 ← encode fuel s1;
      Some ((if swapped then str "a(" else str "(")
              ++ e0 ++ str "," ++ e1 ++ str ")").
Proof. reflexivity. Qed.

Lemma encode_mono fuel fuel' s e :
  fuel ≤ fuel' → encode fuel s = Some e → encode fuel' s = Some e.
Proof.
  revert fuel' s e. induction fuel as [|n IH]; intros [|m] s e Hle; try done; [lia|].
  rewrite !encode_S. repeat case_decide; try done.
  destruct (split s) as [[sw s0] s1].
  destruct (encode n s0) as [e0|] eqn:E0; [|done].
  destruct (encode n s1) as [e1|] eqn:E1; [|done].
  rewrite (IH m s0 e0), (IH m s1 e1) by (done || lia). done.
Qed.

Lemma encode_short x : length x ≤ 1 → is_Some (encode 4 x).
Proof.
  destruct x as [|c [|]]; simpl length; intros ?; [by eexists| |lia].
  destruct (split_step_cases false [] [] c)
    as [[-> E']|[[-> E']|[[-> E']|[[-> E']|[Hc E']]]]];
    try (eexists; reflexivity).
  rewrite encode_S. unfold split. cbn [fold_left]. rewrite E'.
  repeat case_decide; eexists; reflexivity.
Qed.

Lemma encode_terminates_aux n x : length x ≤ n → is_Some (encode (n + 3) x).
Proof.
  revert x. induction n as [|n IH]; intros x Hx.
  - destruct x; [by eexists|simpl in Hx; lia].
  - destruct (decide (length x ≤ 1)) as [Hs|Hl].
    { destruct (encode_short x Hs) as [r Hr]. exists r.
      eapply encode_mono; [|done]. lia. }
    replace (S n + 3) with (S (n + 3)) by lia. rewrite encode_S.
    destruct (split x) as [[sw s0] s1] eqn:E.
    repeat case_decide; try by eexists.
    assert (length s0 ≤ n ∧ length s1 ≤ n) as [L0 L1]
      by (destruct (split_halves _ _ _ _ E); lia).
    destruct (IH s0 L0) as [e0 ->]. destruct (IH s1 L1) as [e1 ->].
    by eexists.
Qed.

Lemma encode_empt fuel w e :
  encode fuel w = Some e → empt fuel w = Some (plain e).
Proof.
  revert w e. induction fuel as [|fuel IH]; intros w e; [done|].
  rewrite encode_S, empt_S.
  destruct (split w) as [[sw s0] s1].
  repeat case_decide; try by intros [= <-].
  destruct (encode fuel s0) as [e0|] eqn:E0; [|done].
  destruct (encode fuel s1) as [e1|] eqn:E1; [|done].
  intros [= <-]. rewrite (IH _ _ E0), (IH _ _ E1). unfold plain.
  destruct sw; cbn [app forallb]; rewrite ?forallb_app;
    cbn [forallb char_eqb Ascii.eqb Bool.eqb negb andb];
    rewrite ?forallb_app; cbn [forallb char_eqb Ascii.eqb Bool.eqb negb andb];
    [done|].
  rewrite ?andb_true_r. fold (plain e0). fold (plain e1).
  by destruct (plain e0), (plain e1).
Qed.

Lemma reduce_reverse_cancels_aux w :
  over_gens w → reduce (w ++ reverse w) = [].
Proof.
  intros Hw. unfold reduce. rewrite fold_left_app.
  by apply fold_add_reverse; [apply reduced_nil|].
Qed.

(** *** Properties of the word layer *)

(** X1. The fixed points of [reduce] are exactly the words in which no
    two adjacent symbols are equal and no two adjacent symbols are both
    among [b], [c], [d]: on such a word every call of [add] takes its
    [push_back] branch. *)
Theorem reduce_fixed_points (w : word) :
  over_gens w →
  reduce w = w ↔ no_adjacent_equal w = true ∧ no_adjacent_bcd w = true.
Proof.
  intros Hw. split.
  - intros E. destruct (reduce_reduced w Hw) as (_ & H1 & H2).
    by rewrite E in H1, H2.
  - intros [H1 H2]. unfold reduce. by rewrite fold_add_fixed.
Qed.

Lemma reduce_fixed_points_witness :
  reduce (str "abacad") = str "abacad" ↔
  no_adjacent_equal (str "abacad") = true ∧
  no_adjacent_bcd (str "abacad") = true.
Proof. apply (reduce_fixed_points (str "abacad")). repeat constructor. Defined.

(** X2. [reduce] is compatible with concatenation: reducing [u ++ v] gives
    the same word as reducing the concatenation of the two reduced
    words. *)
Theorem reduce_app (u v : word) :
  over_gens u → over_gens v →
  reduce (u ++ v) = reduce (reduce u ++ reduce v).
Proof.
  intros Hu Hv. pose proof (reduce_reduced u Hu) as Ru.
  transitivity (fold_left add v (reduce u)).
  { unfold reduce. by rewrite fold_left_app. }
  symmetry.
  transitivity (fold_left add (reduce v) (fold_left add (reduce u) [])).
  { unfold reduce at 1. by rewrite fold_left_app. }
  rewrite (fold_add_fixed (reduce u) []) by done.
  by rewrite fold_add_reduce.
Qed.

Lemma reduce_app_witness :
  reduce (str "abb" ++ str "bcd") = reduce (reduce (str "abb") ++ reduce (str "bcd")).
Proof. apply (reduce_app (str "abb") (str "bcd")); repeat constructor. Defined.

(** X3. Every generator is its own inverse under [add], so a word
    followed by its reversal reduces to the empty word. *)
Theorem reduce_reverse_cancels (w : word) :
  over_gens w → reduce (w ++ reverse w) = [].
Proof.
  apply reduce_reverse_cancels_aux.
Qed.

Lemma reduce_reverse_cancels_witness :
  reduce (str "abcad" ++ reverse (str "abcad")) = [].
Proof. apply (reduce_reverse_cancels (str "abcad")). repeat constructor. Defined.

(** X4. For every input string, the flag returned by [split] is the
    parity of the number of [a]'s, both halves are reduced words, and
    neither half is longer than the number of symbols other than [a]. *)
Theorem split_flag_and_halves (w : word) :
  (split w).1.1 = Nat.odd (count_a w) ∧
  reduced (split w).1.2 ∧ reduced (split w).2 ∧
  length (split w).1.2 ≤ nona w ∧ length (split w).2 ≤ nona w.
Proof.
  split; [apply count_a_odd_flag|].
  destruct (split w) as [[sw s0] s1] eqn:E. cbn [fst snd].
  destruct (split_reduced _ _ _ _ E) as [R0 R1].
  apply split_fold_length in E. simpl in E. tauto.
Qed.

(** X5. [split] does not see the difference between a word and its
    reduced form: flag and halves are the same. *)
Theorem split_of_reduce (w : word) :
  over_gens w → split (reduce w) = split w.
Proof. apply split_reduce. Qed.

Lemma split_of_reduce_witness :
  split (reduce (str "abbcdda")) = split (str "abbcdda").
Proof. apply (split_of_reduce (str "abbcdda")). repeat constructor. Defined.

(** X6. [split_slow] returns the flag of [split]; its halves, with the
    padding symbol removed and then reduced, are the halves of [split];
    and both padded halves have one symbol per generator symbol of the
    input. *)
Theorem split_slow_agrees (w : word) :
  split w = ((split_slow w).1.1,
             reduce (undash (split_slow w).1.2),
             reduce (undash (split_slow w).2)) ∧
  length (split_slow w).1.2 = count_gens w ∧
  length (split_slow w).2 = count_gens w.
Proof. apply split_slow_spec. Qed.

(** X7. A string with an odd number of [a]'s is rejected by [empt] at
    the top level, without recursion. *)
Theorem empt_odd_a_false (fuel : nat) (w : word) :
  Nat.odd (count_a w) = true → empt (S fuel) w = Some false.
Proof. apply empt_odd. Qed.

Lemma empt_odd_a_false_witness : empt 1 (str "abacbab") = Some false.
Proof. apply (empt_odd_a_false 0 (str "abacbab")). reflexivity. Defined.

(** X8. [empt] gives the same answer on the reduced form of a word as
    on the word. *)
Theorem empt_of_reduce (fuel : nat) (w : word) (r : bool) :
  over_gens w → empt fuel w = Some r → empt fuel (reduce w) = Some r.
Proof. apply empt_reduce. Qed.

Lemma empt_of_reduce_witness :
  empt 6 (reduce (str "abba")) = Some true.
Proof.
  apply (empt_of_reduce 6 (str "abba") true); [repeat constructor|reflexivity].
Defined.

(** X9. [empt] accepts every word followed by its reversal. *)
Theorem empt_reverse_trivial (w : word) :
  over_gens w →
  empt (length (w ++ reverse w) + 2) (w ++ reverse w) = Some true.
Proof.
  intros Hw.
  destruct (empt_terminates_aux (length (w ++ reverse w)) (w ++ reverse w))
    as [r Hr]; [done|].
  assert (over_gens (w ++ reverse w)) as Hww.
  { apply Forall_app. split; [done|]. by apply Forall_reverse. }
  pose proof (empt_reduce _ _ _ Hww Hr) as E.
  rewrite reduce_reverse_cancels_aux in E by done.
  rewrite Nat.add_comm in E. simpl in E. by rewrite Hr, <- E.
Qed.

Lemma empt_reverse_trivial_witness :
  empt (length (str "abcad" ++ reverse (str "abcad")) + 2)
       (str "abcad" ++ reverse (str "abcad")) = Some true.
Proof. apply (empt_reverse_trivial (str "abcad")). repeat constructor. Defined.

(** X10. [encode] returns on every string, within [length w + 3] nested
    activations; and the string it returns tells what [empt] answers:
    [empt] accepts exactly when the encoding contains neither [a] nor
    [d]. *)
Theorem encode_total_and_plain (w : word) :
  is_Some (encode (length w + 3) w) ∧
  ∀ fuel e, encode fuel w = Some e → empt fuel w = Some (plain e).
Proof.
  split; [by apply encode_terminates_aux|]. intros fuel e. apply encode_empt.
Qed.

End WordMore.

(** ** Words and the tree *)

Module WordAction.
Import Word Store WordFacts StoreFacts Action WordMore.

Lemma word_act_snoc w c v : word_act (w ++ [c]) v = gen_act c (word_act w v).
Proof. unfold word_act. by rewrite fold_left_app. Qed.

Lemma gen_act_a x u : gen_act "a" (x :: u) = negb x :: u.
Proof.
  change (gen_act "a" (x :: u)) with (act init grig_a (x :: u)).
  rewrite (act_cons init grig_a (obj_a init)) by done.
  change (swapped (obj_a init)) with true.
  replace (if x then a1 (obj_a init) else a0 (obj_a init)) with grig_I
    by (by destruct x).
  by rewrite act_init_I, xorb_true_r.
Qed.

Lemma gen_act_b x u :
  gen_act "b" (x :: u) = x :: gen_act (if x then "c" else "a") u.
Proof.
  change (gen_act "b" (x :: u)) with (act init grig_b (x :: u)).
  rewrite (act_cons init grig_b (obj_b init)) by done.
  change (swapped (obj_b init)) with false. rewrite xorb_false_r.
  by destruct x.
Qed.

Lemma gen_act_c x u :
  gen_act "c" (x :: u) = x :: gen_act (if x then "d" else "a") u.
Proof.
  change (gen_act "c" (x :: u)) with (act init grig_c (x :: u)).
  rewrite (act_cons init grig_c (obj_c init)) by done.
  change (swapped (obj_c init)) with false. rewrite xorb_false_r.
  by destruct x.
Qed.

Lemma gen_act_d x u :
  gen_act "d" (x :: u) = x :: (if x then gen_act "b" u else u).
Proof.
  change (gen_act "d" (x :: u)) with (act init grig_d (x :: u)).
  rewrite (act_cons init grig_d (obj_d init)) by done.
  change (swapped (obj_d init)) with false. rewrite xorb_false_r.
  destruct x; [done|]. cbn [a0 obj_d init new_rep]. by rewrite act_init_I.
Qed.

Lemma gen_act_other c v : is_gen c = false → gen_act c v = v.
Proof.
  unfold is_gen, gen_act. intros H.
  repeat (apply orb_false_iff in H as [H ?]). by rewrite H, H0, H1, H2.
Qed.

Lemma gen_act_invol c v : gen_act c (gen_act c v) = v.
Proof.
  destruct (is_gen c) eqn:Hc; [|by rewrite !gen_act_other].
  pose proof (act_init_klein v) as (?&?&?&_).
  destruct (is_gen_cases _ Hc) as [->|[->|[->| ->]]]; unfold gen_act; simpl;
    done || apply act_init_a_a.
Qed.

Lemma gen_act_merge x y v :
  is_bcd x = true → is_bcd y = true → x ≠ y →
  gen_act y (gen_act x v) =
    gen_act (char_xor (char_xor (char_xor (char_xor x y) "d") "b") "c") v.
Proof.
  intros Hx Hy Hne. pose proof (act_init_klein v) as (_&_&_&?&?&?&?&?&?).
  destruct (is_bcd_cases _ Hx) as [->|[->| ->]];
    destruct (is_bcd_cases _ Hy) as [->|[->| ->]]; try done;
    unfold gen_act; by simpl.
Qed.

(** [add] appends a symbol to a word, as far as the action goes. *)
Lemma word_act_add s c v :
  over_gens s → is_gen c = true →
  word_act (add s c) v = gen_act c (word_act s v).
Proof.
  intros Hs Hc.
  destruct (snoc_cases s) as [->|(s' & b & ->)]; [done|].
  apply Forall_app in Hs as [_ Hb]. rewrite Forall_singleton in Hb.
  rewrite add_snoc, (word_act_snoc s' b).
  destruct (char_eqb c b) eqn:Ecb.
  { apply char_eqb_eq in Ecb as ->. by rewrite gen_act_invol. }
  apply char_eqb_neq in Ecb.
  destruct (negb (char_eqb c "a") && negb (char_eqb b "a")) eqn:Em.
  - apply andb_true_iff in Em as [Eca Eba].
    apply negb_true_iff, char_eqb_neq in Eca, Eba.
    rewrite word_act_snoc. symmetry. apply gen_act_merge; [| |done].
    + destruct (is_gen_cases _ Hb) as [->|[->|[->| ->]]]; done.
    + destruct (is_gen_cases _ Hc) as [->|[->|[->| ->]]]; done.
  - change (s' ++ [b; c]) with (s' ++ [b] ++ [c]).
    by rewrite app_assoc, !word_act_snoc.
Qed.

(** What [split] computes: the flag tells whether the word exchanges the
    two subtrees below the root, and the halves are the words acting
    inside them ([s0] below the right child, [s1] below the left one). *)
Lemma word_act_split w b t :
  word_act w (b :: t) =
    xorb b (split w).1.1 ::
    word_act (if b then (split w).1.2 else (split w).2) t.
Proof.
  induction w as [|c w IH] using rev_ind.
  { simpl. by rewrite xorb_false_r; destruct b. }
  rewrite word_act_snoc, split_snoc, IH.
  destruct (split w) as [[sw s0] s1] eqn:E. cbn [fst snd].
  destruct (split_reduced _ _ _ _ E) as [[G0 _] [G1 _]].
  destruct (split_step_cases sw s0 s1 c)
    as [[-> E']|[[-> E']|[[-> E']|[[-> E']|[Hc E']]]]]; rewrite E'; clear E'.
  - rewrite gen_act_a. cbn [fst snd]. by destruct b, sw.
  - rewrite gen_act_b. cbn [fst snd].
    destruct b, sw; cbn [xorb]; by rewrite word_act_add.
  - rewrite gen_act_c. cbn [fst snd].
    destruct b, sw; cbn [xorb]; by rewrite word_act_add.
  - rewrite gen_act_d.
    destruct b, sw; cbn [xorb fst snd]; by rewrite ?word_act_add.
  - by rewrite gen_act_other.
Qed.

Lemma gen_act_nil c : gen_act c [] = [].
Proof. unfold gen_act. by repeat case_match. Qed.

Lemma word_act_nil w : word_act w [] = [].
Proof.
  induction w as [|c w IH] using rev_ind; [done|].
  by rewrite word_act_snoc, IH, gen_act_nil.
Qed.

Lemma word_act_d_moves :
  word_act ["d"] [true; false; false] ≠ [true; false; false].
Proof. done. Qed.

(** The answer of [empt] tells whether the word acts trivially. *)
Lemma empt_word_act fuel w r :
  empt fuel w = Some r → (r = true ↔ ∀ v, word_act w v = v).
Proof.
  revert w r. induction fuel as [|fuel IH]; intros w r; [done|].
  rewrite empt_S.
  pose proof (word_act_split w) as Hsp.
  destruct (split w) as [[sw s0] s1]. cbn [fst snd] in Hsp.
  case_decide as Hn.
  { subst w. intros [= <-]. by split. }
  case_decide as Hd.
  { subst w. intros [= <-]. split; [done|].
    intros H. by destruct (word_act_d_moves (H _)). }
  destruct sw.
  { intros [= <-]. split; [done|]. intros H.
    specialize (H [false]). rewrite Hsp in H. done. }
  assert (∀ b t, word_act w (b :: t) = b :: word_act (if b then s0 else s1) t)
    as Hsp' by (intros b t; by rewrite Hsp, xorb_false_r).
  destruct (empt fuel s0) as [[]|] eqn:E0; [| |done].
  - intros E1. rewrite (IH _ _ E1).
    pose proof (proj1 (IH _ _ E0) eq_refl) as H0.
    split.
    + intros H1 [|[] t]; [apply word_act_nil|..]; rewrite Hsp'; by f_equal.
    + intros H t. specialize (H (false :: t)). rewrite Hsp' in H. by simplify_eq.
  - intros [= <-]. split; [done|]. intros H.
    assert (∀ t, word_act s0 t = t) as H0.
    { intros t. specialize (H (true :: t)). rewrite Hsp' in H. by simplify_eq. }
    by apply (IH _ _ E0) in H0.
Qed.

(** X11. [empt] decides the word problem: when it returns, its answer is
    [true] exactly when the word fixes every vertex of the binary tree,
    the symbols [a], [b], [c], [d] acting as the static objects of these
    names do. *)
Theorem empt_decides_trivial (fuel : nat) (w : word) (r : bool) :
  empt fuel w = Some r → (r = true ↔ ∀ v, word_act w v = v).
Proof. apply empt_word_act. Qed.

Lemma empt_decides_trivial_witness :
  true = true ↔ ∀ v, word_act (str "adadadad") v = v.
Proof. apply (empt_decides_trivial 10 (str "adadadad") true). reflexivity. Defined.

End WordAction.

(** ** Further properties of the multiplier *)

Module StoreMore.
Import Word Store WordFacts StoreFacts Action.

Lemma act_grows st st' p w :
  wf st → grows st st' → valid st p → act st' p w = act st p w.
Proof.
  intros (Hs & Hc & _) Hg Vp. by apply act_tie_le; [| |apply grows_tie_le|].
Qed.

(** [mul] on a well-formed store: it returns, keeps the store well
    formed, only appends nodes, and its result acts as [x] after [y]. *)
Lemma mul_spec st x y :
  wf st → valid st x → valid st y →
  ∃ p st', mul st x y = Some (p, st') ∧ wf st' ∧ valid st' p ∧ grows st st' ∧
           ∀ w, act st' p w = act st x (act st y w).
Proof.
  intros Hwf Vx Vy.
  destruct (mul_total st x y) as (p & st' & E); [done..|].
  destruct (mul_wf _ _ _ _ _ E) as (Hwf' & Vp & G); [done..|].
  exists p, st'. repeat (split; [done|]).
  destruct Hwf as (Hs & Hc & _). by apply (act_mul_fuel _ _ _ _ _ _ E).
Qed.

Lemma is_static_valid st g : is_static g → valid st g.
Proof. by destruct g. Qed.

Lemma act_static_invol st g w :
  statics_ok st → is_static g → act st g (act st g w) = w.
Proof.
  intros Hs Hg. rewrite !(act_static st g) by done.
  pose proof (act_init_klein w) as (?&?&?&_).
  destruct g; try done; [by rewrite !act_init_I|apply act_init_a_a].
Qed.

(** Multiplying twice by the same static object leads back. *)
Lemma mul_static_cancel st x g :
  wf st → valid st x → is_static g →
  ∃ xg st1 st2,
    mul st x g = Some (xg, st1) ∧ mul st1 xg g = Some (x, st2) ∧
    wf st2 ∧ grows st st1 ∧ grows st1 st2.
Proof.
  intros Hwf Vx Hg.
  destruct (mul_spec st x g) as (xg & st1 & E1 & Hwf1 & Vxg & G1 & A1);
    [done|done|by apply is_static_valid|].
  destruct (mul_spec st1 xg g) as (p & st2 & E2 & Hwf2 & Vp & G2 & A2);
    [done|done|by apply is_static_valid|].
  assert (p = x) as ->.
  { apply (act_injective st2); [done|done|eauto using grows_valid|].
    intros w. rewrite A2, A1.
    rewrite (act_grows st st1 g) by (done || by apply is_static_valid).
    rewrite act_static_invol by (by destruct Hwf || done).
    symmetry. apply act_grows; eauto using grows_trans. }
  by exists xg, st1, st2.
Qed.

Lemma addr0_inj : Inj (=) (=) addr0.
Proof. intros [] []; simpl; intros; try done; try lia. f_equal. lia. Qed.

(** X12. Whatever the (pairwise distinct) addresses of the objects are,
    [operator <] on keys is irreflexive and transitive, and two keys are
    equivalent for it (neither is less than the other) exactly when
    [operator ==] holds: [all_reps] has one node per triple, and [count]
    and [find] in [lookup] agree with [==]. *)
Theorem rep_lt_strict_order (addr : prep → Z) :
  Inj (=) (=) addr →
  (∀ x, rep_ltb addr x x = false) ∧
  (∀ x y z, rep_ltb addr x y = true → rep_ltb addr y z = true →
            rep_ltb addr x z = true) ∧
  (∀ x y, rep_equiv addr x y = rep_eqb x y).
Proof.
  intros Hinj. split; [|split].
  - intros x. unfold rep_ltb. rewrite !bool_decide_eq_true_2 by done.
    apply bool_decide_eq_false. lia.
  - intros [sx x0 x1 ? ? ?] [sy y0 y1 ? ? ?] [sz z0 z1 ? ? ?].
    unfold rep_ltb. simpl.
    destruct sx, sy, sz; simpl; try done;
      repeat case_bool_decide; try done; try lia; try congruence.
  - intros x y. by apply rep_equiv_eqb.
Qed.

Lemma rep_lt_strict_order_witness :
  (∀ x, rep_ltb addr0 x x = false) ∧
  (∀ x y z, rep_ltb addr0 x y = true → rep_ltb addr0 y z = true →
            rep_ltb addr0 x z = true) ∧
  (∀ x y, rep_equiv addr0 x y = rep_eqb x y).
Proof. apply (rep_lt_strict_order addr0). exact addr0_inj. Defined.

(** X13. On a well-formed store [mul x y] returns the one pointer whose
    action on the binary tree is that of [y] followed by that of [x]: it
    acts so, and every pointer of the resulting store that acts so is
    the pointer returned. *)
Theorem mul_is_composition (st : store) (x y : prep) :
  wf st → valid st x → valid st y →
  ∃ p st',
    mul st x y = Some (p, st') ∧
    (∀ w, act st' p w = act st x (act st y w)) ∧
    (∀ q, valid st' q → (∀ w, act st' q w = act st x (act st y w)) → q = p).
Proof.
  intros Hwf Vx Vy.
  destruct (mul_spec st x y) as (p & st' & E & Hwf' & Vp & G & A); [done..|].
  exists p, st'. split; [done|]. split; [done|].
  intros q Vq Hq. apply (act_injective st'); [done..|].
  intros w. by rewrite A, Hq.
Qed.

Lemma mul_is_composition_witness :
  ∃ p st',
    mul init grig_a grig_b = Some (p, st') ∧
    (∀ w, act st' p w = act init grig_a (act init grig_b w)) ∧
    (∀ q, valid st' q →
          (∀ w, act st' q w = act init grig_a (act init grig_b w)) → q = p).
Proof. apply (mul_is_composition init grig_a grig_b); [apply wf_init|done..]. Defined.

(** X14. [mul] keeps the store well formed and only appends to it: the
    triples of the static objects are unchanged, the children of every
    map node were allocated before the node, no two objects carry the
    same triple, and the objects that existed are untouched; the
    initial store is well formed. *)
Theorem mul_keeps_wf (st : store) (x y p : prep) (st' : store) :
  wf st → valid st x → valid st y → mul st x y = Some (p, st') →
  wf init ∧ wf st' ∧ valid st' p ∧ grows st st'.
Proof.
  intros Hwf Vx Vy E. split; [apply wf_init|]. by eapply mul_wf.
Qed.

Lemma mul_keeps_wf_witness :
  wf init ∧ wf (emplace init (new_rep true grig_a grig_c "b")) ∧
  valid (emplace init (new_rep true grig_a grig_c "b")) (node 0) ∧
  grows init (emplace init (new_rep true grig_a grig_c "b")).
Proof.
  apply (mul_keeps_wf init grig_a grig_b (node 0)); [apply wf_init|done..].
Defined.

(** X15. A product that has been computed is found again: the same call
    in the store it left returns the same pointer and inserts nothing. *)
Theorem mul_recompute (st : store) (x y p : prep) (st1 : store) :
  wf st → valid st x → valid st y →
  mul st x y = Some (p, st1) → mul st1 x y = Some (p, st1).
Proof.
  intros Hwf Vx Vy E.
  destruct (mul_wf _ _ _ _ _ E) as ((_ & _ & Hh) & _ & _); [done..|].
  eapply mul_stable; [done|apply tie_le_refl|done].
Qed.

Lemma mul_recompute_witness :
  mul (emplace init (new_rep true grig_a grig_c "b")) grig_a grig_b =
    Some (node 0, emplace init (new_rep true grig_a grig_c "b")).
Proof.
  apply (mul_recompute init grig_a grig_b (node 0)); [apply wf_init|done..].
Defined.

(** X16. [mul] is associative on all pointers of a well-formed store,
    not only on the representatives the enumerator discovers. *)
Theorem mul_associative (st : store) (x y z : prep) :
  wf st → valid st x → valid st y → valid st z →
  ∃ xy st1 l st2 yz st3 r st4,
    mul st x y = Some (xy, st1) ∧ mul st1 xy z = Some (l, st2) ∧
    mul st2 y z = Some (yz, st3) ∧ mul st3 x yz = Some (r, st4) ∧
    l = r.
Proof. apply mul_assoc. Qed.

Lemma mul_associative_witness :
  ∃ xy st1 l st2 yz st3 r st4,
    mul init grig_a grig_b = Some (xy, st1) ∧ mul st1 xy grig_a = Some (l, st2) ∧
    mul st2 grig_b grig_a = Some (yz, st3) ∧ mul st3 grig_a yz = Some (r, st4) ∧
    l = r.
Proof. apply (mul_associative init grig_a grig_b grig_a); [apply wf_init|done..]. Defined.

(** X17. Each of the five static objects is its own inverse: multiplying
    any pointer twice by it on the right gives the pointer back. *)
Theorem mul_generator_cancels (st : store) (x g : prep) :
  wf st → valid st x → is_static g →
  ∃ xg st1 st2,
    mul st x g = Some (xg, st1) ∧ mul st1 xg g = Some (x, st2).
Proof.
  intros Hwf Vx Hg.
  destruct (mul_static_cancel st x g Hwf Vx Hg) as (xg & st1 & st2 & ? & ? & _).
  eauto.
Qed.

Lemma mul_generator_cancels_witness :
  ∃ xg st1 st2,
    mul init grig_b grig_a = Some (xg, st1) ∧ mul st1 xg grig_a = Some (grig_b, st2).
Proof. apply (mul_generator_cancels init grig_b grig_a); [apply wf_init|done..]. Defined.

End StoreMore.

(** ** Further properties of the enumerator *)

Module EnumMore.
Import Word Store Enumerator WordFacts StoreFacts Action EnumFacts.
Import WordAction StoreMore.

Lemma lab_grows ac ca i gs st st' all :
  bfs_inv ac ca i gs st all → lab_inv ac ca st all →
  grows st st' → hashcons st' → lab_inv ac ca st' all.
Proof.
  intros Inv [Hnd Hpar] G Hh. split; [done|].
  intros k pk rk Hk0 Hk Dk.
  assert (deref st pk = Some rk) as Dk0.
  { eapply grows_deref_back; [done| |done].
    eapply inv_valid; [done|]. by eapply list_elem_of_lookup_2. }
  destruct (Hpar _ _ _ Hk0 Hk Dk0) as (j & pj & rj & g & Hj & Hlj & Dj & Hl & Hr & Hlen).
  exists j, pj, rj, g. repeat (split; [done|]).
  split; [by eapply grows_deref|]. split; [done|]. split; [|done].
  eapply reaches_stable; [done|by apply grows_tie_le|done].
Qed.

Lemma lab_visit ac ca i gs st all x rx g p l st' all' :
  bfs_inv ac ca i gs st all → lab_inv ac ca st all →
  all !! i = Some x → deref st x = Some rx →
  label_gen ac ca l = Some g → reaches st x g p →
  visit st all p l (len rx + 1) = Some (st', all') →
  lab_inv ac ca st' all' ∧ length all' ≤ S (length all).
Proof.
  intros Inv [Hnd Hpar] Hi Dx Hl Hr Hv.
  destruct (visit_cases _ _ _ _ _ _ _ Hv)
    as (rp & Dp & [(Ev & -> & ->)|(Ev & -> & Dp' & Hne & Hsame)]).
  { split; [done|lia]. }
  rewrite length_app. simpl. split; [|lia].
  assert (p ∉ all) as Hnin.
  { intros Hin. apply (inv_visited _ _ _ _ _ _ Inv _ _ Dp) in Hin. congruence. }
  pose proof (same_ties_wf _ _ Hsame (inv_wf _ _ _ _ _ _ Inv)) as (_ & _ & Hh').
  pose proof (same_ties_tie_le _ _ Hsame) as Hle.
  assert (x ≠ p) as Hxp.
  { intros ->. apply Hnin. by eapply list_elem_of_lookup_2. }
  split.
  - apply NoDup_app. split; [done|]. split; [|apply NoDup_singleton].
    intros y Hy ->%list_elem_of_singleton. done.
  - intros k pk rk Hk0 Hk Dk.
    apply lookup_app_Some in Hk as [Hk|[Hge Hk]].
    + assert (pk ≠ p) as Hpk.
      { intros ->. apply Hnin. by eapply list_elem_of_lookup_2. }
      rewrite (Hne _ Hpk) in Dk.
      destruct (Hpar _ _ _ Hk0 Hk Dk)
        as (j & pj & rj & g' & Hj & Hlj & Dj & Hl' & Hr' & Hlen).
      assert (pj ≠ p) as Hpj.
      { intros ->. apply Hnin. by eapply list_elem_of_lookup_2. }
      exists j, pj, rj, g'. split; [done|].
      split; [by apply lookup_app_l_Some|].
      split; [by rewrite (Hne _ Hpj)|]. split; [done|]. split; [|done].
      by eapply reaches_stable.
    + apply list_lookup_singleton_Some in Hk as [Hk0' <-].
      rewrite Dp' in Dk. injection Dk as <-.
      exists i, x, rx, g.
      split; [apply lookup_lt_Some in Hi; lia|].
      split; [by apply lookup_app_l_Some|].
      split; [by rewrite (Hne _ Hxp)|]. split; [done|]. split; [|done].
      by eapply reaches_stable.
Qed.

Lemma lab_step ac ca i gs st all x g l p st1 rx st2 all2 :
  bfs_inv ac ca i gs st all → lab_inv ac ca st all →
  all !! i = Some x → g ∈ [grig_b; ac; ca] → label_gen ac ca l = Some g →
  mul st x g = Some (p, st1) → deref st1 x = Some rx →
  visit st1 all p l (len rx + 1) = Some (st2, all2) →
  lab_inv ac ca st2 all2 ∧ length all2 ≤ S (length all).
Proof.
  intros Inv Lab Hi Hg Hl E Dx Hv.
  assert (valid st x) as Vx by (eapply Inv, list_elem_of_lookup_2, Hi).
  pose proof (inv_gen_valid _ _ _ _ _ _ _ Inv Hg) as Vg.
  destruct (inv_mul _ _ _ _ _ _ _ _ _ _ Inv Vx Vg E) as (Inv1 & Vp & G).
  pose proof (inv_wf _ _ _ _ _ _ Inv1) as Hwf1.
  eapply lab_visit; [exact Inv1| |exact Hi|exact Dx|exact Hl| |exact Hv].
  - eapply lab_grows; [exact Inv|done|done|apply Hwf1].
  - eapply mul_reaches; [apply Inv|done..].
Qed.

Lemma label_gen_b ac ca : label_gen ac ca "b" = Some grig_b.
Proof. reflexivity. Qed.
Lemma label_gen_A ac ca : label_gen ac ca "A" = Some ac.
Proof. reflexivity. Qed.
Lemma label_gen_C ac ca : label_gen ac ca "C" = Some ca.
Proof. reflexivity. Qed.

Lemma lab_body ac ca i st all st' all' :
  bfs_inv ac ca i [] st all → lab_inv ac ca st all →
  bfs_body ac ca i (st, all) = Some (st', all') →
  lab_inv ac ca st' all' ∧ length all' ≤ length all + 3 ∧ i < length all'.
Proof.
  intros Inv Lab. unfold bfs_body.
  assert (grig_b ∈ [grig_b; ac; ca]) as Gb by (apply elem_of_cons; by left).
  assert (ac ∈ [grig_b; ac; ca]) as Gac
    by (apply elem_of_cons; right; apply elem_of_cons; by left).
  assert (ca ∈ [grig_b; ac; ca]) as Gca
    by (do 2 (apply elem_of_cons; right); apply elem_of_cons; by left).
  destruct (all !! i) as [x|] eqn:Hi; [|done]. simpl.
  destruct (mul st x grig_b) as [[p1 st1]|] eqn:E1; [|done]. simpl.
  destruct (deref st1 x) as [rx1|] eqn:D1; [|done]. simpl.
  destruct (visit st1 all p1 _ _) as [[st2 all2]|] eqn:V1; [|done]. simpl.
  destruct (inv_step _ _ _ _ _ _ _ _ _ _ _ _ _ _ Inv Hi Gb E1 D1 V1)
    as [Inv2 Hi2].
  destruct (lab_step _ _ _ _ _ _ _ _ _ _ _ _ _ _ Inv Lab Hi Gb
              (label_gen_b ac ca) E1 D1 V1) as [Lab2 L2].
  destruct (mul st2 x ac) as [[p2 st3]|] eqn:E2; [|done]. simpl.
  destruct (deref st3 x) as [rx2|] eqn:D2; [|done]. simpl.
  destruct (visit st3 all2 p2 _ _) as [[st4 all4]|] eqn:V2; [|done]. simpl.
  destruct (inv_step _ _ _ _ _ _ _ _ _ _ _ _ _ _ Inv2 Hi2 Gac E2 D2 V2)
    as [Inv4 Hi4].
  destruct (lab_step _ _ _ _ _ _ _ _ _ _ _ _ _ _ Inv2 Lab2 Hi2 Gac
              (label_gen_A ac ca) E2 D2 V2) as [Lab4 L4].
  destruct (mul st4 x ca) as [[p3 st5]|] eqn:E3; [|done]. simpl.
  destruct (deref st5 x) as [rx3|] eqn:D3; [|done]. simpl.
  intros V3.
  destruct (lab_step _ _ _ _ _ _ _ _ _ _ _ _ _ _ Inv4 Lab4 Hi4 Gca
              (label_gen_C ac ca) E3 D3 V3) as [Lab6 L6].
  split; [done|]. split; [lia|].
  eapply lookup_lt_Some, visit_prefix; [exact V3|exact Hi4].
Qed.

Lemma lab_loop ac ca n i st all st' all' :
  bfs_inv ac ca i [] st all → lab_inv ac ca st all →
  bfs_loop ac ca n i (st, all) = Some (st', all') →
  lab_inv ac ca st' all' ∧ length all' ≤ length all + 3 * n ∧
  (0 < n → i + n ≤ length all').
Proof.
  revert i st all. induction n as [|n IH]; intros i st all Inv Lab; cbn [bfs_loop].
  - intros [= <- <-]. split; [done|]. split; lia.
  - destruct (bfs_body ac ca i (st, all)) as [[st1 all1]|] eqn:Eb; [|done].
    cbn [mbind option_bind]. intros El.
    destruct (lab_body _ _ _ _ _ _ _ Inv Lab Eb) as (Lab1 & L1 & Hi1).
    pose proof (inv_body _ _ _ _ _ _ _ Inv Eb) as Inv1.
    destruct (IH _ _ _ Inv1 Lab1 El) as (Lab' & L' & Hn).
    split; [done|]. split; [lia|]. intros _.
    destruct n as [|n]; [|lia].
    cbn [bfs_loop] in El. injection El as <- <-. lia.
Qed.

Lemma lab_init ac ca st st' all :
  visit st [] grig_I zero 0 = Some (st', all) →
  lab_inv ac ca st' all ∧ length all ≤ 1.
Proof.
  intros (r & _ & [(_ & _ & ->)|(_ & -> & _)])%visit_cases.
  - split; [|simpl; lia]. split; [apply NoDup_nil_2|]. by intros k pk rk _ Hk.
  - split; [|simpl; lia]. split; [apply NoDup_singleton|].
    intros k pk rk Hk0 Hk. apply list_lookup_singleton_Some in Hk as [? _]. lia.
Qed.

Lemma deform_loop_grows fuel st x2 t t' st' :
  deform_loop fuel st x2 t = Some (t', st') → grows st st'.
Proof.
  revert st x2 t. induction fuel as [|fuel IH]; intros st x2 t; [done|].
  cbn [deform_loop]. case_decide; [intros [= _ <-]; apply grows_refl|].
  destruct (deref st x2) as [r|]; [|done]. cbn [mbind option_bind].
  assert (∀ st0 x g (k : prep * store → option (list ascii * store)),
            (∀ st2 p2, k (p2, st2) = Some (t', st') → grows st2 st') →
            mul st0 x g ≫= k = Some (t', st') → grows st0 st') as Hmul.
  { intros st0 x g k Hk.
    destruct (mul st0 x g) as [[p2 st2]|] eqn:E; [|done]. cbn [mbind option_bind].
    intros Hk'. eapply grows_trans; [by eapply mul_fuel_grows|].
    exact (Hk _ _ Hk'). }
  repeat case_match.
  - eapply Hmul. intros st2 p2. by apply IH.
  - eapply Hmul. intros st2 p2. by apply IH.
  - eapply Hmul. intros st2 p2. by apply IH.
  - eapply Hmul. intros st2 p2. by apply IH.
  - eapply Hmul. intros st2 p2. eapply Hmul. intros st3 p3. by apply IH.
  - eapply Hmul. intros st2 p2. eapply Hmul. intros st3 p3. by apply IH.
  - by apply IH.
Qed.

(** The two invariants, and the size of [all], at the end of [prepare]. *)
Lemma prepare_lab fuel grig_limit st0 st all ac ca :
  wf st0 → (∀ q r, deref st0 q = Some r → visited r = false) →
  prepare fuel grig_limit st0 = Some (st, all, ac, ca) →
  lab_inv ac ca st all ∧
  length all ≤ 3 * Z.to_nat grig_limit + 1 ∧
  Z.to_nat grig_limit ≤ length all ∧ 0 < length all.
Proof.
  intros Hwf0 Hun0 Ep.
  pose proof (prepare_inv _ _ _ _ _ _ _ Hwf0 Hun0 Ep) as InvF.
  revert Ep. unfold prepare.
  destruct (mul st0 grig_a grig_c) as [[ac' st1]|] eqn:E1; [|done].
  cbn [mbind option_bind].
  destruct (mul st1 grig_c grig_a) as [[ca' st2]|] eqn:E2; [|done].
  cbn [mbind option_bind].
  destruct (visit st2 [] grig_I zero 0) as [[st3 all3]|] eqn:Hv; [|done].
  cbn [mbind option_bind].
  destruct (bfs_loop ac' ca' _ 0 _) as [[st4 all4]|] eqn:El; [|done].
  cbn [mbind option_bind].
  pose proof (inv_init _ _ _ _ _ _ _ Hwf0 Hun0 E1 E2 Hv) as Inv3.
  pose proof (inv_loop _ _ _ _ _ _ _ _ Inv3 El) as Inv4. simpl in Inv4.
  destruct (lab_init ac' ca' _ _ _ Hv) as [Lab3 L3].
  destruct (lab_loop _ _ _ _ _ _ _ _ Inv3 Lab3 El) as (Lab4 & L4 & Hn).
  destruct (mul st4 grig_b grig_a) as [[t1 st5]|] eqn:T1; [|done].
  cbn [mbind option_bind].
  destruct (mul st5 t1 grig_d) as [[t2 st6]|] eqn:T2; [|done].
  cbn [mbind option_bind].
  destruct (mul st6 t2 grig_a) as [[t3 st7]|] eqn:T3; [|done].
  cbn [mbind option_bind].
  destruct (mul st7 t3 grig_d) as [[t4 st8]|] eqn:T4; [|done].
  cbn [mbind option_bind].
  unfold deform.
  destruct (deform_loop fuel st8 t4 []) as [[t st9]|] eqn:Ed; [|done].
  cbn [mbind option_bind]. intros [= <- <- <- <-].
  assert (grows st4 st9) as G.
  { eapply grows_trans; [by eapply mul_fuel_grows|].
    eapply grows_trans; [by eapply mul_fuel_grows|].
    eapply grows_trans; [by eapply mul_fuel_grows|].
    eapply grows_trans; [by eapply mul_fuel_grows|].
    by eapply deform_loop_grows. }
  split; [eapply lab_grows; [exact Inv4|done|done|apply InvF]|].
  split; [lia|].
  assert (0 < length all4).
  { destruct (inv_root _ _ _ _ _ _ Inv4) as [H0 _]. by apply lookup_lt_Some in H0. }
  split; [|done]. destruct (Z.to_nat grig_limit); lia.
Qed.

(** *** Words of generators multiplied out *)

Lemma mul_word_app st x u v :
  mul_word st x (u ++ v) = '(y, st') ← mul_word st x u; mul_word st' y v.
Proof.
  revert st x. induction u as [|c u IH]; intros st x; [done|].
  cbn [app mul_word]. destruct (mul st x (gen_ptr c)) as [[y st1]|]; [|done].
  cbn [mbind option_bind]. apply IH.
Qed.

Lemma gen_ptr_static c : is_static (gen_ptr c).
Proof. unfold gen_ptr. by repeat case_match. Qed.

Lemma gen_act_ptr c v : gen_act c v = act init (gen_ptr c) v.
Proof.
  unfold gen_act, gen_ptr. repeat case_match; try done. by rewrite act_init_I.
Qed.

Lemma word_act_app u v x : word_act (u ++ v) x = word_act v (word_act u x).
Proof. unfold word_act. by rewrite fold_left_app. Qed.

Lemma word_act_cancel w v : word_act (w ++ reverse w) v = v.
Proof.
  revert v. induction w as [|c w IH]; intros v; [done|].
  rewrite reverse_cons, app_assoc, word_act_snoc.
  change ((c :: w) ++ reverse w) with ([c] ++ (w ++ reverse w)).
  rewrite word_act_app, IH. apply gen_act_invol.
Qed.

Lemma word_act_cancel_rev w v : word_act (reverse w ++ w) v = v.
Proof.
  rewrite <- (reverse_involutive w) at 2. apply word_act_cancel.
Qed.

(** The product of a word acts as the start followed by the symbols,
    the last symbol first. *)
Lemma mul_word_spec st x w :
  wf st → valid st x →
  ∃ p st', mul_word st x w = Some (p, st') ∧ wf st' ∧ grows st st' ∧
           valid st' p ∧ ∀ v, act st' p v = act st x (word_act (reverse w) v).
Proof.
  revert st x. induction w as [|c w IH]; intros st x Hwf Vx.
  { exists x, st. repeat (split; [done || apply grows_refl|]). done. }
  destruct (mul_spec st x (gen_ptr c)) as (y & st1 & E & Hwf1 & Vy & G & A);
    [done|done|apply is_static_valid, gen_ptr_static|].
  destruct (IH st1 y Hwf1 Vy) as (p & st' & E' & Hwf' & G' & Vp & A').
  exists p, st'. cbn [mul_word]. rewrite E. cbn [mbind option_bind].
  split; [done|]. split; [done|]. split; [by eapply grows_trans|].
  split; [done|]. intros v.
  rewrite A', A, reverse_cons, word_act_snoc, gen_act_ptr.
  f_equal. apply act_static; [apply Hwf|apply gen_ptr_static].
Qed.

Lemma act_reaches st x g p :
  wf st → valid st x → valid st g → reaches st x g p →
  ∀ v, act st p v = act st x (act st g v).
Proof.
  intros (Hs & Hc & _) Vx Vg E. by apply (act_mul_fuel _ _ _ _ _ _ E).
Qed.

(** A label stands for the generator whose symbols [deform] writes. *)
Lemma label_act ac ca st l g :
  wf st → valid st ac → valid st ca →
  reaches st grig_a grig_c ac → reaches st grig_c grig_a ca →
  label_gen ac ca l = Some g →
  valid st g ∧ ∀ v, act st g v = word_act (label_word l) v.
Proof.
  intros Hwf Vac Vca Rac Rca. pose proof Hwf as (Hs & _).
  unfold label_gen, label_word.
  destruct (char_eqb l "b") eqn:Eb.
  { apply char_eqb_eq in Eb as ->. intros [= <-]. split; [done|]. intros v.
    by rewrite (act_static st grig_b). }
  destruct (char_eqb l "A") eqn:EA.
  { intros [= <-]. split; [done|]. intros v.
    rewrite (act_reaches st grig_a grig_c ac Hwf I I Rac).
    by rewrite (act_static st grig_a), (act_static st grig_c). }
  destruct (char_eqb l "C") eqn:EC; [|done].
  intros [= <-]. split; [done|]. intros v.
  rewrite (act_reaches st grig_c grig_a ca Hwf I I Rca).
  by rewrite (act_static st grig_a), (act_static st grig_c).
Qed.

Lemma label_gen_cases ac ca l g :
  label_gen ac ca l = Some g → l = "b" ∨ l = "A" ∨ l = "C".
Proof.
  unfold label_gen.
  destruct (char_eqb l "b") eqn:Eb; [apply char_eqb_eq in Eb; auto|].
  destruct (char_eqb l "A") eqn:EA; [apply char_eqb_eq in EA; auto|].
  destruct (char_eqb l "C") eqn:EC; [apply char_eqb_eq in EC; auto|done].
Qed.

Lemma label_word_shape l :
  l = "b" ∨ l = "A" ∨ l = "C" →
  Forall (λ c, c = "a" ∨ c = "b" ∨ c = "c") (label_word l) ∧
  1 ≤ length (label_word l) ≤ 2.
Proof.
  intros [->|[->| ->]]; (split; [repeat constructor; tauto|simpl; lia]).
Qed.

(** One iteration of the loop of [deform] on a labelled representative. *)
Lemma deform_loop_step fuel st x r t0 p st2 :
  x ≠ grig_I → deref st x = Some r →
  last r = "b" ∨ last r = "A" ∨ last r = "C" →
  mul_word st x (label_word (last r)) = Some (p, st2) →
  deform_loop (S fuel) st x t0 =
    deform_loop fuel st2 p (t0 ++ label_word (last r)).
Proof.
  intros Hx Dx Hl. cbn [deform_loop]. rewrite decide_False by done.
  rewrite Dx. cbn [mbind option_bind].
  destruct Hl as [->|[->| ->]]; unfold label_word;
    cbn [char_eqb Ascii.eqb Bool.eqb mul_word str list_ascii_of_string];
    change (gen_ptr "a") with grig_a; change (gen_ptr "b") with grig_b;
    change (gen_ptr "c") with grig_c.
  - destruct (mul st x grig_b) as [[y st1]|]; [|done].
    cbn [mbind option_bind]. by intros [= -> ->].
  - destruct (mul st x grig_c) as [[y st1]|]; [|done].
    cbn [mbind option_bind].
    destruct (mul st1 y grig_a) as [[z st3]|]; [|done].
    cbn [mbind option_bind]. by intros [= -> ->].
  - destruct (mul st x grig_a) as [[y st1]|]; [|done].
    cbn [mbind option_bind].
    destruct (mul st1 y grig_c) as [[z st3]|]; [|done].
    cbn [mbind option_bind]. by intros [= -> ->].
Qed.

Lemma trail_valid st x n : trail st x n → valid st x.
Proof.
  destruct n as [|n]; simpl; [by intros ->|].
  intros (_ & r & pj & Dx & _). by eapply deref_Some_valid.
Qed.

Lemma trail_grows st st' x n :
  wf st → grows st st' → trail st x n → trail st' x n.
Proof.
  intros Hwf G. revert x. induction n as [|n IH]; intros x; [done|].
  cbn [trail]. intros (Hne & r & pj & Dx & Hl & Vj & A & T).
  split; [done|]. exists r, pj. split; [by eapply grows_deref|].
  split; [done|]. split; [by eapply grows_valid|]. split; [|by apply IH].
  intros v. rewrite !(act_grows st st') by (done || by eapply deref_Some_valid).
  apply A.
Qed.

(** [deform] on a pointer that is [n] labelled steps away from the
    identity: the loop ends after [n] iterations, and the symbols it
    collects, read backwards, multiply out to the pointer. *)
Lemma deform_trail n :
  ∀ st x t0,
    wf st → trail st x n →
    ∃ u st',
      deform_loop (S n) st x t0 = Some (t0 ++ u, st') ∧
      Forall (λ c, c = "a" ∨ c = "b" ∨ c = "c") u ∧
      n ≤ length u ≤ 2 * n ∧
      wf st' ∧ grows st st' ∧
      ∃ st2, mul_word st' grig_I (reverse u) = Some (x, st2) ∧
             wf st2 ∧ grows st' st2.
Proof.
  induction n as [|n IH]; intros st x t0 Hwf T.
  - simpl in T. subst x. exists [], st. rewrite app_nil_r.
    split; [done|]. split; [done|]. split; [simpl; lia|]. split; [done|].
    split; [apply grows_refl|]. exists st. split; [done|].
    split; [done|apply grows_refl].
  - pose proof (trail_valid _ _ _ T) as Vx.
    destruct T as (Hne & r & pj & Dx & Hl & Vj & A & T).
    destruct (mul_word_spec st x (label_word (last r)) Hwf Vx)
      as (p & st1 & E1 & Hwf1 & G1 & Vp & A1).
    assert (p = pj) as ->.
    { apply (act_injective st1); [done|done|by eapply grows_valid|].
      intros v. rewrite A1, A, <- word_act_app, word_act_cancel_rev.
      symmetry. by apply act_grows. }
    destruct (IH st1 pj (t0 ++ label_word (last r)) Hwf1
                (trail_grows _ _ _ _ Hwf G1 T))
      as (u & st' & Ed & Hu & Lu & Hwf' & G' & st2 & Em & Hwf2 & G2).
    destruct (label_word_shape _ Hl) as [Hw Lw].
    exists (label_word (last r) ++ u), st'.
    split; [by rewrite (deform_loop_step _ _ _ _ _ _ _ Hne Dx Hl E1), app_assoc|].
    split; [by apply Forall_app|]. split; [rewrite length_app; lia|].
    split; [done|]. split; [by eapply grows_trans|].
    assert (grows st st2) as G by eauto using grows_trans.
    destruct (mul_word_spec st2 pj (reverse (label_word (last r))) Hwf2)
      as (q & st3 & E3 & Hwf3 & G3 & Vq & A3); [by eapply grows_valid|].
    assert (q = x) as ->.
    { apply (act_injective st3); [done|done|eauto using grows_valid, grows_trans|].
      intros v. rewrite A3, reverse_involutive.
      rewrite (act_grows st st2 pj) by done.
      rewrite <- A. symmetry. apply act_grows; eauto using grows_trans. }
    exists st3. rewrite reverse_app, mul_word_app, Em.
    cbn [mbind option_bind]. split; [done|]. split; [done|].
    by eapply grows_trans.
Qed.

(** A representative of the traversal is as many labelled steps away
    from the identity as its distance says. *)
Lemma prepare_trail ac ca i gs all st n :
  bfs_inv ac ca i gs st all → lab_inv ac ca st all →
  ∀ x rx, x ∈ all → deref st x = Some rx → len rx = Z.of_nat n →
          trail st x n.
Proof.
  intros Inv Lab. pose proof (inv_wf _ _ _ _ _ _ Inv) as Hwf.
  induction n as [|n IH]; intros x rx Hx Dx Hlen.
  - apply list_elem_of_lookup in Hx as [k Hk].
    destruct k as [|k]; [destruct (inv_root _ _ _ _ _ _ Inv); simpl; congruence|].
    destruct (lab_parent _ _ _ _ Lab (S k) x rx ltac:(lia) Hk Dx)
      as (j & pj & rj & g & _ & Hj & Dj & _ & _ & Hl).
    pose proof (inv_bound _ _ _ _ _ _ Inv _ _ _ Hj Dj). lia.
  - assert (x ≠ grig_I) as Hne.
    { intros ->. destruct (inv_root _ _ _ _ _ _ Inv) as [_ H0].
      simpl in Dx. injection Dx as <-. lia. }
    apply list_elem_of_lookup in Hx as [k Hk].
    destruct k as [|k]; [destruct (inv_root _ _ _ _ _ _ Inv); congruence|].
    destruct (lab_parent _ _ _ _ Lab (S k) x rx ltac:(lia) Hk Dx)
      as (j & pj & rj & g & _ & Hj & Dj & Hl & Hr & Hlj).
    assert (valid st pj) as Vj by (by eapply deref_Some_valid).
    destruct (label_act ac ca st _ _ Hwf (inv_ac _ _ _ _ _ _ Inv)
                (inv_ca _ _ _ _ _ _ Inv) (inv_ac_def _ _ _ _ _ _ Inv)
                (inv_ca_def _ _ _ _ _ _ Inv) Hl) as [Vg Ag].
    split; [done|]. exists rx, pj. split; [done|].
    split; [by eapply label_gen_cases|]. split; [done|]. split.
    + intros v. by rewrite (act_reaches _ _ _ _ Hwf Vj Vg Hr), Ag.
    + eapply IH; [by eapply list_elem_of_lookup_2|done|lia].
Qed.

(** *** Statements about the traversal and about [deform] *)

(** X18. [prepare] lists no representative twice; the listed
    representatives are exactly the objects marked [visited]; and the
    list holds at most [3 * grig_limit + 1] representatives. *)
Theorem prepare_all_distinct fuel grig_limit st all ac ca :
  prepare fuel grig_limit init = Some (st, all, ac, ca) →
  NoDup all ∧
  (∀ p r, deref st p = Some r → (visited r = true ↔ p ∈ all)) ∧
  length all ≤ 3 * Z.to_nat grig_limit + 1.
Proof.
  intros E.
  pose proof (prepare_inv _ _ _ _ _ _ _ wf_init init_unvisited E) as Inv.
  destruct (prepare_lab _ _ _ _ _ _ _ wf_init init_unvisited E)
    as (Lab & L1 & _).
  split; [apply Lab|]. split; [apply Inv|done].
Qed.

Lemma prepare_all_distinct_witness :
  ∃ st all ac ca,
    prepare 20 2 init = Some (st, all, ac, ca) ∧
    NoDup all ∧
    (∀ p r, deref st p = Some r → (visited r = true ↔ p ∈ all)) ∧
    length all ≤ 3 * Z.to_nat 2 + 1.
Proof.
  eexists _, _, _, _. split; [vm_compute; reflexivity|].
  eapply (prepare_all_distinct 20 2). vm_compute. reflexivity.
Defined.

(** X19. Every entry of [all] that is among the first [grig_limit]
    ones has a distance between 0 and its index, and its products with
    [b], [ac] and [ca] are interned and listed in [all], at most one
    step farther. *)
Theorem prepare_closed_under_generators fuel grig_limit st all ac ca j pj :
  prepare fuel grig_limit init = Some (st, all, ac, ca) →
  j < Z.to_nat grig_limit → all !! j = Some pj →
  ∃ rj,
    deref st pj = Some rj ∧
    (0 ≤ len rj ≤ Z.of_nat j)%Z ∧
    ∀ g, g ∈ [grig_b; ac; ca] →
         ∃ p rp, mul st pj g = Some (p, st) ∧ p ∈ all ∧
                 deref st p = Some rp ∧ (len rp ≤ len rj + 1)%Z.
Proof.
  intros E Hj Hpj.
  pose proof (prepare_inv _ _ _ _ _ _ _ wf_init init_unvisited E) as Inv.
  assert (valid st pj) as [rj Dj]%deref_valid
    by (eapply Inv, list_elem_of_lookup_2, Hpj).
  exists rj. split; [done|].
  split; [by eapply inv_bound|].
  intros g Hg.
  destruct (inv_edge _ _ _ _ _ _ Inv j g pj) as (p & rp & rj' & Hr & Hp & Dp & Dj' & Hl);
    [by left|done|].
  exists p, rp. split; [done|]. split; [done|]. split; [done|].
  congruence.
Qed.

Lemma prepare_closed_under_generators_witness :
  ∃ st all ac ca,
    prepare 20 2 init = Some (st, all, ac, ca) ∧
    all !! 1 = Some grig_b ∧
    ∃ rj,
      deref st grig_b = Some rj ∧
      (0 ≤ len rj ≤ Z.of_nat 1)%Z ∧
      ∀ g, g ∈ [grig_b; ac; ca] →
           ∃ p rp, mul st grig_b g = Some (p, st) ∧ p ∈ all ∧
                   deref st p = Some rp ∧ (len rp ≤ len rj + 1)%Z.
Proof.
  eexists _, _, _, _. split; [vm_compute; reflexivity|].
  split; [vm_compute; reflexivity|].
  eapply (prepare_closed_under_generators 20 2 _ _ _ _ 1 grig_b);
    [vm_compute; reflexivity|vm_compute; lia|vm_compute; reflexivity].
Defined.

(** X20. Every representative of [all] but the first carries one of
    the labels [b], [A], [C], and the generator the label stands for
    ([b], [ac], [ca]) leads to it from a representative listed earlier,
    whose distance is one less. *)
Theorem prepare_labels fuel grig_limit st all ac ca k pk :
  prepare fuel grig_limit init = Some (st, all, ac, ca) →
  0 < k → all !! k = Some pk →
  ∃ rk j pj rj g,
    deref st pk = Some rk ∧ j < k ∧ all !! j = Some pj ∧
    deref st pj = Some rj ∧
    label_gen ac ca (last rk) = Some g ∧
    mul st pj g = Some (pk, st) ∧ len rk = (len rj + 1)%Z.
Proof.
  intros E Hk0 Hk.
  pose proof (prepare_inv _ _ _ _ _ _ _ wf_init init_unvisited E) as Inv.
  destruct (prepare_lab _ _ _ _ _ _ _ wf_init init_unvisited E) as (Lab & _).
  assert (valid st pk) as [rk Dk]%deref_valid
    by (eapply Inv, list_elem_of_lookup_2, Hk).
  destruct (lab_parent _ _ _ _ Lab k pk rk Hk0 Hk Dk)
    as (j & pj & rj & g & ?).
  by exists rk, j, pj, rj, g.
Qed.

Lemma prepare_labels_witness :
  ∃ st all ac ca pk rk j pj rj g,
    prepare 20 2 init = Some (st, all, ac, ca) ∧
    all !! 2 = Some pk ∧
    deref st pk = Some rk ∧ j < 2 ∧ all !! j = Some pj ∧
    deref st pj = Some rj ∧
    label_gen ac ca (last rk) = Some g ∧
    mul st pj g = Some (pk, st) ∧ len rk = (len rj + 1)%Z.
Proof.
  eexists _, _, _, _, _.
  destruct (prepare_labels 20 2 _ _ _ _ 2 _
              ltac:(vm_compute; reflexivity) ltac:(lia)
              ltac:(vm_compute; reflexivity))
    as (rk & j & pj & rj & g & H).
  exists rk, j, pj, rj, g.
  split; [vm_compute; reflexivity|]. split; [vm_compute; reflexivity|exact H].
Defined.

(** X21. On every representative [x] that [prepare] lists, [deform]
    returns after as many iterations as the distance of [x]; the word
    it returns is over [a], [b], [c], has between one and two symbols
    per step, and multiplying the generators it names, from the
    identity on, gives [x] back. *)
Theorem deform_round_trip fuel grig_limit st all ac ca x rx :
  prepare fuel grig_limit init = Some (st, all, ac, ca) →
  x ∈ all → deref st x = Some rx →
  ∃ t st' st2,
    deform (S (Z.to_nat (len rx))) st x = Some (t, st') ∧
    Forall (λ c, c = "a" ∨ c = "b" ∨ c = "c") t ∧
    (len rx ≤ Z.of_nat (length t) ≤ 2 * len rx)%Z ∧
    mul_word st' grig_I t = Some (x, st2).
Proof.
  intros E Hx Dx.
  pose proof (prepare_inv _ _ _ _ _ _ _ wf_init init_unvisited E) as Inv.
  destruct (prepare_lab _ _ _ _ _ _ _ wf_init init_unvisited E) as (Lab & _).
  apply list_elem_of_lookup in Hx as [k Hk].
  pose proof (inv_bound _ _ _ _ _ _ Inv _ _ _ Hk Dx) as Hb.
  assert (trail st x (Z.to_nat (len rx))) as T.
  { eapply prepare_trail; [done|done|by eapply list_elem_of_lookup_2|done|lia]. }
  destruct (deform_trail _ st x [] (inv_wf _ _ _ _ _ _ Inv) T)
    as (u & st' & Ed & Hu & Lu & _ & _ & st2 & Em & _).
  exists (reverse u), st', st2. unfold deform. rewrite Ed.
  cbn [mbind option_bind app]. split; [done|].
  split; [by apply Forall_reverse|]. rewrite length_reverse. split; [lia|done].
Qed.

Lemma deform_round_trip_witness :
  ∃ st all ac ca rx t st' st2,
    prepare 20 2 init = Some (st, all, ac, ca) ∧
    deref st (node 1) = Some rx ∧
    deform (S (Z.to_nat (len rx))) st (node 1) = Some (t, st') ∧
    Forall (λ c, c = "a" ∨ c = "b" ∨ c = "c") t ∧
    (len rx ≤ Z.of_nat (length t) ≤ 2 * len rx)%Z ∧
    mul_word st' grig_I t = Some (node 1, st2).
Proof.
  eexists _, _, _, _, _.
  destruct (deform_round_trip 20 2 _ _ _ _ (node 1) _
              ltac:(vm_compute; reflexivity) ltac:(repeat constructor)
              ltac:(vm_compute; reflexivity))
    as (t & st' & st2 & H).
  exists t, st', st2.
  split; [vm_compute; reflexivity|]. split; [vm_compute; reflexivity|exact H].
Defined.

End EnumMore.

(** ** Further properties of the lazy map *)

Module AdapterMore.
Import Word Store Enumerator Adapter.
Import WordFacts StoreFacts Action EnumFacts AdapterFacts.
Import WordAction StoreMore EnumMore.

Lemma act_same_ties st st' p v :
  wf st → same_ties st st' → valid st p → act st' p v = act st p v.
Proof.
  intros (Hs & Hc & _) Hsame Vp.
  by apply act_tie_le; [| |apply same_ties_tie_le|].
Qed.

(** The [switch] of [create_step] multiplies by the symbols that
    [deform] writes for the label of the direction, in reverse. *)
Lemma switch_d_mul_word st pr d :
  (d = 0 ∨ d = 1 ∨ d = 2)%Z →
  ∃ l, label d = Some l ∧ (l = "b" ∨ l = "A" ∨ l = "C") ∧
       switch_d st pr d = mul_word st pr (reverse (label_word l)).
Proof.
  intros [->|[->| ->]].
  - exists "A". split; [done|]. split; [tauto|].
    unfold switch_d. rewrite decide_True by done.
    change (reverse (label_word "A")) with ["a"; "c"]. cbn [mul_word].
    change (gen_ptr "a") with grig_a. change (gen_ptr "c") with grig_c.
    destruct (mul st pr grig_a) as [[t st1]|]; [|done]. cbn [mbind option_bind].
    by destruct (mul st1 t grig_c) as [[]|].
  - exists "C". split; [done|]. split; [tauto|].
    unfold switch_d. rewrite decide_False, decide_True by done.
    change (reverse (label_word "C")) with ["c"; "a"]. cbn [mul_word].
    change (gen_ptr "a") with grig_a. change (gen_ptr "c") with grig_c.
    destruct (mul st pr grig_c) as [[t st1]|]; [|done]. cbn [mbind option_bind].
    by destruct (mul st1 t grig_a) as [[]|].
  - exists "b". split; [done|]. split; [tauto|].
    unfold switch_d. rewrite !decide_False, decide_True by done.
    change (reverse (label_word "b")) with ["b"]. cbn [mul_word].
    change (gen_ptr "b") with grig_b.
    by destruct (mul st pr grig_b) as [[]|].
Qed.

(** What a call of [create_step] on a bound node does. *)
Lemma create_step_spec m st p pr0 d :
  adapter_inv m st → dec m !! p = Some pr0 → (d = 0 ∨ d = 1 ∨ d = 2)%Z →
  ∃ h m1 st1 pr l,
    create_step m st p d = Some (h, m1, st1) ∧
    label d = Some l ∧ (l = "b" ∨ l = "A" ∨ l = "C") ∧
    adapter_inv m1 st1 ∧ tie_le st st1 ∧
    dec m1 !! h = Some pr ∧
    (∀ v, act st1 pr v = act st pr0 (word_act (label_word l) v)) ∧
    links m1 =
      links m ++ [(h, (if decide (d = 2)%Z then 2 else 1 - d)%Z, p, d)] ∧
    ((enc m !! pr = Some h ∧ dec m1 = dec m ∧ enc m1 = enc m ∧
      heptagons m1 = heptagons m ∧ grows st st1) ∨
     (enc m !! pr = None ∧ h = length (heptagons m) ∧
      ∃ hp sta r,
        heptagons m !! p = Some hp ∧
        heptagons m1 = heptagons m ++ [mk_heptagon (distance hp + 1)] ∧
        dec m1 = <[h := pr]> (dec m) ∧ enc m1 = <[pr := h]> (enc m) ∧
        wf sta ∧ grows st sta ∧ deref sta pr = Some r ∧
        st1 = update sta pr (set_last l))).
Proof.
  intros (Hwf & Hdec & Hbij) Hp Hd.
  destruct (Hdec _ _ Hp) as [Vpr0 Hplt].
  destruct (switch_d_mul_word st pr0 d Hd) as (l & Hl & Hlab & Esw).
  destruct (mul_word_spec st pr0 (reverse (label_word l)) Hwf Vpr0)
    as (pr & sta & Em & Hwfa & G & Vpr & A).
  rewrite reverse_involutive in A.
  unfold create_step. rewrite Hp. cbn [mbind option_bind].
  rewrite Esw, Em. cbn [mbind option_bind].
  destruct (enc m !! pr) as [h|] eqn:He.
  - eexists h, _, sta, pr, l. split; [reflexivity|].
    split; [done|]. split; [done|]. unfold adapter_inv.
    cbn [dec enc heptagons links connect].
    split.
    { split; [done|]. split; [|done].
      eapply grows_inv_dec; [by apply grows_tie_le|done]. }
    split; [by apply grows_tie_le|]. split; [by apply Hbij|].
    split; [done|]. split; [done|]. by left.
  - destruct (lookup_lt_is_Some_2 _ _ Hplt) as [hp Hhp].
    rewrite Hl, Hhp. cbn [mbind option_bind alloc].
    set (st1 := update sta pr (set_last l)).
    pose proof (same_ties_update sta pr (set_last l) (set_last_tie l)) as Hsame.
    fold st1 in Hsame.
    pose proof (same_ties_wf _ _ Hsame Hwfa) as Hwf1.
    pose proof (same_ties_tie_le _ _ Hsame) as Hle1.
    destruct (proj2 (deref_valid sta pr) Vpr) as [r Dr].
    eexists (length (heptagons m)), _, st1, pr, l. split; [reflexivity|].
    split; [done|]. split; [done|]. unfold adapter_inv.
    cbn [dec enc heptagons links connect gtie].
    split; [split; [done|split]|].
    + intros h' pr' [[<- <-]|[_ Hh']]%lookup_insert_Some.
      * split; [by apply (same_ties_valid _ _ _ Hsame)|].
        rewrite length_app. simpl. lia.
      * destruct (Hdec _ _ Hh') as [V L]. split.
        -- eapply tie_le_valid; [|done].
           eapply tie_le_trans; [by apply grows_tie_le|done].
        -- rewrite length_app. simpl. lia.
    + intros h' pr'. rewrite !lookup_insert_Some. split.
      * intros [[<- <-]|[Hne Hh']]; [by left|right].
        split; [|by apply Hbij]. intros <-.
        apply Hbij in Hh'. congruence.
      * intros [[<- <-]|[Hne Hh']]; [by left|right].
        split; [|by apply Hbij]. intros <-.
        apply Hbij in Hh'. destruct (Hdec _ _ Hh'). lia.
    + split; [eapply tie_le_trans; [by apply grows_tie_le|done]|].
      split; [by rewrite lookup_insert_eq|].
      split; [intros v; by rewrite (act_same_ties sta st1)|].
      split; [done|]. right. split; [done|]. split; [done|].
      by exists hp, sta, r.
Qed.

Lemma label_word_opposite d l l' :
  (d = 0 ∨ d = 1 ∨ d = 2)%Z →
  label d = Some l → label (if decide (d = 2)%Z then 2 else 1 - d)%Z = Some l' →
  label_word l' = reverse (label_word l).
Proof. intros [->|[->| ->]]; cbn; by intros [= <-] [= <-]. Qed.

(** The labels of the bound nodes survive a change of the store that
    keeps the triples and the labels of the bound pointers. *)
Lemma adapter_lab_store m st st' :
  adapter_inv m st → adapter_lab m st → tie_le st st' →
  (∀ h pr r, dec m !! h = Some pr → deref st pr = Some r →
             ∃ r', deref st' pr = Some r' ∧ last r' = last r) →
  adapter_lab m st'.
Proof.
  intros (Hwf & Hdec & Hbij) [HI Hlab] Hle Hlast. split; [done|].
  intros h pr hh Hh Hhh.
  destruct (Hlab h pr hh Hh Hhh) as (H0 & H1 & Hne).
  split; [done|]. split; [done|]. intros Hn.
  destruct (Hne Hn) as (r & p & pp & hp & Dr & Hl & Hp & Hhp & Hd & A).
  destruct (Hlast _ _ _ Hh Dr) as (r' & Dr' & El).
  exists r', p, pp, hp. rewrite El. repeat (split; [done|]).
  destruct Hwf as (Hs & Hc & _). intros v.
  rewrite !(act_tie_le st st') by (done || by (eapply Hdec)).
  apply A.
Qed.

Lemma adapter_lab_grows m st st' :
  adapter_inv m st → adapter_lab m st → grows st st' → adapter_lab m st'.
Proof.
  intros Inv Lab G. eapply adapter_lab_store; [done|done|by apply grows_tie_le|].
  intros h pr r _ Dr. exists r. split; [by eapply grows_deref|done].
Qed.

Lemma new_adapter_lab fuel grig_limit prepared st m st' :
  hrmap_grigorchuk_new fuel grig_limit prepared st = Some (m, st') →
  adapter_lab m st'.
Proof.
  unfold hrmap_grigorchuk_new.
  destruct (if prepared then _ else _) as [s|]; [|done]. cbn.
  intros [= <- <-]. unfold adapter_lab. cbn [dec enc heptagons gtie].
  split; [by rewrite lookup_insert_eq|].
  intros h pr hh [[<- <-]|[_ ?]]%lookup_insert_Some;
    [|by rewrite lookup_empty in *].
  intros [= <-]. simpl. done.
Qed.

Lemma create_step_lab m st p d h m1 st1 :
  adapter_inv m st → adapter_lab m st → (d = 0 ∨ d = 1 ∨ d = 2)%Z →
  create_step m st p d = Some (h, m1, st1) →
  adapter_inv m1 st1 ∧ adapter_lab m1 st1.
Proof.
  intros Inv Lab Hd E.
  assert (∃ pr0, dec m !! p = Some pr0) as [pr0 Hp].
  { unfold create_step in E. destruct (dec m !! p); [eauto|done]. }
  destruct (create_step_spec m st p pr0 d Inv Hp Hd)
    as (h' & m1' & st1' & pr & l & E' & Hl & Hlab & Inv1 & Hle & Hh & A & _ & Hcase).
  rewrite E in E'. injection E' as <- <- <-.
  split; [done|].
  pose proof Inv as (Hwf & Hdec & Hbij).
  destruct Hcase as [(He & Ed & Ee & Eh & G)|
                     (He & -> & hp & sta & r & Hhp & Eh & Ed & Ee & Hwfa & G & Dr & ->)].
  { pose proof (adapter_lab_grows _ _ _ Inv Lab G) as [HI Hlab1].
    split; [by rewrite Ee|]. rewrite Ed, Eh. exact Hlab1. }
  set (st1 := update sta pr (set_last l)) in *.
  assert (adapter_lab m st1) as [HI Hlab1].
  { eapply adapter_lab_store; [done|done|done|].
    intros h' pr' r' Hh' Dr'. exists r'. split; [|done].
    unfold st1. rewrite deref_update_ne; [by eapply grows_deref|].
    intros <-. apply Hbij in Hh'. congruence. }
  assert (pr ≠ grig_I) as HprI.
  { intros ->. destruct Lab as [[? HI'] _]. congruence. }
  split; [rewrite Ee; by rewrite lookup_insert_ne|].
  intros h' pr' hh'. rewrite Ed, Eh.
  intros [[<- <-]|[Hne Hh']]%lookup_insert_Some Hhh'.
  - rewrite list_lookup_middle in Hhh' by done. injection Hhh' as <-.
    destruct (Hdec _ _ Hp) as [Vpr0 Hplt].
    destruct (proj2 Lab p pr0 hp Hp Hhp) as (H0 & _).
    cbn [distance]. split; [lia|]. split; [done|]. intros _.
    exists (set_last l r), p, pr0, hp.
    split; [by apply deref_update_eq|]. split; [done|].
    split; [rewrite lookup_insert_ne by lia; done|].
    split; [by apply lookup_app_l_Some|]. split; [done|].
    intros v. cbn [last set_last]. rewrite A.
    destruct Hwf as (Hs & Hc & _). by rewrite (act_tie_le st st1).
  - destruct (Hdec _ _ Hh') as [V L].
    rewrite lookup_app_l in Hhh' by done.
    destruct (Hlab1 h' pr' hh' Hh' Hhh') as (H0 & H1 & Hn).
    split; [done|]. split; [done|]. intros Hne'.
    destruct (Hn Hne') as (r' & p' & pp & hp' & Dr' & Hl' & Hp' & Hhp' & Hd' & A').
    exists r', p', pp, hp'. split; [done|]. split; [done|].
    destruct (Hdec _ _ Hp') as [_ Lp'].
    split; [rewrite lookup_insert_ne by lia; done|].
    split; [by apply lookup_app_l_Some|]. done.
Qed.

(** The invariants hold throughout the life of a map. *)
Lemma adapter_run_inv m st :
  adapter_run m st → adapter_inv m st ∧ adapter_lab m st.
Proof.
  induction 1 as [fuel grig_limit m st E
                 |m st p d h m1 st1 _ [Inv Lab] Hd E
                 |m st x y p st1 _ [Inv Lab] Vx Vy E].
  - split; [|by eapply new_adapter_lab].
    eapply (new_adapter_inv _ _ false init);
      [exact wf_init|intros _; exact init_unvisited|done].
  - by eapply create_step_lab.
  - pose proof Inv as (Hwf & Hdec & Hbij).
    destruct (mul_wf _ _ _ _ _ E Hwf Vx Vy) as (Hwf1 & _ & G).
    split; [|by eapply adapter_lab_grows].
    split; [done|]. split; [|done].
    eapply grows_inv_dec; [by apply grows_tie_le|done].
Qed.

(** A bound node is as many labelled steps away from the identity as
    its distance says. *)
Lemma adapter_trail m st n :
  adapter_inv m st → adapter_lab m st →
  ∀ h pr hh, dec m !! h = Some pr → heptagons m !! h = Some hh →
             distance hh = Z.of_nat n → trail st pr n.
Proof.
  intros (Hwf & Hdec & Hbij) [HI Hlab].
  induction n as [|n IH]; intros h pr hh Hh Hhh Hd;
    destruct (Hlab h pr hh Hh Hhh) as (H0 & H1 & Hne).
  - destruct (decide (pr = grig_I)) as [->|Hn]; [done|].
    destruct (Hne Hn) as (r & p & pp & hp & _ & _ & Hp & Hhp & Hd' & _).
    destruct (Hlab p pp hp Hp Hhp) as (H0' & _). lia.
  - assert (pr ≠ grig_I) as Hn by (intros Hx; specialize (H1 Hx); lia).
    destruct (Hne Hn) as (r & p & pp & hp & Dr & Hl & Hp & Hhp & Hd' & A).
    split; [done|]. exists r, pp. split; [done|]. split; [done|].
    split; [by eapply Hdec|]. split; [done|].
    eapply IH; [done|done|lia].
Qed.

(** A call of [create_step] keeps what is bound and allocated. *)
Lemma create_step_frame m st p d h m1 st1 :
  adapter_inv m st → (d = 0 ∨ d = 1 ∨ d = 2)%Z →
  create_step m st p d = Some (h, m1, st1) →
  adapter_inv m1 st1 ∧ dec m ⊆ dec m1 ∧ enc m ⊆ enc m1 ∧
  tie_le st st1 ∧ heptagons m `prefix_of` heptagons m1.
Proof.
  intros Inv Hd E.
  assert (∃ pr0, dec m !! p = Some pr0) as [pr0 Hp].
  { unfold create_step in E. destruct (dec m !! p); [eauto|done]. }
  destruct (create_step_spec m st p pr0 d Inv Hp Hd)
    as (h' & m1' & st1' & pr & l & E' & _ & _ & Inv1 & Hle & _ & _ & _ & Hcase).
  rewrite E in E'. injection E' as <- <- <-.
  split; [done|].
  destruct Hcase as [(_ & -> & -> & -> & _)|
                     (He & -> & hp & sta & r & _ & -> & -> & -> & _)]; [done|].
  destruct Inv as (_ & Hdec & _).
  split; [|split; [|split; [done|by apply prefix_app_r]]].
  - apply insert_subseteq.
    destruct (dec m !! length (heptagons m)) as [q|] eqn:Hq; [|done].
    destruct (Hdec _ _ Hq). lia.
  - by apply insert_subseteq.
Qed.

Lemma adapter_steps_frame m st m' st' :
  adapter_inv m st → adapter_steps m st m' st' →
  adapter_inv m' st' ∧ dec m ⊆ dec m' ∧ enc m ⊆ enc m' ∧
  tie_le st st' ∧ heptagons m `prefix_of` heptagons m'.
Proof.
  intros Inv.
  induction 1 as [|m1 st1 p d h m2 st2 _ (Inv1 & Hd1 & He1 & Hle1 & Hp1) Hd E
                  |m1 st1 x y q st2 _ (Inv1 & Hd1 & He1 & Hle1 & Hp1) Vx Vy E].
  - split; [done|]. split; [done|]. split; [done|].
    split; [apply tie_le_refl|done].
  - destruct (create_step_frame _ _ _ _ _ _ _ Inv1 Hd E)
      as (Inv2 & Hd2 & He2 & Hle2 & Hp2).
    split; [done|]. split; [by etrans|]. split; [by etrans|].
    split; [by eapply tie_le_trans|by etrans].
  - destruct Inv1 as (Hwf1 & Hdec1 & Hbij1).
    destruct (mul_wf _ _ _ _ _ E Hwf1 Vx Vy) as (Hwf2 & _ & G).
    split; [|split; [done|split; [done|split; [|done]]]].
    + split; [done|]. split; [|done].
      eapply grows_inv_dec; [by apply grows_tie_le|done].
    + eapply tie_le_trans; [done|by apply grows_tie_le].
Qed.

(** The node a call has returned is returned again by the same call in
    any later state that kept the bindings, and this call changes
    nothing but the log of links. *)
Lemma create_step_again m st p d h m1 st1 m' st' :
  adapter_inv m st → (d = 0 ∨ d = 1 ∨ d = 2)%Z →
  create_step m st p d = Some (h, m1, st1) →
  adapter_inv m' st' → dec m1 ⊆ dec m' → enc m1 ⊆ enc m' → tie_le st1 st' →
  create_step m' st' p d =
    Some (h, connect m' h (if decide (d = 2)%Z then 2 else 1 - d)%Z p d, st').
Proof.
  intros (Hwf & Hdec & Hbij) Hd E (Hwf' & _ & _) Hsd Hse Hle.
  revert E. unfold create_step at 1.
  destruct (dec m !! p) as [pr0|] eqn:Hp; [|done]. cbn [mbind option_bind].
  destruct (Hdec _ _ Hp) as [Vpr0 Hplt].
  destruct (switch_d_spec st pr0 d Hwf Vpr0 Hd)
    as (pr & sta & Es & Hwfa & Vpr & G & Hstab).
  rewrite Es. cbn [mbind option_bind].
  assert (dec m1 !! p = Some pr0 → enc m1 !! pr = Some h → tie_le sta st1 →
          create_step m' st' p d =
            Some (h, connect m' h (if decide (d = 2)%Z then 2 else 1 - d)%Z p d, st'))
    as Hfin.
  { intros Hp1 He1 Hle1. unfold create_step.
    rewrite (lookup_weaken _ _ _ _ Hp1 Hsd). cbn [mbind option_bind].
    rewrite (Hstab st') by (by eapply tie_le_trans || apply Hwf').
    cbn [mbind option_bind]. by rewrite (lookup_weaken _ _ _ _ He1 Hse). }
  destruct (enc m !! pr) as [h0|] eqn:He.
  - intros [= <- <- <-]. apply Hfin; [done|done|apply tie_le_refl].
  - destruct (label d) as [l|]; [|done]. cbn [mbind option_bind].
    destruct (heptagons m !! p) as [hp|]; [|done].
    cbn [mbind option_bind alloc]. intros [= <- <- <-].
    cbn [dec enc connect gtie] in *. apply Hfin.
    + rewrite lookup_insert_ne by lia. done.
    + by rewrite lookup_insert_eq.
    + apply same_ties_tie_le, same_ties_update, set_last_tie.
Qed.

(** *** Statements about the lazy map *)

(** C9.  For every node [p] bound in the map and every direction [d] in
    {0,1,2}, [create_step p d] returns a node [h] and keeps every
    binding and every heptagon that existed.  Whatever calls of
    [create_step] and [mul] follow, the bindings made so far are kept,
    [dec] and [enc] stay inverse to each other (no representative ever
    has two nodes), and a repetition of the call [create_step p d]
    returns the same node [h] again: it allocates no heptagon and
    changes neither the bindings nor the store. *)
Theorem create_step_idempotent (m : hrmap_grigorchuk) (st : store) (p : nat) (d : Z) :
  adapter_inv m st → is_Some (dec m !! p) → (d = 0 ∨ d = 1 ∨ d = 2)%Z →
  ∃ h m1 st1,
    create_step m st p d = Some (h, m1, st1) ∧
    adapter_inv m1 st1 ∧ dec m ⊆ dec m1 ∧ enc m ⊆ enc m1 ∧
    heptagons m `prefix_of` heptagons m1 ∧
    ∀ m' st',
      adapter_steps m1 st1 m' st' →
      adapter_inv m' st' ∧ dec m1 ⊆ dec m' ∧ enc m1 ⊆ enc m' ∧
      heptagons m1 `prefix_of` heptagons m' ∧
      ∃ m2,
        create_step m' st' p d = Some (h, m2, st') ∧
        heptagons m2 = heptagons m' ∧ dec m2 = dec m' ∧ enc m2 = enc m'.
Proof.
  intros Inv [pr0 Hp] Hd.
  destruct (create_step_spec m st p pr0 d Inv Hp Hd)
    as (h & m1 & st1 & pr & l & E & _).
  destruct (create_step_frame _ _ _ _ _ _ _ Inv Hd E)
    as (Inv1 & Hd1 & He1 & Hle1 & Hp1).
  exists h, m1, st1. repeat (split; [done|]).
  intros m' st' Hsteps.
  destruct (adapter_steps_frame _ _ _ _ Inv1 Hsteps)
    as (Inv' & Hd' & He' & Hle' & Hp').
  repeat (split; [done|]).
  eexists. split;
    [exact (create_step_again m st p d h m1 st1 m' st' Inv Hd E Inv' Hd' He' Hle')|].
  done.
Qed.

Lemma create_step_idempotent_witness :
  ∃ m st,
    hrmap_grigorchuk_new 20 2 false init = Some (m, st) ∧
    ∃ h m1 st1,
      create_step m st 0 0 = Some (h, m1, st1) ∧
      adapter_inv m1 st1 ∧ dec m ⊆ dec m1 ∧ enc m ⊆ enc m1 ∧
      heptagons m `prefix_of` heptagons m1 ∧
      ∀ m' st',
        adapter_steps m1 st1 m' st' →
        adapter_inv m' st' ∧ dec m1 ⊆ dec m' ∧ enc m1 ⊆ enc m' ∧
        heptagons m1 `prefix_of` heptagons m' ∧
        ∃ m2,
          create_step m' st' 0 0 = Some (h, m2, st') ∧
          heptagons m2 = heptagons m' ∧ dec m2 = dec m' ∧ enc m2 = enc m'.
Proof.
  eexists _, _. split; [vm_compute; reflexivity|].
  apply create_step_idempotent.
  - eapply (new_adapter_inv 20 2 false init);
      [exact wf_init|intros _; exact init_unvisited|vm_compute; reflexivity].
  - eexists. vm_compute. reflexivity.
  - by left.
Defined.


(** X22. Throughout the life of a map (after the constructor and after
    any calls of [create_step] and [mul]) the store is well formed, the
    maps [dec] and [enc] are inverse to each other, the identity is
    bound, no distance is negative, a node bound to the identity has
    distance 0, and any other bound node carries a label [b], [A] or
    [C] and acts as a bound node of distance one less followed by the
    generator of its label. *)
Theorem adapter_run_invariants (m : hrmap_grigorchuk) (st : store) :
  adapter_run m st → adapter_inv m st ∧ adapter_lab m st.
Proof. apply adapter_run_inv. Qed.

Lemma adapter_run_invariants_witness :
  ∃ m st, hrmap_grigorchuk_new 20 2 false init = Some (m, st) ∧
          adapter_inv m st ∧ adapter_lab m st.
Proof.
  eexists _, _. split; [vm_compute; reflexivity|].
  apply adapter_run_invariants. eapply (run_new 20 2). vm_compute. reflexivity.
Defined.

(** X23. [create_step] wires both ends of an edge consistently: after
    [create_step p d] has returned [h], the call [create_step h d'] in
    the opposite direction ([d' = 2] for [d = 2], [1 - d] otherwise)
    returns [p], allocates nothing and binds nothing, and the two calls
    have recorded the links [(h, d', p, d)] and [(p, d, h, d')]. *)
Theorem create_step_back (m : hrmap_grigorchuk) (st : store) (p : nat) (d : Z) :
  adapter_inv m st → is_Some (dec m !! p) → (d = 0 ∨ d = 1 ∨ d = 2)%Z →
  ∃ h m1 st1 m2 st2,
    create_step m st p d = Some (h, m1, st1) ∧
    create_step m1 st1 h (if decide (d = 2)%Z then 2 else 1 - d)%Z =
      Some (p, m2, st2) ∧
    heptagons m2 = heptagons m1 ∧ dec m2 = dec m1 ∧ enc m2 = enc m1 ∧
    links m2 =
      links m ++ [(h, (if decide (d = 2)%Z then 2 else 1 - d)%Z, p, d);
                  (p, d, h, (if decide (d = 2)%Z then 2 else 1 - d)%Z)].
Proof.
  intros Inv [pr0 Hp] Hd.
  set (d' := (if decide (d = 2)%Z then 2 else 1 - d)%Z).
  assert (d' = 0 ∨ d' = 1 ∨ d' = 2)%Z as Hd'
    by (unfold d'; case_decide; lia).
  assert ((if decide (d' = 2)%Z then 2 else 1 - d')%Z = d) as Hdd
    by (unfold d'; repeat case_decide; lia).
  destruct (create_step_spec m st p pr0 d Inv Hp Hd)
    as (h & m1 & st1 & pr & l & E1 & Hl & _ & Inv1 & Hle1 & Hh & A1 & Hk1 & Hc1).
  destruct (create_step_spec m1 st1 h pr d' Inv1 Hh Hd')
    as (h2 & m2 & st2 & pr2 & l' & E2 & Hl' & _ & Inv2 & Hle2 & Hh2 & A2 & Hk2 & Hc2).
  pose proof Inv as (Hwf & Hdec & Hbij).
  pose proof Inv1 as (Hwf1 & Hdec1 & Hbij1).
  pose proof Inv2 as (Hwf2 & Hdec2 & Hbij2).
  destruct (Hdec _ _ Hp) as [Vpr0 Hplt].
  assert (dec m1 !! p = Some pr0) as Hp1.
  { destruct Hc1 as [(_ & -> & _)|(_ & -> & hp & sta & r & _ & _ & -> & _)];
      [done|]. by rewrite lookup_insert_ne by lia. }
  assert (pr2 = pr0) as ->.
  { apply (act_injective st2); [done|by eapply Hdec2| |].
    { eapply tie_le_valid; [|exact Vpr0]. by eapply tie_le_trans. }
    intros v. rewrite A2, A1.
    rewrite (label_word_opposite d l l' Hd Hl Hl').
    rewrite <- word_act_app, word_act_cancel_rev.
    destruct Hwf as (Hs & Hc & _). symmetry.
    apply act_tie_le; [done|done|by eapply tie_le_trans|done]. }
  apply Hbij1 in Hp1.
  destruct Hc2 as [(He2 & Ed2 & Ee2 & Eh2 & _)|(He2 & _)]; [|congruence].
  assert (h2 = p) as -> by congruence.
  exists h, m1, st1, m2, st2. split; [done|]. split; [done|].
  split; [done|]. split; [done|]. split; [done|].
  rewrite Hk2, Hk1, Hdd, <- app_assoc. done.
Qed.

Lemma create_step_back_witness :
  ∃ m st,
    hrmap_grigorchuk_new 20 2 false init = Some (m, st) ∧
    ∃ h m1 st1 m2 st2,
      create_step m st 0 0 = Some (h, m1, st1) ∧
      create_step m1 st1 h (if decide (0 = 2)%Z then 2 else 1 - 0)%Z =
        Some (0, m2, st2) ∧
      heptagons m2 = heptagons m1 ∧ dec m2 = dec m1 ∧ enc m2 = enc m1 ∧
      links m2 =
        links m ++ [(h, (if decide (0 = 2)%Z then 2 else 1 - 0)%Z, 0, 0%Z);
                    (0, 0%Z, h, (if decide (0 = 2)%Z then 2 else 1 - 0)%Z)].
Proof.
  eexists _, _. split; [vm_compute; reflexivity|].
  apply create_step_back.
  - eapply (new_adapter_inv 20 2 false init);
      [exact wf_init|intros _; exact init_unvisited|vm_compute; reflexivity].
  - eexists. vm_compute. reflexivity.
  - by left.
Defined.

(** X24. The node [create_step p d] returns is the node of the right
    element: it is bound to a pointer that acts as the pointer of [p]
    followed by the generator of the direction ([ac], [ca], [b] for 0,
    1, 2); the bindings that existed are kept, and the invariant of
    the map holds afterwards. *)
Theorem create_step_neighbour (m : hrmap_grigorchuk) (st : store)
    (p : nat) (pr0 : prep) (d : Z) :
  adapter_inv m st → dec m !! p = Some pr0 → (d = 0 ∨ d = 1 ∨ d = 2)%Z →
  ∃ h m1 st1 pr l,
    create_step m st p d = Some (h, m1, st1) ∧
    label d = Some l ∧ dec m1 !! h = Some pr ∧
    (∀ v, act st1 pr v = act st pr0 (word_act (label_word l) v)) ∧
    dec m ⊆ dec m1 ∧ adapter_inv m1 st1.
Proof.
  intros Inv Hp Hd.
  destruct (create_step_spec m st p pr0 d Inv Hp Hd)
    as (h & m1 & st1 & pr & l & E1 & Hl & _ & Inv1 & Hle1 & Hh & A1 & Hk1 & Hc1).
  exists h, m1, st1, pr, l. repeat (split; [done|]). split; [|done].
  destruct Hc1 as [(_ & -> & _)|(_ & -> & hp & sta & r & _ & _ & -> & _)]; [done|].
  apply insert_subseteq. destruct Inv as (_ & Hdec & _).
  destruct (dec m !! length (heptagons m)) as [q|] eqn:Hq; [|done].
  destruct (Hdec _ _ Hq). lia.
Qed.

Lemma create_step_neighbour_witness :
  ∃ m st,
    hrmap_grigorchuk_new 20 2 false init = Some (m, st) ∧
    ∃ h m1 st1 pr l,
      create_step m st 0 2 = Some (h, m1, st1) ∧
      label 2 = Some l ∧ dec m1 !! h = Some pr ∧
      (∀ v, act st1 pr v = act st grig_I (word_act (label_word l) v)) ∧
      dec m ⊆ dec m1 ∧ adapter_inv m1 st1.
Proof.
  eexists _, _. split; [vm_compute; reflexivity|].
  apply create_step_neighbour.
  - eapply (new_adapter_inv 20 2 false init);
      [exact wf_init|intros _; exact init_unvisited|vm_compute; reflexivity].
  - vm_compute. reflexivity.
  - by right; right.
Defined.

(** X25. The label drawn on a cell: on the pointer of every bound node,
    at any time in the life of the map, [deform] returns after as many
    iterations as the distance of the node; the word it returns is over
    [a], [b], [c], has between one and two symbols per step, and
    multiplying the generators it names, from the identity on, gives
    the pointer back. *)
Theorem deform_bound_node (m : hrmap_grigorchuk) (st : store) (h : nat) (pr : prep) :
  adapter_run m st → dec m !! h = Some pr →
  ∃ hh t st' st2,
    heptagons m !! h = Some hh ∧
    deform (S (Z.to_nat (distance hh))) st pr = Some (t, st') ∧
    Forall (λ c, c = "a" ∨ c = "b" ∨ c = "c") t ∧
    (distance hh ≤ Z.of_nat (length t) ≤ 2 * distance hh)%Z ∧
    mul_word st' grig_I t = Some (pr, st2).
Proof.
  intros [Inv Lab]%adapter_run_inv Hh.
  pose proof Inv as (Hwf & Hdec & _).
  destruct (Hdec _ _ Hh) as [_ Hlt].
  destruct (lookup_lt_is_Some_2 _ _ Hlt) as [hh Hhh].
  destruct (proj2 Lab h pr hh Hh Hhh) as (H0 & _).
  assert (trail st pr (Z.to_nat (distance hh))) as T.
  { eapply adapter_trail; [done|done|done|done|lia]. }
  destruct (deform_trail _ st pr [] Hwf T)
    as (u & st' & Ed & Hu & Lu & _ & _ & st2 & Em & _).
  exists hh, (reverse u), st', st2. split; [done|].
  unfold deform. rewrite Ed. cbn [mbind option_bind app]. split; [done|].
  split; [by apply Forall_reverse|]. rewrite length_reverse. split; [lia|done].
Qed.

Lemma deform_bound_node_witness :
  ∃ m0 st0 h m st pr,
    hrmap_grigorchuk_new 20 2 false init = Some (m0, st0) ∧
    create_step m0 st0 0 0 = Some (h, m, st) ∧
    dec m !! h = Some pr ∧
    ∃ hh t st' st2,
      heptagons m !! h = Some hh ∧
      deform (S (Z.to_nat (distance hh))) st pr = Some (t, st') ∧
      Forall (λ c, c = "a" ∨ c = "b" ∨ c = "c") t ∧
      (distance hh ≤ Z.of_nat (length t) ≤ 2 * distance hh)%Z ∧
      mul_word st' grig_I t = Some (pr, st2).
Proof.
  eexists _, _, _, _, _, _.
  split; [vm_compute; reflexivity|]. split; [vm_compute; reflexivity|].
  split; [vm_compute; reflexivity|].
  apply deform_bound_node; [|vm_compute; reflexivity].
  eapply (run_step _ _ 0 0);
    [eapply (run_new 20 2); vm_compute; reflexivity
    |by left|vm_compute; reflexivity].
Defined.

End AdapterMore.

(** ** The survey of words *)

Module Survey.
Import Word Store WordFacts StoreFacts Action WordMore WordAction EnumMore.

Lemma word_act_fold_add sr q v :
  reduced q → over_gens sr →
  word_act (fold_left add sr q) v = word_act (q ++ sr) v.
Proof.
  revert q. induction sr as [|c sr IH]; intros q Hq Hsr; cbn [fold_left].
  { by rewrite app_nil_r. }
  apply Forall_cons in Hsr as [Hc Hsr].
  rewrite IH by (done || by apply add_reduced).
  rewrite !word_act_app, word_act_add by (done || apply Hq). done.
Qed.

Lemma same_element_trivial q s :
  (∀ v, word_act (q ++ reverse s) v = v) ↔ same_element q s.
Proof.
  unfold same_element. split; intros H v.
  - specialize (H v). rewrite word_act_app in H.
    rewrite <- H at 2. by rewrite <- word_act_app, word_act_cancel_rev.
  - by rewrite word_act_app, H, <- word_act_app, word_act_cancel.
Qed.

Lemma same_element_sym q s : same_element q s → same_element s q.
Proof. intros H v. by rewrite H. Qed.

(** The loop over [seen] finds out whether the element is known. *)
Lemma addmore_scan_spec s qs :
  reduced s → Forall reduced qs →
  ∃ b, addmore_scan (reverse s) qs = Some b ∧
       (b = true ↔ ∃ q, q ∈ qs ∧ same_element q s).
Proof.
  intros Hs. induction qs as [|q qs IH]; intros Hqs.
  { exists false. split; [done|]. split; [done|].
    by intros (q & ?%elem_of_nil & _). }
  apply Forall_cons in Hqs as [Hq Hqs]. destruct (IH Hqs) as (b & Eb & Hb).
  cbn [addmore_scan].
  assert (over_gens (reverse s)) as Hrs by (apply Forall_reverse, Hs).
  destruct (empt_terminates_aux (length (fold_left add (reverse s) q))
              (fold_left add (reverse s) q)) as [r Hr]; [done|].
  rewrite Hr. pose proof (empt_word_act _ _ _ Hr) as Hiff.
  assert (r = true ↔ same_element q s) as Hq'.
  { rewrite Hiff, <- same_element_trivial.
    split; intros H v; specialize (H v);
      by rewrite word_act_fold_add in * by done. }
  destruct r.
  - exists true. split; [done|]. split; [|done]. intros _.
    exists q. split; [by apply elem_of_cons; left|by apply Hq'].
  - exists b. split; [done|]. rewrite Hb. split.
    + intros (q0 & Hin & He). exists q0. split; [by apply elem_of_cons; right|done].
    + intros (q0 & [->|Hin]%elem_of_cons & He).
      * by apply Hq' in He.
      * by exists q0.
Qed.

(** [add] lengthens a reduced buffer exactly when the symbol can be
    appended to it. *)
Lemma add_grows s c :
  reduced s → is_gen c = true → length (add s c) = length s + 1 →
  add s c = s ++ [c] ∧ reduced (s ++ [c]).
Proof.
  intros Hs Hc Hl. assert (add s c = s ++ [c]) as E.
  { destruct (snoc_cases s) as [->|(s' & b & ->)]; [done|].
    revert Hl. rewrite add_snoc, !length_app. simpl.
    repeat case_match; rewrite ?length_app; simpl; try lia.
    intros _. by rewrite <- app_assoc. }
  split; [done|]. rewrite <- E. by apply add_reduced.
Qed.

Lemma addmore_leaf seen s :
  Forall reduced seen → distinct_elements seen → reduced s →
  ∃ seen',
    addmore 1 seen s 0 = Some seen' ∧
    seen ⊆ seen' ∧ Forall reduced seen' ∧ distinct_elements seen' ∧
    (∀ w, w ∈ seen' → w ∈ seen ∨ w = s) ∧
    ∃ q, q ∈ seen' ∧ same_element q s.
Proof.
  intros Hred Hdis Hs. cbn [addmore]. rewrite decide_True by done.
  destruct (addmore_scan_spec s seen Hs Hred) as (b & Eb & Hb).
  rewrite Eb. destruct b.
  { exists seen. split; [done|]. split; [done|]. split; [done|].
    split; [done|]. split; [by left|]. by apply Hb. }
  unfold seen_insert. case_decide as Hin.
  { exists seen. split; [done|]. split; [done|]. split; [done|].
    split; [done|]. split; [by left|]. by exists s. }
  exists (seen ++ [s]). split; [done|].
  split; [intros w Hw; apply elem_of_app; by left|].
  split; [apply Forall_app; split; [done|by apply Forall_singleton]|].
  assert (∀ q, q ∈ seen → ¬ same_element q s) as Hno.
  { intros q Hq He. assert (false = true) as [=]. apply Hb. by exists q. }
  split; [|split].
  - intros q1 q2 [H1|H1%list_elem_of_singleton]%elem_of_app
                 [H2|H2%list_elem_of_singleton]%elem_of_app He; subst.
    + by apply Hdis.
    + by destruct (Hno q1).
    + by destruct (Hno q2 H2 (same_element_sym _ _ He)).
    + done.
  - intros w [H|H%list_elem_of_singleton]%elem_of_app; [by left|by right].
  - exists s. split; [apply elem_of_app; right; by apply list_elem_of_singleton|done].
Qed.

(** What a call of [addmore] does to [seen]. *)
Lemma addmore_spec n :
  ∀ seen s,
    Forall reduced seen → distinct_elements seen → reduced s →
    ∃ seen',
      addmore (S n) seen s (Z.of_nat n) = Some seen' ∧
      seen ⊆ seen' ∧ Forall reduced seen' ∧ distinct_elements seen' ∧
      (∀ w, w ∈ seen' → w ∈ seen ∨ ∃ u, w = s ++ u ∧ length u = n) ∧
      (∀ u, reduced (s ++ u) → length u = n →
            ∃ q, q ∈ seen' ∧ same_element q (s ++ u)).
Proof.
  induction n as [|n IH]; intros seen s Hred Hdis Hs.
  { destruct (addmore_leaf seen s Hred Hdis Hs)
      as (seen' & E & Hsub & Hred' & Hdis' & Hnew & Hcov).
    exists seen'. split; [done|]. split; [done|]. split; [done|].
    split; [done|]. split.
    - intros w Hw. destruct (Hnew w Hw) as [?| ->]; [by left|right].
      exists []. by rewrite app_nil_r.
    - intros u _ ->%nil_length_inv. by rewrite app_nil_r. }
  cbn [addmore]. rewrite decide_False by lia.
  match goal with |- context [fold_left ?f _ _] => set (F := f) end.
  assert (∀ seen0 c,
    F (Some seen0) c =
      if decide (length (add s c) ≠ length s + 1) then Some seen0
      else addmore (S n) seen0 (add s c) (Z.of_nat n)) as HF.
  { intros seen0 c. unfold F. cbn [mbind option_bind].
    by replace (Z.of_nat (S n) - 1)%Z with (Z.of_nat n) by lia. }
  assert (∀ cs seen0,
    Forall (λ c, is_gen c = true) cs →
    Forall reduced seen0 → distinct_elements seen0 →
    ∃ seen',
      fold_left F cs (Some seen0) = Some seen' ∧
      seen0 ⊆ seen' ∧ Forall reduced seen' ∧ distinct_elements seen' ∧
      (∀ w, w ∈ seen' →
            w ∈ seen0 ∨ ∃ c u, c ∈ cs ∧ w = s ++ c :: u ∧ length u = n) ∧
      (∀ c u, c ∈ cs → reduced (s ++ c :: u) → length u = n →
              ∃ q, q ∈ seen' ∧ same_element q (s ++ c :: u))) as Hcs.
  { clear Hred Hdis seen.
    induction cs as [|c cs IHcs]; intros seen0 Hg Hred Hdis.
    { exists seen0. split; [done|]. split; [done|]. split; [done|].
      split; [done|]. split; [by left|]. by intros c u ?%elem_of_nil. }
    apply Forall_cons in Hg as [Hc Hg].
    cbn [fold_left]. rewrite HF. case_decide as Hlen.
    - destruct (IHcs seen0 Hg Hred Hdis)
        as (seen' & E & Hsub & Hred' & Hdis' & Hnew & Hcov).
      exists seen'. split; [done|]. split; [done|]. split; [done|].
      split; [done|]. split.
      + intros w Hw. destruct (Hnew w Hw) as [?|(c' & u & Hc' & -> & Hu)];
          [by left|right].
        exists c', u. split; [by apply elem_of_cons; right|done].
      + intros c' u [->|Hc']%elem_of_cons Hr Hu; [|by eapply Hcov].
        destruct Hlen.
        change (s ++ c :: u) with (s ++ [c] ++ u) in Hr. rewrite app_assoc in Hr.
        apply reduced_app_l in Hr. rewrite (add_reduced_snoc _ _ Hr).
        rewrite length_app. simpl. lia.
    - assert (length (add s c) = length s + 1) as Hlen' by lia.
      destruct (add_grows s c Hs Hc Hlen') as [Ea Hsc]. rewrite Ea.
      destruct (IH seen0 (s ++ [c]) Hred Hdis Hsc)
        as (seen1 & E1 & Hsub1 & Hred1 & Hdis1 & Hnew1 & Hcov1).
      rewrite E1.
      destruct (IHcs seen1 Hg Hred1 Hdis1)
        as (seen' & E & Hsub & Hred' & Hdis' & Hnew & Hcov).
      exists seen'. split; [done|]. split; [by etrans|]. split; [done|].
      split; [done|]. split.
      + intros w Hw. destruct (Hnew w Hw) as [Hw1|(c' & u & Hc' & -> & Hu)].
        * destruct (Hnew1 w Hw1) as [?|(u & -> & Hu)]; [by left|right].
          exists c, u. split; [by apply elem_of_cons; left|].
          by rewrite <- app_assoc.
        * right. exists c', u. split; [by apply elem_of_cons; right|done].
      + intros c' u [->|Hc']%elem_of_cons Hr Hu; [|by eapply Hcov].
        destruct (Hcov1 u) as (q & Hq & He);
          [by rewrite <- app_assoc|done|].
        exists q. split; [by apply Hsub|]. by rewrite <- app_assoc in He. }
  destruct (Hcs ["a"; "b"; "c"; "d"] seen) as
    (seen' & E & Hsub & Hred' & Hdis' & Hnew & Hcov); [by repeat constructor|done..|].
  exists seen'. split; [done|]. split; [done|]. split; [done|].
  split; [done|]. split.
  - intros w Hw. destruct (Hnew w Hw) as [?|(c & u & _ & -> & Hu)]; [by left|right].
    exists (c :: u). split; [done|]. simpl. lia.
  - intros [|c u] Hr Hu; [done|]. simpl in Hu.
    apply Hcov; [|done|lia].
    destruct Hr as (Hg & _). apply Forall_app in Hg as [_ Hg].
    apply Forall_cons in Hg as [Hc _].
    destruct (is_gen_cases _ Hc) as [->|[->|[->| ->]]];
      repeat (apply elem_of_cons; (by left) || right).
Qed.

(** X26. [addmore(s, more)], called with a reduced [s], [more >= 0] and
    a set [seen] of reduced words standing for pairwise distinct
    elements, returns; it only adds to [seen], and only reduced words
    made of [s] followed by [more] symbols; the words of [seen] still
    stand for pairwise distinct elements; and every reduced word made
    of [s] followed by [more] symbols then stands for the same element
    as some word of [seen]. *)
Theorem addmore_representatives (seen : list word) (s : word) (more : Z) :
  Forall reduced seen → distinct_elements seen → reduced s → (0 ≤ more)%Z →
  ∃ seen',
    addmore (S (Z.to_nat more)) seen s more = Some seen' ∧
    seen ⊆ seen' ∧ Forall reduced seen' ∧ distinct_elements seen' ∧
    (∀ w, w ∈ seen' →
          w ∈ seen ∨ ∃ u, w = s ++ u ∧ Z.of_nat (length u) = more) ∧
    (∀ u, reduced (s ++ u) → Z.of_nat (length u) = more →
          ∃ q, q ∈ seen' ∧ same_element q (s ++ u)).
Proof.
  intros Hred Hdis Hs Hm.
  destruct (addmore_spec (Z.to_nat more) seen s Hred Hdis Hs)
    as (seen' & E & Hsub & Hred' & Hdis' & Hnew & Hcov).
  rewrite Z2Nat.id in E by done.
  exists seen'. split; [done|]. split; [done|]. split; [done|].
  split; [done|]. split.
  - intros w Hw. destruct (Hnew w Hw) as [?|(u & -> & Hu)]; [by left|right].
    exists u. split; [done|lia].
  - intros u Hr Hu. apply Hcov; [done|lia].
Qed.

Lemma addmore_representatives_witness :
  ∃ seen',
    addmore (S (Z.to_nat 2)) [] [] 2 = Some seen' ∧
    [] ⊆ seen' ∧ Forall reduced seen' ∧ distinct_elements seen' ∧
    (∀ w, w ∈ seen' →
          w ∈ [] ∨ ∃ u, w = [] ++ u ∧ Z.of_nat (length u) = 2%Z) ∧
    (∀ u, reduced ([] ++ u) → Z.of_nat (length u) = 2%Z →
          ∃ q, q ∈ seen' ∧ same_element q ([] ++ u)).
Proof.
  apply (addmore_representatives [] [] 2);
    [constructor|by intros q1 q2 ?%elem_of_nil|apply reduced_nil|lia].
Defined.

Lemma word_act_reverse_trivial w :
  (∀ v, word_act w v = v) → ∀ v, word_act (reverse w) v = v.
Proof.
  intros H v. rewrite <- (H v) at 1. by rewrite <- word_act_app, word_act_cancel.
Qed.

(** X27. The two engines agree on the word problem: multiplying out
    the generators named by a word with [mul], from the identity on,
    ends on the pointer of the identity exactly when [empt] accepts the
    word. *)
Theorem engines_agree (st : store) (w : word) :
  wf st →
  ∃ p st',
    Enumerator.mul_word st grig_I w = Some (p, st') ∧
    (p = grig_I ↔ empt (length w + 2) w = Some true).
Proof.
  intros Hwf.
  destruct (mul_word_spec st grig_I w Hwf I) as (p & st' & E & Hwf' & G & Vp & A).
  exists p, st'. split; [done|].
  destruct (empt_terminates_aux (length w) w) as [r Hr]; [done|].
  rewrite Hr. pose proof (empt_word_act _ _ _ Hr) as Hiff.
  assert (∀ v, act st' p v = word_act (reverse w) v) as A'.
  { intros v. rewrite A, (act_static st grig_I) by (apply Hwf || done).
    apply act_init_I. }
  split.
  - intros ->. f_equal. apply Hiff. intros v.
    rewrite <- (reverse_involutive w). apply word_act_reverse_trivial.
    intros u. rewrite <- A', (act_static st' grig_I) by (apply Hwf' || done).
    apply act_init_I.
  - intros [= ->]. apply (act_injective st'); [done|done|done|].
    intros v. rewrite A', (act_static st' grig_I) by (apply Hwf' || done).
    rewrite act_init_I. apply word_act_reverse_trivial. by apply Hiff.
Qed.

Lemma engines_agree_witness :
  ∃ p st',
    Enumerator.mul_word init grig_I (str "adadadad") = Some (p, st') ∧
    (p = grig_I ↔ empt (length (str "adadadad") + 2) (str "adadadad") = Some true).
Proof. apply (engines_agree init (str "adadadad")). exact wf_init. Defined.

End Survey.

(** ** The labels of the objects *)

Module Labels.
Import Word Store Enumerator Adapter.
Import WordFacts StoreFacts Action EnumFacts AdapterFacts.
Import WordAction StoreMore EnumMore AdapterMore.

Lemma labelled_init : labelled init.
Proof.
  intros p r. unfold known_label.
  destruct p; simpl; intros [= <-] Hne; simpl; try done; tauto.
Qed.

(** A node that [mul] inserts gets the label of the right factor, which
    is not the identity. *)
Lemma labelled_mul_fuel fuel st x y p st' :
  mul_fuel fuel st x y = Some (p, st') → labelled st → labelled st'.
Proof.
  revert fuel st x y p st'.
  apply (mul_fuel_ind (λ st x y p st', labelled st → labelled st')).
  - done.
  - intros st x y rx ry p0 st1 p1 st2 ry2 p st' Ec _ _ IH0 IH1 Dy El Hl.
    pose proof (IH1 (IH0 Hl)) as Hl2.
    destruct (lookup_cases _ _ _ _ El) as [[-> _]|(-> & _ & _)]; [done|].
    intros q r Hq Hne.
    apply deref_emplace in Hq as [Hq|[_ ->]]; [by eapply Hl2|].
    cbn [last new_rep]. eapply Hl2; [done|].
    by destruct (mul_const_None _ _ Ec) as (_ & ? & _).
Qed.

Lemma labelled_mul st x y p st' :
  mul st x y = Some (p, st') → labelled st → labelled st'.
Proof. apply labelled_mul_fuel. Qed.

Lemma labelled_mul_word w st x p st' :
  mul_word st x w = Some (p, st') → labelled st → labelled st'.
Proof.
  revert st x. induction w as [|c w IH]; intros st x; [by intros [= _ <-]|].
  cbn [mul_word]. destruct (mul st x (gen_ptr c)) as [[y st1]|] eqn:E; [|done].
  cbn [mbind option_bind]. intros E' Hl.
  eapply IH; [done|]. by eapply labelled_mul.
Qed.

Lemma labelled_set_last st x l :
  x = grig_I ∨ known_label l → labelled st →
  labelled (update st x (set_last l)).
Proof.
  intros Hx Hl q r Hq Hne. destruct (decide (x = q)) as [->|Hxq].
  - destruct (deref st q) as [r0|] eqn:E.
    + rewrite (deref_update_eq _ _ _ _ E) in Hq. injection Hq as <-.
      simpl. by destruct Hx.
    + destruct q; simpl in *; try done.
      by rewrite list_lookup_alter_eq, E in Hq.
  - rewrite deref_update_ne in Hq by done. by eapply Hl.
Qed.

Lemma labelled_visit st all x l d st' all' :
  x = grig_I ∨ known_label l →
  visit st all x l d = Some (st', all') → labelled st → labelled st'.
Proof.
  intros Hx (r & Dx & [(_ & -> & _)|(_ & _ & Dx' & Hne & _)])%visit_cases Hl;
    [done|].
  intros q rq Hq Hq'. destruct (decide (q = x)) as [->|Hqx].
  - rewrite Dx' in Hq. injection Hq as <-. simpl. by destruct Hx.
  - rewrite (Hne _ Hqx) in Hq. by eapply Hl.
Qed.

Lemma labelled_body ac ca i st all st' all' :
  bfs_body ac ca i (st, all) = Some (st', all') → labelled st → labelled st'.
Proof.
  unfold bfs_body. intros E Hl.
  destruct (all !! i) as [x|]; [|done]. simpl in E.
  destruct (mul st x grig_b) as [[p1 st1]|] eqn:E1; [|done]. simpl in E.
  destruct (deref st1 x) as [rx1|]; [|done]. simpl in E.
  destruct (visit st1 all p1 _ _) as [[st2 all2]|] eqn:V1; [|done]. simpl in E.
  destruct (mul st2 x ac) as [[p2 st3]|] eqn:E2; [|done]. simpl in E.
  destruct (deref st3 x) as [rx2|]; [|done]. simpl in E.
  destruct (visit st3 all2 p2 _ _) as [[st4 all4]|] eqn:V2; [|done]. simpl in E.
  destruct (mul st4 x ca) as [[p3 st5]|] eqn:E3; [|done]. simpl in E.
  destruct (deref st5 x) as [rx3|]; [|done]. simpl in E.
  assert (∀ l, l = "b" ∨ l = "A" ∨ l = "C" → ∀ y, y = grig_I ∨ known_label l) as K.
  { intros l Hk y. right. unfold known_label. tauto. }
  eapply (labelled_visit _ _ _ _ _ _ _ (K "C" ltac:(tauto) _) E).
  eapply labelled_mul; [exact E3|].
  eapply (labelled_visit _ _ _ _ _ _ _ (K "A" ltac:(tauto) _) V2).
  eapply labelled_mul; [exact E2|].
  eapply (labelled_visit _ _ _ _ _ _ _ (K "b" ltac:(tauto) _) V1).
  by eapply labelled_mul.
Qed.

Lemma labelled_loop ac ca n i st all st' all' :
  bfs_loop ac ca n i (st, all) = Some (st', all') → labelled st → labelled st'.
Proof.
  revert i st all. induction n as [|n IH]; intros i st all; cbn [bfs_loop].
  - by intros [= <- <-].
  - destruct (bfs_body ac ca i (st, all)) as [[st1 all1]|] eqn:Eb; [|done].
    cbn [mbind option_bind]. intros El Hl.
    eapply IH; [done|]. by eapply labelled_body.
Qed.

Lemma labelled_deform_loop fuel st x2 t t' st' :
  deform_loop fuel st x2 t = Some (t', st') → labelled st → labelled st'.
Proof.
  revert st x2 t. induction fuel as [|fuel IH]; intros st x2 t; [done|].
  cbn [deform_loop]. case_decide; [by intros [= _ <-]|].
  destruct (deref st x2) as [r|]; [|done]. cbn [mbind option_bind].
  assert (∀ st0 x g (k : prep * store → option (list ascii * store)),
            (∀ st2 p2, k (p2, st2) = Some (t', st') → labelled st2 → labelled st') →
            mul st0 x g ≫= k = Some (t', st') → labelled st0 → labelled st') as Hmul.
  { intros st0 x g k Hk.
    destruct (mul st0 x g) as [[p2 st2]|] eqn:E; [|done]. cbn [mbind option_bind].
    intros Hk' Hl. eapply (Hk _ _ Hk'). by eapply labelled_mul. }
  repeat case_match.
  - eapply Hmul. intros st2 p2. by apply IH.
  - eapply Hmul. intros st2 p2. by apply IH.
  - eapply Hmul. intros st2 p2. by apply IH.
  - eapply Hmul. intros st2 p2. by apply IH.
  - eapply Hmul. intros st2 p2. eapply Hmul. intros st3 p3. by apply IH.
  - eapply Hmul. intros st2 p2. eapply Hmul. intros st3 p3. by apply IH.
  - by apply IH.
Qed.

Lemma labelled_prepare fuel grig_limit st0 st all ac ca :
  prepare fuel grig_limit st0 = Some (st, all, ac, ca) →
  labelled st0 → labelled st.
Proof.
  unfold prepare. intros E Hl.
  destruct (mul st0 grig_a grig_c) as [[ac' st1]|] eqn:E1; [|done].
  cbn [mbind option_bind] in E.
  destruct (mul st1 grig_c grig_a) as [[ca' st2]|] eqn:E2; [|done].
  cbn [mbind option_bind] in E.
  destruct (visit st2 [] grig_I zero 0) as [[st3 all3]|] eqn:Hv; [|done].
  cbn [mbind option_bind] in E.
  destruct (bfs_loop ac' ca' _ 0 _) as [[st4 all4]|] eqn:El; [|done].
  cbn [mbind option_bind] in E.
  destruct (mul st4 grig_b grig_a) as [[t1 st5]|] eqn:T1; [|done].
  cbn [mbind option_bind] in E.
  destruct (mul st5 t1 grig_d) as [[t2 st6]|] eqn:T2; [|done].
  cbn [mbind option_bind] in E.
  destruct (mul st6 t2 grig_a) as [[t3 st7]|] eqn:T3; [|done].
  cbn [mbind option_bind] in E.
  destruct (mul st7 t3 grig_d) as [[t4 st8]|] eqn:T4; [|done].
  cbn [mbind option_bind] in E.
  unfold deform in E.
  destruct (deform_loop fuel st8 t4 []) as [[t st9]|] eqn:Ed; [|done].
  cbn [mbind option_bind] in E. injection E as <- <- <- <-.
  eapply labelled_deform_loop; [exact Ed|].
  eapply labelled_mul; [exact T4|]. eapply labelled_mul; [exact T3|].
  eapply labelled_mul; [exact T2|]. eapply labelled_mul; [exact T1|].
  eapply labelled_loop; [exact El|].
  eapply labelled_visit; [by left|exact Hv|].
  eapply labelled_mul; [exact E2|]. by eapply labelled_mul.
Qed.

Lemma labelled_create_step m st p d h m1 st1 :
  (d = 0 ∨ d = 1 ∨ d = 2)%Z →
  create_step m st p d = Some (h, m1, st1) → labelled st → labelled st1.
Proof.
  intros Hd. unfold create_step.
  destruct (dec m !! p) as [pr0|]; [|done]. cbn [mbind option_bind].
  destruct (switch_d_mul_word st pr0 d Hd) as (l & Hl & Hlab & ->).
  destruct (mul_word st pr0 _) as [[pr sta]|] eqn:Em; [|done].
  cbn [mbind option_bind]. intros E Hst.
  pose proof (labelled_mul_word _ _ _ _ _ Em Hst) as Hsta.
  destruct (enc m !! pr); [by injection E as _ _ <-|].
  rewrite Hl in E. cbn [mbind option_bind] in E.
  destruct (heptagons m !! p); [|done]. cbn [mbind option_bind alloc] in E.
  injection E as _ _ <-. apply labelled_set_last; [|done].
  right. unfold known_label. tauto.
Qed.

(** X28. At any time in the life of a map, every object other than the
    identity carries one of the six labels [a], [b], [c], [d], [A], [C]
    that [deform] knows: the loop of [deform] never meets a label it
    has no branch for. *)
Theorem labels_known (m : hrmap_grigorchuk) (st : store) :
  adapter_run m st →
  ∀ p r, deref st p = Some r → p ≠ grig_I → known_label (last r).
Proof.
  intros Hrun. change (labelled st).
  induction Hrun as [fuel grig_limit m st E
                    |m st p d h m1 st1 _ IH Hd E
                    |m st x y p st1 _ IH Vx Vy E].
  - unfold hrmap_grigorchuk_new in E.
    destruct (prepare fuel grig_limit init) as [[[[s all] ac] ca]|] eqn:Ep;
      [|done].
    cbn in E. injection E as _ <-.
    eapply labelled_prepare; [done|apply labelled_init].
  - by eapply labelled_create_step.
  - by eapply labelled_mul.
Qed.

Lemma labels_known_witness :
  ∃ m st,
    hrmap_grigorchuk_new 20 2 false init = Some (m, st) ∧
    ∀ p r, deref st p = Some r → p ≠ grig_I → known_label (last r).
Proof.
  eexists _, _. split; [vm_compute; reflexivity|].
  apply (labels_known _ _ ltac:(eapply (run_new 20 2); vm_compute; reflexivity)).
Defined.

(** X29. A direction other than 0, 1, 2 leads nowhere: for an [int]
    [d] such that [1 - d] is an [int] as well, the [switch] of
    [create_step] has no case, so the call returns the node it was
    given, allocates nothing, and leaves the bindings and the store as
    they are; it only passes the node, with [1 - d] and [d], to
    [connect]. *)
Theorem create_step_other_direction (m : hrmap_grigorchuk) (st : store)
    (p : nat) (d : Z) :
  adapter_inv m st → is_Some (dec m !! p) →
  int_range d → int_range (1 - d) → ¬ (d = 0 ∨ d = 1 ∨ d = 2)%Z →
  create_step m st p d = Some (p, connect m p (1 - d)%Z p d, st).
Proof.
  intros (_ & _ & Hbij) [pr Hp] _ _ Hd. unfold create_step, switch_d.
  rewrite Hp. cbn [mbind option_bind].
  rewrite !decide_False by lia. cbn [mbind option_bind].
  apply Hbij in Hp. by rewrite Hp.
Qed.

Lemma create_step_other_direction_witness :
  ∃ m st,
    hrmap_grigorchuk_new 20 2 false init = Some (m, st) ∧
    create_step m st 0 3 = Some (0, connect m 0 (1 - 3)%Z 0 3%Z, st).
Proof.
  eexists _, _. split; [vm_compute; reflexivity|].
  apply create_step_other_direction.
  - eapply (new_adapter_inv 20 2 false init);
      [exact wf_init|intros _; exact init_unvisited|vm_compute; reflexivity].
  - eexists. vm_compute. reflexivity.
  - unfold int_range. lia.
  - unfold int_range. lia.
  - lia.
Defined.

End Labels.
